(** * Payfirma SDK: key-case transformer, error classifier, configuration
      check and token store, embedded in Rocq.

    The development follows the TypeScript sources:
    - [utils/transformers.ts]  : [camelToSnake], [snakeToCamel],
      [transformKeysToSnake], [transformKeysToCamel];
    - [types/errors.ts]        : the error classes and [ErrorFactory];
    - [services/PlanService.ts]: [handleError];
    - [PayfirmaSDK.ts]         : [validateConfig] and the constructor;
    - [services/AuthService.ts] (listed with [services/index.ts]): the token
      store and its refresh coordinator, run on a small model of the
      JavaScript event loop;
    - [utils/apiClient.ts]     : [HttpClient.request] and [withAuth];
    - [services/PlanService.ts], [services/EFTService.ts]: the request
      helper, [planExists], the statistics, [validateBankAccount]. *)

From Stdlib Require Import ZArith Ascii String List Bool Lia.
From stdpp Require Import base option list gmap.
Import ListNotations.

Open Scope string_scope.
Open Scope list_scope.

#[local] Set Warnings "-register-all".

(** ** Characters and strings

    A JavaScript string is modelled by its bytes.  The two regular
    expressions of the transformer, [/[A-Z]/g] and [/_([a-z])/g], only ever
    match the ASCII letters and the underscore, so every other byte is
    carried along untouched. *)

Module Chars.

Definition code (c : ascii) : nat := nat_of_ascii c.

(** The character class [[A-Z]]. *)
Definition is_upper (c : ascii) : bool :=
  (65 <=? code c)%nat && (code c <=? 90)%nat.

(** The character class [[a-z]]. *)
Definition is_lower (c : ascii) : bool :=
  (97 <=? code c)%nat && (code c <=? 122)%nat.

Definition is_letter (c : ascii) : bool := is_upper c || is_lower c.

Definition is_digit (c : ascii) : bool :=
  (48 <=? code c)%nat && (code c <=? 57)%nat.

Definition is_underscore (c : ascii) : bool := Ascii.eqb c "_".

(** [String.prototype.toLowerCase] and [toUpperCase] on one character; the
    source applies them to matched ASCII letters only. *)
Definition toLowerCase (c : ascii) : ascii :=
  if is_upper c then ascii_of_nat (code c + 32) else c.

Definition toUpperCase (c : ascii) : ascii :=
  if is_lower c then ascii_of_nat (code c - 32) else c.

(** Case analysis over the 256 characters. *)

End Chars.

Import Chars.

(** ** [camelToSnake] and [snakeToCamel] *)

(** [str.replace(/[A-Z]/g, letter => `_${letter.toLowerCase()}`)] *)
Fixpoint camelToSnake (str : string) : string :=
  match str with
  | EmptyString => EmptyString
  | String c rest =>
      if is_upper c
      then String "_" (String (toLowerCase c) (camelToSnake rest))
      else String c (camelToSnake rest)
  end.

(** [str.replace(/_([a-z])/g, (_, letter) => letter.toUpperCase())]: the
    scan goes left to right; a match consumes the underscore and the letter,
    and the scan resumes behind them. *)
Fixpoint snakeToCamel (str : string) : string :=
  match str with
  | EmptyString => EmptyString
  | String c rest =>
      match rest with
      | String d rest' =>
          if is_underscore c && is_lower d
          then String (toUpperCase d) (snakeToCamel rest')
          else String c (snakeToCamel rest)
      | EmptyString => String c EmptyString
      end
  end.

(** *** The rule of the specification, position by position

    "Each underscore followed by a letter is removed and that letter is
    upper-cased."  [underscore_rule P] reads the sentence with [P] as the
    meaning of "letter": a character is dropped when it is an underscore and
    the next character satisfies [P]; it is upper-cased when it satisfies [P]
    and the previous character is an underscore; it is kept otherwise.
    [prev] tells whether the previous character is an underscore. *)

Definition followed_by (P : ascii -> bool) (rest : string) : bool :=
  match rest with
  | String d _ => P d
  | EmptyString => false
  end.

Fixpoint underscore_rule (P : ascii -> bool) (prev : bool) (s : string) : string :=
  match s with
  | EmptyString => EmptyString
  | String c rest =>
      if is_underscore c && followed_by P rest
      then underscore_rule P true rest
      else if prev && P c
      then String (toUpperCase c) (underscore_rule P (is_underscore c) rest)
      else String c (underscore_rule P (is_underscore c) rest)
  end.

(** The rule as the specification words it: any letter, of either case. *)
Definition snakeToCamel_any_letter (s : string) : string :=
  underscore_rule is_letter false s.

(** The rule restricted to the lower-case letters [[a-z]]. *)
Definition snakeToCamel_lower_letter (s : string) : string :=
  underscore_rule is_lower false s.

(** ** JSON-like values and JavaScript objects

    A value handed to the transformer is a scalar, an array or an object.
    An object is represented by what the two functions can observe and
    change:
    - [entries]: its own enumerable string-keyed properties, in the order
      [Object.entries] lists them (array-index keys in ascending numeric
      order first, then the other keys in creation order);
    - [proto]: whether its prototype chain still ends in [Object.prototype],
      whose accessor property [__proto__] is the only inherited property
      that intercepts an assignment.  Objects written as literals or produced
      by [JSON.parse] have [proto = true].

    Numbers are opaque to the transformer; they are carried as integers. *)

Inductive json : Type :=
| JNull
| JBool (b : bool)
| JNumber (n : Z)
| JString (s : string)
| JArray (items : list json)
| JObject (proto : bool) (entries : list (string * json)).

(** *** Property keys *)

Definition proto_key : string := "__proto__".

(** Decimal reading of a string of digits. *)
Fixpoint digits_value (acc : N) (s : string) : option N :=
  match s with
  | EmptyString => Some acc
  | String c rest =>
      if is_digit c
      then digits_value (10 * acc + N.of_nat (code c - 48)) rest
      else None
  end.

(** Decimal writing of a number, most significant digit first. *)
Definition digit_char (d : N) : ascii := ascii_of_nat (48 + N.to_nat d).

Fixpoint write_digits (fuel : nat) (n : N) (acc : string) : string :=
  match fuel with
  | O => acc
  | S fuel' =>
      let acc' := String (digit_char (n mod 10)) acc in
      if (n <? 10)%N then acc' else write_digits fuel' (n / 10) acc'
  end.

Definition number_to_string (n : N) : string :=
  write_digits (S (N.to_nat (N.log2 n))) n EmptyString.

(** An array index is a canonical numeric string (the decimal writing of its
    own value) whose value is below [2^32 - 1]. *)
Definition array_index (k : string) : option N :=
  match k with
  | EmptyString => None
  | String _ _ =>
      match digits_value 0 k with
      | Some i =>
          if String.eqb (number_to_string i) k && (i <=? 4294967294)%N
          then Some i else None
      | None => None
      end
  end.

(** *** Assignment [transformed[key] = value] *)

Definition has_key (k : string) (entries : list (string * json)) : bool :=
  existsb (fun e => String.eqb k (fst e)) entries.

(** Overwriting an own property keeps its place. *)
Fixpoint replace_value (k : string) (v : json) (entries : list (string * json))
  : list (string * json) :=
  match entries with
  | [] => []
  | e :: rest =>
      if String.eqb k (fst e) then (fst e, v) :: rest
      else e :: replace_value k v rest
  end.

(** A new array-index key goes behind the smaller indices. *)
Fixpoint insert_index (i : N) (k : string) (v : json)
  (entries : list (string * json)) : list (string * json) :=
  match entries with
  | [] => [(k, v)]
  | e :: rest =>
      match array_index (fst e) with
      | Some j =>
          if (j <? i)%N then e :: insert_index i k v rest
          else (k, v) :: entries
      | None => (k, v) :: entries
      end
  end.

(** A new own property: an array index is sorted in, any other key goes
    last. *)
Definition add_property (k : string) (v : json) (entries : list (string * json))
  : list (string * json) :=
  match array_index k with
  | Some i => insert_index i k v entries
  | None => entries ++ [(k, v)]
  end.

(** The object under construction: its prototype flag and own entries. *)
Definition object_state : Type := bool * list (string * json).

(** The empty literal: no own property, prototype [Object.prototype]. *)
Definition empty_object : object_state := (true, []).

(** [transformed[k] = v] on an ordinary object.  An own property [k] is
    overwritten.  Otherwise the prototype chain is searched: for
    [k = "__proto__"] it finds the setter of [Object.prototype] as long as
    the chain reaches it, and the setter replaces the prototype when [v] is
    an object or [null] and does nothing for other values; no own property
    is created.  In every other case a new own data property is created. *)
Definition assign (o : object_state) (k : string) (v : json) : object_state :=
  let '(proto, entries) := o in
  if has_key k entries then (proto, replace_value k v entries)
  else if String.eqb k proto_key && proto then
    match v with
    | JNull => (false, entries)
    | JArray _ => (true, entries)
    | JObject p _ => (p, entries)
    | _ => (proto, entries)
    end
  else (proto, add_property k v entries).

Definition object_of (o : object_state) : json := JObject (fst o) (snd o).

(** *** [transformKeysToSnake] and [transformKeysToCamel] *)

Fixpoint transformKeysToSnake (obj : json) : json :=
  match obj with
  | JArray items => JArray (map transformKeysToSnake items)
  | JObject _ entries =>
      object_of
        (fold_left
           (fun transformed e =>
              assign transformed (camelToSnake (fst e))
                     (transformKeysToSnake (snd e)))
           entries empty_object)
  | _ => obj
  end.

Fixpoint transformKeysToCamel (obj : json) : json :=
  match obj with
  | JArray items => JArray (map transformKeysToCamel items)
  | JObject _ entries =>
      object_of
        (fold_left
           (fun transformed e =>
              assign transformed (snakeToCamel (fst e))
                     (transformKeysToCamel (snd e)))
           entries empty_object)
  | _ => obj
  end.

Definition sample_customer : json :=
  JObject true
    [ ("firstName", JString "John");
      ("billingAddress",
        JObject true [("postalCode", JString "M5V 3A8"); ("city", JString "Toronto")]);
      ("cards", JArray [JObject true [("isDefault", JBool true)]; JNull]) ].

(** *** Predicates on values *)

Fixpoint string_forall (P : ascii -> bool) (s : string) : bool :=
  match s with
  | EmptyString => true
  | String c rest => P c && string_forall P rest
  end.

(** The key consists of ASCII letters only. *)
Definition letters_only (k : string) : bool := string_forall is_letter k.

(** The key has no upper-case letter. *)
Definition no_upper (k : string) : bool :=
  string_forall (fun c => negb (is_upper c)) k.

(** [keys_all P x]: every key of every object inside [x] satisfies [P]. *)
Fixpoint keys_all (P : string -> bool) (x : json) : bool :=
  match x with
  | JArray items => forallb (keys_all P) items
  | JObject _ entries =>
      forallb (fun e => P (fst e) && keys_all P (snd e)) entries
  | _ => true
  end.

Fixpoint distinct_keys (ks : list string) : bool :=
  match ks with
  | [] => true
  | k :: rest => negb (existsb (String.eqb k) rest) && distinct_keys rest
  end.

(** [before k1 k2]: [k1] may be listed before [k2] by [Object.entries]. *)
Definition before (k1 k2 : string) : bool :=
  match array_index k1, array_index k2 with
  | Some i, Some j => (i <? j)%N
  | None, Some _ => false
  | _, None => true
  end.

Fixpoint ordered_keys (ks : list string) : bool :=
  match ks with
  | [] => true
  | k :: rest => forallb (before k) rest && ordered_keys rest
  end.

(** A JSON-like value as a literal or [JSON.parse] yields it: every object
    has the standard prototype, distinct keys, and its entries in property
    order. *)
Fixpoint json_like (x : json) : bool :=
  match x with
  | JArray items => forallb json_like items
  | JObject proto entries =>
      proto && distinct_keys (map fst entries) && ordered_keys (map fst entries)
      && forallb (fun e => json_like (snd e)) entries
  | _ => true
  end.

(** [camelToSnake] does not turn the key into [__proto__]: the key is
    neither [__proto__] nor [_Proto__]. *)
Definition snake_key_safe (k : string) : bool :=
  negb (String.eqb (camelToSnake k) proto_key).

(** *** Shapes used in the proofs *)

(** The shape of a value produced by [transformKeysToSnake] when no key is
    turned into [__proto__]: standard prototype, distinct keys in property
    order, no upper-case letter in a key. *)
Inductive snake_normal : json -> Prop :=
| sn_null : snake_normal JNull
| sn_bool b : snake_normal (JBool b)
| sn_number n : snake_normal (JNumber n)
| sn_string s : snake_normal (JString s)
| sn_array items : Forall snake_normal items -> snake_normal (JArray items)
| sn_object entries :
    List.NoDup (map fst entries) ->
    ordered_keys (map fst entries) = true ->
    Forall (fun k => no_upper k = true /\ k <> proto_key) (map fst entries) ->
    Forall snake_normal (map snd entries) ->
    snake_normal (JObject true entries).

(** The invariant of the object under construction in [transformKeysToSnake]. *)
Definition snake_state (o : object_state) : Prop :=
  fst o = true
  /\ List.NoDup (map fst (snd o))
  /\ ordered_keys (map fst (snd o)) = true
  /\ Forall (fun k => no_upper k = true /\ k <> proto_key) (map fst (snd o))
  /\ Forall snake_normal (map snd (snd o)).

(** The value of [JSON.parse('{"__proto__": null, "_Proto__": 5}')]. *)
Definition proto_null_body : json :=
  JObject true [("__proto__", JNull); ("_Proto__", JNumber 5)].

(** The value of [JSON.parse('{"__proto__": null}')]: its one key is
    snake_case already. *)
Definition proto_only_body : json := JObject true [("__proto__", JNull)].

Definition own_entries (x : json) : list (string * json) :=
  match x with
  | JObject _ entries => entries
  | _ => []
  end.


(** ** Errors ([types/errors.ts]) *)

(** A computation that returns or throws. *)
Inductive result (E A : Type) : Type :=
| Return (a : A)
| Throw (e : E).

Arguments Return {E A} a.
Arguments Throw {E A} e.

(** Truthiness of an optional string: [undefined] and the empty string are falsy. *)
Definition truthy (s : option string) : bool :=
  match s with
  | Some s => negb (String.eqb s EmptyString)
  | None => false
  end.

(** [s || fallback] on an optional string. *)
Definition or_else (s : option string) (fallback : string) : string :=
  match s with
  | Some s => if String.eqb s EmptyString then fallback else s
  | None => fallback
  end.

(** The decoded body of an error response: the fields the services read. *)
Module Body.
Record t : Type := mk {
  error : option string;
  message : option string;
  error_description : option string
}.
End Body.

(** [error.response] of the HTTP client: status, decoded body (absent when
    it is not an object) and the header [x-request-id]. *)
Module Response.
Record t : Type := mk {
  status : Z;
  data : option Body.t;
  x_request_id : option string
}.
End Response.

(** The thrown value as the handlers read it ([error: any]): they look at
    [error.response], [error.request] and [error.message], the fields of an
    axios failure, after which the record is named.  [response] holds the
    answer of a server that answered with a status outside 2xx; [request]
    says that a request went out; [code] is the code of the client, if it
    sets one. *)
Module AxiosError.
Record t : Type := mk {
  response : option Response.t;
  request : bool;
  code : option string;
  message : string
}.
End AxiosError.

(** The class of an error, as [instanceof] and [name] tell it. *)
Inductive ErrorClass : Type :=
| AuthenticationError
| NetworkError
| ApiError
| ValidationError
| PaymentError
| NotFoundError
| RateLimitError
| ConfigurationError.

(** The structured [details] the SDK attaches. *)
Inductive Details : Type :=
| NoDetails
| BodyDetails (data : Body.t)
| ResourceType (resourceType : string)
| RateLimitDetails (resetAt remaining window : option Z)
| StatusDetails (status : Z) (response : option Body.t)
| OriginalError (originalError : string).

(** [PayfirmaError] with the fields of the base class. *)
Record PayfirmaError : Type := mkError {
  name : ErrorClass;
  message : string;
  code : string;
  statusCode : option Z;
  details : Details;
  requestId : option string;
  cause : option AxiosError.t
}.

(** The constructors of the subclasses. *)
Definition new_AuthenticationError (message : string) (details : Details)
  (requestId : option string) (cause : option AxiosError.t) : PayfirmaError :=
  mkError AuthenticationError message "AUTHENTICATION_FAILED" (Some 401%Z)
          details requestId cause.

Definition new_NetworkError (message : string) (cause : option AxiosError.t)
  (requestId : option string) : PayfirmaError :=
  mkError NetworkError message "NETWORK_ERROR" None NoDetails requestId cause.

Definition new_ApiError (message : string) (statusCode : Z) (code : string)
  (details : Details) (requestId : option string) : PayfirmaError :=
  mkError ApiError message code (Some statusCode) details requestId None.

Definition new_ValidationError (message : string) (details : Details)
  (requestId : option string) : PayfirmaError :=
  mkError ValidationError message "VALIDATION_ERROR" (Some 400%Z)
          details requestId None.

Definition new_PaymentError (message : string) (code : string)
  (details : Details) (requestId : option string) : PayfirmaError :=
  mkError PaymentError message code (Some 402%Z) details requestId None.

Definition new_NotFoundError (message : string) (resourceType : string)
  (requestId : option string) : PayfirmaError :=
  mkError NotFoundError message "TRANSACTION_NOT_FOUND" (Some 404%Z)
          (ResourceType resourceType) requestId None.

Definition new_RateLimitError (message : string)
  (resetAt remaining window : option Z) (requestId : option string)
  : PayfirmaError :=
  mkError RateLimitError message "RATE_LIMIT_EXCEEDED" (Some 429%Z)
          (RateLimitDetails resetAt remaining window) requestId None.

Definition new_ConfigurationError (message : string) (details : Details)
  : PayfirmaError :=
  mkError ConfigurationError message "INVALID_CONFIGURATION" None details
          None None.

(** The argument of [ErrorFactory.fromApiResponse]. *)
Module ErrorResponse.
Record t : Type := mk {
  code : string;
  message : string;
  status : option Z;
  details : Details;
  request_id : option string
}.
End ErrorResponse.

(** [str.replace(pattern, replacement)] with a string pattern: the first
    occurrence is replaced. *)
Fixpoint string_drop (n : nat) (s : string) : string :=
  match n, s with
  | O, _ => s
  | S n', String _ rest => string_drop n' rest
  | S _, EmptyString => EmptyString
  end.

Fixpoint replace_first (pattern replacement s : string) : string :=
  if String.prefix pattern s
  then String.append replacement (string_drop (String.length pattern) s)
  else match s with
       | EmptyString => EmptyString
       | String c rest => String c (replace_first pattern replacement rest)
       end.

(** The labels of the [switch] in [fromApiResponse], group by group. *)
Definition authentication_codes : list string :=
  ["AUTHENTICATION_FAILED"; "TOKEN_EXPIRED"; "INVALID_CREDENTIALS"].

Definition validation_codes : list string :=
  ["VALIDATION_ERROR"; "REQUIRED_FIELD_MISSING"; "INVALID_FORMAT"].

Definition payment_codes : list string :=
  ["PAYMENT_DECLINED"; "PAYMENT_FAILED"; "CARD_DECLINED"].

Definition rate_limit_codes : list string := ["RATE_LIMIT_EXCEEDED"].

Definition not_found_codes : list string :=
  ["TRANSACTION_NOT_FOUND"; "CUSTOMER_NOT_FOUND"; "PLAN_NOT_FOUND";
   "INVOICE_NOT_FOUND"].

Definition matched_codes : list string :=
  authentication_codes ++ validation_codes ++ payment_codes
  ++ rate_limit_codes ++ not_found_codes.

Definition code_in (code : string) (labels : list string) : bool :=
  existsb (String.eqb code) labels.

(** [status || 500]. *)
Definition status_or_500 (status : option Z) : Z :=
  match status with
  | Some s => if (s =? 0)%Z then 500%Z else s
  | None => 500%Z
  end.

(** [ErrorFactory.fromApiResponse]. *)
Definition fromApiResponse (response : ErrorResponse.t)
  (cause : option AxiosError.t) : PayfirmaError :=
  let code := ErrorResponse.code response in
  let message := ErrorResponse.message response in
  let status := ErrorResponse.status response in
  let details := ErrorResponse.details response in
  let request_id := ErrorResponse.request_id response in
  if code_in code authentication_codes then
    new_AuthenticationError message details request_id cause
  else if code_in code validation_codes then
    new_ValidationError message details request_id
  else if code_in code payment_codes then
    new_PaymentError message code details request_id
  else if code_in code rate_limit_codes then
    new_RateLimitError message None None None request_id
  else if code_in code not_found_codes then
    new_NotFoundError message (replace_first "_NOT_FOUND" EmptyString code) request_id
  else
    new_ApiError message (status_or_500 status) code details request_id.

(** [ErrorFactory.networkError]. *)
Definition networkError (message : string) (cause : option AxiosError.t)
  : PayfirmaError :=
  new_NetworkError message cause None.

(** [ErrorFactory.configurationError]. *)
Definition configurationError (message : string) (details : Details)
  : PayfirmaError :=
  new_ConfigurationError message details.

(** Template-literal rendering of a status. *)
Definition status_to_string (status : Z) : string :=
  if (status <? 0)%Z
  then String "-" (number_to_string (Z.to_N (- status)))
  else number_to_string (Z.to_N status).

Definition body_details (data : option Body.t) : Details :=
  match data with
  | Some body => BodyDetails body
  | None => NoDetails
  end.

(** ** [PlanService.handleError] *)

Definition handleError (error : AxiosError.t) : PayfirmaError :=
  match AxiosError.response error with
  | Some response =>
      let status := Response.status response in
      let data := Response.data response in
      if truthy (data ≫= Body.error) then
        fromApiResponse
          (ErrorResponse.mk
             (or_else (data ≫= Body.error) EmptyString)
             (or_else (data ≫= Body.message) "Plan service error")
             (Some status)
             (body_details data)
             (Response.x_request_id response))
          (Some error)
      else
        fromApiResponse
          (ErrorResponse.mk
             "API_ERROR"
             (String.append "Plan service error: " (status_to_string status))
             (Some status)
             (body_details data)
             (Response.x_request_id response))
          (Some error)
  | None =>
      if AxiosError.request error then
        networkError "Network error in plan service" (Some error)
      else
        fromApiResponse
          (ErrorResponse.mk "UNKNOWN_ERROR" "Unknown error in plan service"
                            None NoDetails None)
          (Some error)
  end.

(** ** [AuthService.handleAuthError] *)

Definition handleAuthError (error : AxiosError.t) : PayfirmaError :=
  match AxiosError.response error with
  | Some response =>
      let status := Response.status response in
      let data := Response.data response in
      if truthy (data ≫= Body.error) then
        fromApiResponse
          (ErrorResponse.mk
             (or_else (data ≫= Body.error) EmptyString)
             (or_else (data ≫= Body.error_description) "Authentication failed")
             (Some status)
             (body_details data)
             (Response.x_request_id response))
          (Some error)
      else
        new_AuthenticationError
          (String.append "Authentication failed: " (status_to_string status))
          (StatusDetails status data)
          (Response.x_request_id response)
          (Some error)
  | None =>
      if AxiosError.request error then
        networkError "Network error during authentication" (Some error)
      else
        new_AuthenticationError "Authentication failed"
          (OriginalError (AxiosError.message error)) None (Some error)
  end.

(** *** Failures without a response *)

(** Any failure with the request sent and no response. *)
Definition no_response (error : AxiosError.t) : bool :=
  match AxiosError.response error with
  | Some _ => false
  | None => AxiosError.request error
  end.

(** What a caller can dispatch on: the class and the code of the error. *)
Definition classification (e : PayfirmaError) : ErrorClass * string :=
  (name e, code e).

(** The outcomes named in the specification. *)
Definition customer_not_found_outcome : AxiosError.t :=
  AxiosError.mk
    (Some (Response.mk 404
             (Some (Body.mk (Some "CUSTOMER_NOT_FOUND") (Some "x") None)) None))
    true (Some "ERR_BAD_REQUEST") "Request failed with status code 404".

Definition weird_code_outcome : AxiosError.t :=
  AxiosError.mk
    (Some (Response.mk 500 (Some (Body.mk (Some "WEIRD_CODE") None None)) None))
    true (Some "ERR_BAD_RESPONSE") "Request failed with status code 500".

Definition timeout_outcome : AxiosError.t :=
  AxiosError.mk None true (Some "ECONNABORTED") "timeout of 50ms exceeded".

Definition refused_outcome : AxiosError.t :=
  AxiosError.mk None true (Some "ECONNREFUSED") "connect ECONNREFUSED 127.0.0.1:443".

(** ** Token store ([services/AuthService.ts]) *)

(** [TokenResponse], [AuthCredentials] and [TokenValidation] are the
    interfaces of [types/auth.ts]; an optional field is an [option]. *)

(** The JSON answer of [POST /oauth/token]; [expires_in] is in seconds. *)
Module TokenResponse.
Record t : Type := mk {
  access_token : string;
  token_type : string;
  expires_in : Z;
  refresh_token : option string;
  merchant_id : option string;
  scope : option string
}.
End TokenResponse.

(** The stored credentials; [expires_at] is a time in milliseconds. *)
Module AuthCredentials.
Record t : Type := mk {
  access_token : string;
  refresh_token : option string;
  expires_at : Z;
  merchant_id : option string;
  scope : option (list string)
}.
End AuthCredentials.

(** The answer of [validateToken]; an absent field is [None]. *)
Module TokenValidation.
Record t : Type := mk {
  valid : bool;
  expires_at : option Z;
  reason : option string;
  needs_refresh : option bool
}.
End TokenValidation.

(** [s.split(' ')] *)
Fixpoint split_spaces (current : string) (s : string) : list string :=
  match s with
  | EmptyString => [current]
  | String c rest =>
      if Ascii.eqb c " "
      then current :: split_spaces EmptyString rest
      else split_spaces (String.append current (String c EmptyString)) rest
  end.

(** [x && { field: x }] spread into a literal: the field exists only for a
    truthy [x]. *)
Definition when_truthy (s : option string) : option string :=
  if truthy s then s else None.

(** [tokenData.scope ? tokenData.scope.split(' ') : undefined] *)
Definition scope_list (scope : option string) : option (list string) :=
  match when_truthy scope with
  | Some s => Some (split_spaces EmptyString s)
  | None => None
  end.

(** The credentials [clientCredentialsGrant] stores. *)
Definition client_credentials_of (tokenData : TokenResponse.t) (now : Z)
  : AuthCredentials.t :=
  AuthCredentials.mk
    (TokenResponse.access_token tokenData)
    (when_truthy (TokenResponse.refresh_token tokenData))
    (now + TokenResponse.expires_in tokenData * 1000)%Z
    (when_truthy (TokenResponse.merchant_id tokenData))
    (scope_list (TokenResponse.scope tokenData)).

(** The credentials [authorizationCodeGrant] and [refreshToken] store. *)
Definition credentials_of (tokenData : TokenResponse.t) (now : Z)
  : AuthCredentials.t :=
  AuthCredentials.mk
    (TokenResponse.access_token tokenData)
    (TokenResponse.refresh_token tokenData)
    (now + TokenResponse.expires_in tokenData * 1000)%Z
    (TokenResponse.merchant_id tokenData)
    (scope_list (TokenResponse.scope tokenData)).

(** Five minutes, in milliseconds. *)
Definition bufferTime : Z := (5 * 60 * 1000)%Z.

(** [validateToken()], with [this.credentials] and [Date.now()] as
    arguments. *)
Definition validateToken (credentials : option AuthCredentials.t) (now : Z)
  : TokenValidation.t :=
  match credentials with
  | None =>
      TokenValidation.mk false None (Some "No credentials available") None
  | Some credentials =>
      let expiresAt := AuthCredentials.expires_at credentials in
      let timeToExpiry := (expiresAt - now)%Z in
      if (timeToExpiry <=? bufferTime)%Z then
        TokenValidation.mk false (Some expiresAt)
          (Some "Token expired or expiring soon")
          (Some (truthy (AuthCredentials.refresh_token credentials)))
      else
        TokenValidation.mk true (Some expiresAt) None None
  end.

(** *** The service on the event loop

    Every method of the service runs to its first [await] in one piece; the
    answer of the network arrives as a later task, and the code behind an
    [await] runs as a job of the microtask queue, which is emptied before the
    next answer of the network is handled. *)

(** The requests the service sends. *)
Inductive Grant : Type :=
| ClientCredentials
| AuthorizationCode (code redirect_uri : string) (state : option string)
| RefreshGrant (refresh_token : string).

Inductive Request : Type :=
| PostToken (grant : Grant)
| DeleteRevokeToken (bearer : string).

(** What the network answers: a 2xx response with its body, or the failure
    raised by the HTTP client. *)
Inductive HttpOutcome : Type :=
| HttpOk (data : TokenResponse.t)
| HttpFail (error : AxiosError.t).

(** The code waiting for the answer of a request. *)
Inductive Continuation : Type :=
| RefreshCall
| ClientCredentialsCall
| AuthorizationCodeCall
| RevokeCall.

(** How a caller awaits a promise: a caller of [refreshToken], of a grant or
    of [revokeToken] takes the settlement as it is; [getValidToken] goes on
    to read [this.credentials!.access_token]. *)
Inductive Awaiter : Type :=
| PassThrough
| ReadToken.

Inductive Value : Type :=
| VCredentials (credentials : AuthCredentials.t)
| VToken (token : string)
| VVoid.

Inductive Exception : Type :=
| SdkError (e : PayfirmaError)
| TypeError.

Definition Outcome : Type := result Exception Value.

(** A call is named by the number its caller gives it. *)
Definition Caller : Type := nat.

(** A request in flight, with the promise that its answer settles: the
    callers awaiting that promise, in the order they arrived. *)
Record InFlight : Type := mkInFlight {
  request : Request;
  continuation : Continuation;
  waiters : list (Caller * Awaiter)
}.

(** A job of the microtask queue: the continuation of one caller behind a
    settled promise. *)
Record Job : Type := mkJob {
  job_caller : Caller;
  job_awaiter : Awaiter;
  job_outcome : Outcome
}.

(** The service and its surroundings.
    - [credentials], [tokenRefreshPromise]: the two mutable fields of
      [AuthService]; the promise is named by the request it awaits;
    - [now]: the clock read by [Date.now()];
    - [network]: the requests in flight, by request number;
    - [next_request]: the next request number;
    - [microtasks]: the jobs to run;
    - [sent]: every request sent so far, oldest first;
    - [settled]: how each call ended, oldest first. *)
Record World : Type := mkWorld {
  credentials : option AuthCredentials.t;
  tokenRefreshPromise : option nat;
  now : Z;
  network : gmap nat InFlight;
  next_request : nat;
  microtasks : list Job;
  sent : list (nat * Request);
  settled : list (Caller * Outcome)
}.

Definition initial_world : World :=
  mkWorld None None 0 ∅ 0 [] [] [].

Definition with_credentials (c : option AuthCredentials.t) (w : World) : World :=
  mkWorld c (tokenRefreshPromise w) (now w) (network w) (next_request w)
          (microtasks w) (sent w) (settled w).

Definition with_tokenRefreshPromise (p : option nat) (w : World) : World :=
  mkWorld (credentials w) p (now w) (network w) (next_request w)
          (microtasks w) (sent w) (settled w).

Definition with_now (t : Z) (w : World) : World :=
  mkWorld (credentials w) (tokenRefreshPromise w) t (network w)
          (next_request w) (microtasks w) (sent w) (settled w).

Definition with_network (n : gmap nat InFlight) (w : World) : World :=
  mkWorld (credentials w) (tokenRefreshPromise w) (now w) n (next_request w)
          (microtasks w) (sent w) (settled w).

Definition with_microtasks (js : list Job) (w : World) : World :=
  mkWorld (credentials w) (tokenRefreshPromise w) (now w) (network w)
          (next_request w) js (sent w) (settled w).

(** The call of [c] ends with [o]. *)
Definition settle (c : Caller) (o : Outcome) (w : World) : World :=
  mkWorld (credentials w) (tokenRefreshPromise w) (now w) (network w)
          (next_request w) (microtasks w) (sent w) (settled w ++ [(c, o)]).

(** [this.httpClient.post/delete(...)]: the request leaves, and [c] awaits
    its promise. *)
Definition send (r : Request) (k : Continuation) (c : Caller) (a : Awaiter)
  (w : World) : World :=
  mkWorld (credentials w) (tokenRefreshPromise w) (now w)
          (<[next_request w := mkInFlight r k [(c, a)]]> (network w))
          (S (next_request w)) (microtasks w)
          (sent w ++ [(next_request w, r)]) (settled w).

Definition add_waiter (c : Caller) (a : Awaiter) (f : InFlight) : InFlight :=
  mkInFlight (request f) (continuation f) (waiters f ++ [(c, a)]).

(** [await p] on the promise of request [p]. *)
Definition await (p : nat) (c : Caller) (a : Awaiter) (w : World) : World :=
  with_network (alter (add_waiter c a) p (network w)) w.

(** [refreshToken || this.credentials?.refresh_token] *)
Definition tokenToUse (refreshToken : option string)
  (credentials : option AuthCredentials.t) : option string :=
  if truthy refreshToken then refreshToken
  else credentials ≫= AuthCredentials.refresh_token.

(** [refreshToken(refreshToken?)], called by [c], who awaits the returned
    promise as [a]. *)
Definition refreshToken (refreshToken : option string) (c : Caller)
  (a : Awaiter) (w : World) : World :=
  match tokenRefreshPromise w with
  | Some p => await p c a w
  | None =>
      let token := tokenToUse refreshToken (credentials w) in
      if truthy token then
        with_tokenRefreshPromise (Some (next_request w))
          (send (PostToken (RefreshGrant (or_else token EmptyString))) RefreshCall c a w)
      else
        settle c (Throw (SdkError
          (new_AuthenticationError "No refresh token available" NoDetails
                                   None None))) w
  end.

(** [getValidToken()] up to its [await]. *)
Definition getValidToken (c : Caller) (w : World) : World :=
  let validation := validateToken (credentials w) (now w) in
  if TokenValidation.valid validation then
    match credentials w with
    | Some credentials =>
        settle c (Return (VToken (AuthCredentials.access_token credentials))) w
    | None => settle c (Throw TypeError) w
    end
  else
    match TokenValidation.needs_refresh validation with
    | Some true => refreshToken None c ReadToken w
    | _ =>
        settle c (Throw (SdkError
          (new_AuthenticationError
             "No valid token available and cannot refresh" NoDetails
             None None))) w
    end.

(** [revokeToken()] up to its [await]. *)
Definition revokeToken (c : Caller) (w : World) : World :=
  match credentials w with
  | None => settle c (Return VVoid) w
  | Some credentials =>
      send (DeleteRevokeToken (AuthCredentials.access_token credentials))
           RevokeCall c PassThrough w
  end.

Definition clientCredentialsGrant (c : Caller) (w : World) : World :=
  send (PostToken ClientCredentials) ClientCredentialsCall c PassThrough w.

Definition authorizationCodeGrant (code redirectUri : string)
  (state : option string) (c : Caller) (w : World) : World :=
  send (PostToken (AuthorizationCode code redirectUri (when_truthy state)))
       AuthorizationCodeCall c PassThrough w.

Definition setCredentials (credentials : AuthCredentials.t) (w : World) : World :=
  with_credentials (Some credentials) w.

(** The methods a caller can invoke. *)
Inductive Method : Type :=
| RefreshToken (refreshToken : option string)
| GetValidToken
| RevokeToken
| ClientCredentialsGrant
| AuthorizationCodeGrant (code redirectUri : string) (state : option string)
| SetCredentials (credentials : AuthCredentials.t).

Definition invoke (m : Method) (c : Caller) (w : World) : World :=
  match m with
  | RefreshToken t => refreshToken t c PassThrough w
  | GetValidToken => getValidToken c w
  | RevokeToken => revokeToken c w
  | ClientCredentialsGrant => clientCredentialsGrant c w
  | AuthorizationCodeGrant code uri state => authorizationCodeGrant code uri state c w
  | SetCredentials credentials => setCredentials credentials w
  end.

(** The promise of [f] settles with [o]: each of its waiters gets a job. *)
Definition jobs_for (f : InFlight) (o : Outcome) : list Job :=
  map (fun ca => mkJob (fst ca) (snd ca) o) (waiters f).

(** The code behind the [await] of a request, run when its answer [o]
    arrives: the [try]/[catch]/[finally] of the method that sent it. *)
Definition resume (f : InFlight) (o : HttpOutcome) (w : World) : World :=
  match continuation f, o with
  | RefreshCall, HttpOk tokenData =>
      let credentials := credentials_of tokenData (now w) in
      with_microtasks (jobs_for f (Return (VCredentials credentials)))
        (with_tokenRefreshPromise None
           (with_credentials (Some credentials) w))
  | RefreshCall, HttpFail error =>
      with_microtasks (jobs_for f (Throw (SdkError (handleAuthError error))))
        (with_tokenRefreshPromise None w)
  | ClientCredentialsCall, HttpOk tokenData =>
      let credentials := client_credentials_of tokenData (now w) in
      with_microtasks (jobs_for f (Return (VCredentials credentials)))
        (with_credentials (Some credentials) w)
  | AuthorizationCodeCall, HttpOk tokenData =>
      let credentials := credentials_of tokenData (now w) in
      with_microtasks (jobs_for f (Return (VCredentials credentials)))
        (with_credentials (Some credentials) w)
  | ClientCredentialsCall, HttpFail error
  | AuthorizationCodeCall, HttpFail error =>
      with_microtasks (jobs_for f (Throw (SdkError (handleAuthError error)))) w
  | RevokeCall, _ =>
      with_microtasks (jobs_for f (Return VVoid)) (with_credentials None w)
  end.

(** The code of [getValidToken] behind [await this.refreshToken()]: a
    rejection is passed on; otherwise [this.credentials!.access_token] is
    read. *)
Definition read_token (credentials : option AuthCredentials.t) (o : Outcome)
  : Outcome :=
  match o with
  | Throw e => Throw e
  | Return _ =>
      match credentials with
      | Some credentials =>
          Return (VToken (AuthCredentials.access_token credentials))
      | None => Throw TypeError
      end
  end.

(** The continuation of one caller. *)
Definition run_job (j : Job) (w : World) : World :=
  match job_awaiter j with
  | PassThrough => settle (job_caller j) (job_outcome j) w
  | ReadToken =>
      settle (job_caller j) (read_token (credentials w) (job_outcome j)) w
  end.

(** What can happen next. *)
Inductive Event : Type :=
| Call (c : Caller) (m : Method)
| Answer (id : nat) (o : HttpOutcome)
| Microtask
| Tick (elapsed : N).

(** One event; [None] when the event cannot happen in [w]: an answer needs
    its request in flight and an empty microtask queue; a microtask needs a
    job. *)
Definition step (e : Event) (w : World) : option World :=
  match e with
  | Call c m => Some (invoke m c w)
  | Answer id o =>
      match network w !! id, microtasks w with
      | Some f, [] => Some (resume f o (with_network (delete id (network w)) w))
      | _, _ => None
      end
  | Microtask =>
      match microtasks w with
      | j :: rest => Some (run_job j (with_microtasks rest w))
      | [] => None
      end
  | Tick elapsed => Some (with_now (now w + Z.of_N elapsed)%Z w)
  end.

Fixpoint run (events : list Event) (w : World) : option World :=
  match events with
  | [] => Some w
  | e :: rest =>
      match step e w with
      | Some w' => run rest w'
      | None => None
      end
  end.

(** The worlds the service can be in. *)
Definition reachable (w : World) : Prop :=
  exists events, run events initial_world = Some w.

(** A refresh request in flight. *)
Definition refreshing (f : InFlight) : Prop := continuation f = RefreshCall.

(** The refresh requests among those sent. *)
Definition is_refresh_request (r : nat * Request) : bool :=
  match snd r with
  | PostToken (RefreshGrant _) => true
  | _ => false
  end.

Definition refresh_requests (w : World) : list (nat * Request) :=
  filter is_refresh_request (sent w).

(** The states of the store. *)
Definition ExpiringSoon (w : World) : Prop :=
  exists c,
    credentials w = Some c
    /\ (AuthCredentials.expires_at c - now w <= bufferTime)%Z
    /\ truthy (AuthCredentials.refresh_token c) = true.

(** Credentials with one minute left at time [1700000]. *)
Definition expiring_credentials (refresh_token : option string) : AuthCredentials.t :=
  AuthCredentials.mk "old-access-token" refresh_token 1760000 None None.

(** *** The single-flight discipline, property by property *)

(** The handle and the network agree: a refresh request in flight is the
    one the handle names, the handle names a refresh request in flight, and
    request numbers are not reused. *)
Record coherent (w : World) : Prop := mkCoherent {
  refresh_is_handle :
    forall id f, network w !! id = Some f -> refreshing f ->
                 tokenRefreshPromise w = Some id;
  handle_is_refresh :
    forall p, tokenRefreshPromise w = Some p ->
              exists f, network w !! p = Some f /\ refreshing f;
  request_numbers :
    forall id f, network w !! id = Some f -> (id < next_request w)%nat
}.

#[global] Instance Continuation_eq_dec : EqDecision Continuation.
Proof. solve_decision. Defined.

(** The number of refresh requests in flight. *)
Definition refreshes_in_flight (w : World) : nat :=
  size (filter (fun e : nat * InFlight => continuation (snd e) = RefreshCall)
               (network w)).

(** At most one refresh request is in flight, and the handle is set exactly
    while it is. *)
Definition at_most_one_refresh_in_flight (w : World) : Prop :=
  (refreshes_in_flight w <= 1)%nat
  /\ (forall id f, network w !! id = Some f -> refreshing f ->
                   tokenRefreshPromise w = Some id)
  /\ (forall p, tokenRefreshPromise w = Some p ->
                exists f, network w !! p = Some f /\ refreshing f).

(** Without a handle, a refresh request with a token to use sends one
    request, and the handle names it. *)
Definition first_request_creates_handle (w : World) : Prop :=
  forall c t token,
    tokenRefreshPromise w = None ->
    tokenToUse t (credentials w) = Some token -> token <> EmptyString ->
    let w' := invoke (RefreshToken t) c w in
    tokenRefreshPromise w' = Some (next_request w)
    /\ network w' !! next_request w
       = Some (mkInFlight (PostToken (RefreshGrant token)) RefreshCall
                          [(c, PassThrough)])
    /\ sent w' = sent w ++ [(next_request w, PostToken (RefreshGrant token))].

(** With the handle set, a refresh request, or [getValidToken] on
    credentials expiring soon, sends nothing: the caller joins the waiters
    of the request in flight. *)
Definition later_requests_join (w : World) : Prop :=
  forall p c m a,
    tokenRefreshPromise w = Some p ->
    ((exists t, m = RefreshToken t) /\ a = PassThrough
     \/ m = GetValidToken /\ ExpiringSoon w /\ a = ReadToken) ->
    let w' := invoke m c w in
    sent w' = sent w
    /\ tokenRefreshPromise w' = Some p
    /\ settled w' = settled w
    /\ exists f, network w !! p = Some f /\ refreshing f
                 /\ network w' = <[p := add_waiter c a f]> (network w).

(** The settlement of a refresh request. *)
Definition refresh_settlement (w : World) (o : HttpOutcome) : Outcome :=
  match o with
  | HttpOk tokenData => Return (VCredentials (credentials_of tokenData (now w)))
  | HttpFail error => Throw (SdkError (handleAuthError error))
  end.

(** When the answer to the refresh request arrives, success or failure, the
    handle is cleared, no refresh request is left in flight, every waiter
    gets a job with the one settlement of that request, and the next refresh
    request with a token to use sends a new request. *)
Definition settlement_clears_handle (w : World) : Prop :=
  forall p f o,
    network w !! p = Some f -> refreshing f -> microtasks w = [] ->
    exists w',
      step (Answer p o) w = Some w'
      /\ tokenRefreshPromise w' = None
      /\ (forall id f', network w' !! id = Some f' -> ~ refreshing f')
      /\ microtasks w'
         = map (fun ca => mkJob (fst ca) (snd ca) (refresh_settlement w o))
               (waiters f)
      /\ (forall c t token,
            tokenToUse t (credentials w') = Some token -> token <> EmptyString ->
            sent (invoke (RefreshToken t) c w')
            = sent w' ++ [(next_request w', PostToken (RefreshGrant token))]).

(** [n] callers of [getValidToken], the answer to request [id], then the
    [n] continuations. *)
Definition concurrent_getValidToken (callers : list Caller) (id : nat)
  (o : HttpOutcome) : list Event :=
  map (fun c => Call c GetValidToken) callers
  ++ [Answer id o] ++ repeat Microtask (length callers).

(** What a caller of [getValidToken] gets behind a refresh answered by [o],
    and what the store holds then. *)
Definition caller_result (o : HttpOutcome) : Outcome :=
  match o with
  | HttpOk tokenData => Return (VToken (TokenResponse.access_token tokenData))
  | HttpFail error => Throw (SdkError (handleAuthError error))
  end.

Definition credentials_after (o : HttpOutcome) (w : World)
  : option AuthCredentials.t :=
  match o with
  | HttpOk tokenData => Some (credentials_of tokenData (now w))
  | HttpFail _ => credentials w
  end.

(** Concurrent callers of [getValidToken] on credentials expiring soon cause
    one refresh request, and all of them get the result of its answer: the
    new token, or the one failure. *)
Definition concurrent_callers_share (w : World) : Prop :=
  forall callers o c,
    callers <> [] ->
    ExpiringSoon w -> tokenRefreshPromise w = None -> microtasks w = [] ->
    credentials w = Some c ->
    exists w',
      run (concurrent_getValidToken callers (next_request w) o) w = Some w'
      /\ sent w'
         = sent w ++ [(next_request w,
                       PostToken (RefreshGrant
                         (or_else (AuthCredentials.refresh_token c) EmptyString)))]
      /\ settled w'
         = settled w ++ map (fun caller => (caller, caller_result o)) callers
      /\ credentials w' = credentials_after o w
      /\ tokenRefreshPromise w' = None.

(** A world with two callers of [getValidToken] waiting for one refresh. *)
Definition two_callers_events : list Event :=
  [ Call 0 (SetCredentials (expiring_credentials (Some "refresh")));
    Tick 1700000;
    Call 1 GetValidToken;
    Call 2 GetValidToken ].

Definition two_callers_world : World :=
  match run two_callers_events initial_world with
  | Some w => w
  | None => initial_world
  end.

(** The store holding those credentials, with nothing in flight. *)
Definition stored_world : World :=
  mkWorld (Some (expiring_credentials (Some "refresh"))) None 1700000 ∅ 0
          [] [] [].

(** A refresh that fails on the network, then a second attempt. *)
Definition retry_events : list Event :=
  [ Call 1 GetValidToken;
    Answer 0 (HttpFail refused_outcome);
    Microtask;
    Call 2 GetValidToken;
    Answer 1 (HttpOk (TokenResponse.mk "new-access-token" "Bearer" 3600
                                        (Some "next") None None));
    Microtask ].

Definition returned (o : Outcome) : option Value :=
  match o with
  | Return v => Some v
  | Throw _ => None
  end.

Definition thrown_class (o : Outcome) : option ErrorClass :=
  match o with
  | Throw (SdkError e) => Some (name e)
  | _ => None
  end.

(** ** SDK construction ([PayfirmaSDK.ts]) *)

Module ApiUrls.
Record t : Type := mk {
  auth : option string;
  gateway : option string
}.
End ApiUrls.

(** [PayfirmaSDKConfig]; an option is [None] when the field is left out (a
    JavaScript caller can leave out the two credentials as well). *)
Module Config.
Record t : Type := mk {
  clientId : option string;
  clientSecret : option string;
  sandbox : option bool;
  timeout : option Z;
  apiUrls : option ApiUrls.t
}.
End Config.

Inductive EnvironmentName : Type := sandbox_env | production_env.

Module Environment.
Record t : Type := mk {
  authUrl : string;
  gatewayUrl : string;
  name : EnvironmentName
}.
End Environment.

(** Truthiness of an optional number: [undefined] and [0] are falsy. *)
Definition truthy_number (n : option Z) : bool :=
  match n with
  | Some n => negb (n =? 0)%Z
  | None => false
  end.

(** [validateConfig(config)] *)
Definition validateConfig (config : Config.t) : result PayfirmaError unit :=
  if negb (truthy (Config.clientId config)) then
    Throw (new_ConfigurationError "Client ID is required" NoDetails)
  else if negb (truthy (Config.clientSecret config)) then
    Throw (new_ConfigurationError "Client Secret is required" NoDetails)
  else if truthy_number (Config.timeout config)
          && match Config.timeout config with
             | Some t => (t <? 1000)%Z || (t >? 300000)%Z
             | None => false
             end then
    Throw (new_ConfigurationError
             "Timeout must be between 1000ms and 300000ms" NoDetails)
  else Return tt.

(** [getEnvironment(sandbox)] *)
Definition getEnvironment (config : Config.t) (sandbox : bool) : Environment.t :=
  if sandbox then
    Environment.mk
      (or_else (Config.apiUrls config ≫= ApiUrls.auth)
               "https://sandbox-auth.payfirma.com")
      (or_else (Config.apiUrls config ≫= ApiUrls.gateway)
               "https://sandbox-apigateway.payfirma.com")
      sandbox_env
  else
    Environment.mk
      (or_else (Config.apiUrls config ≫= ApiUrls.auth)
               "https://auth.payfirma.com")
      (or_else (Config.apiUrls config ≫= ApiUrls.gateway)
               "https://apigateway.payfirma.com")
      production_env.

(** [config.timeout || 30000], the timeout the HTTP clients are created
    with. *)
Definition client_timeout (config : Config.t) : Z :=
  match Config.timeout config with
  | Some t => if (t =? 0)%Z then 30000%Z else t
  | None => 30000%Z
  end.

(** The SDK object: its configuration, environment and flag, and the world
    its [AuthService] starts in (no credentials, no refresh, nothing sent). *)
Record PayfirmaSDK : Type := mkSDK {
  config : Config.t;
  environment : Environment.t;
  initialized : bool;
  auth : World
}.

(** [new PayfirmaSDK(config)] *)
Definition new_PayfirmaSDK (config : Config.t) : result PayfirmaError PayfirmaSDK :=
  match validateConfig config with
  | Throw e => Throw e
  | Return _ =>
      Return (mkSDK config
                    (getEnvironment config
                       (match Config.sandbox config with
                        | Some b => b
                        | None => false
                        end))
                    false
                    initial_world)
  end.

(** The invalid configurations as the specification lists them: a
    credential empty or missing, or a timeout outside [1000, 300000]. *)
Definition invalid_as_specified (config : Config.t) : Prop :=
  truthy (Config.clientId config) = false
  \/ truthy (Config.clientSecret config) = false
  \/ exists t, Config.timeout config = Some t /\ (t < 1000 \/ 300000 < t)%Z.

(** The invalid configurations of [validateConfig]: the timeout [0] counts
    as a timeout left out. *)
Definition invalid_config (config : Config.t) : Prop :=
  truthy (Config.clientId config) = false
  \/ truthy (Config.clientSecret config) = false
  \/ exists t, Config.timeout config = Some t /\ t <> 0%Z
               /\ (t < 1000 \/ 300000 < t)%Z.

Definition sample_config (timeout : option Z) : Config.t :=
  Config.mk (Some "your-client-id") (Some "your-client-secret") (Some true)
            timeout None.

(** ** More on the key-case transformer *)

(** The string has an underscore directly followed by a lower-case letter:
    a place where [/_([a-z])/g] matches. *)
Fixpoint has_underscore_lower (s : string) : bool :=
  match s with
  | EmptyString => false
  | String c rest =>
      (is_underscore c && followed_by is_lower rest) || has_underscore_lower rest
  end.

(** The two traversals differ in the rule applied to the keys only;
    [transformKeys rule] is their common shape. *)
Fixpoint transformKeys (rule : string -> string) (obj : json) : json :=
  match obj with
  | JArray items => JArray (map (transformKeys rule) items)
  | JObject _ entries =>
      object_of
        (fold_left
           (fun transformed e =>
              assign transformed (rule (fst e)) (transformKeys rule (snd e)))
           entries empty_object)
  | _ => obj
  end.

(** [obj[k]] on own properties. *)
Fixpoint lookup_entry (k : string) (entries : list (string * json)) : option json :=
  match entries with
  | [] => None
  | e :: rest => if String.eqb k (fst e) then Some (snd e) else lookup_entry k rest
  end.

(** The value of the last entry whose key the rule turns into [k]. *)
Fixpoint last_source (rule : string -> string) (k : string)
  (entries : list (string * json)) : option json :=
  match entries with
  | [] => None
  | e :: rest =>
      match last_source rule k rest with
      | Some v => Some v
      | None => if String.eqb k (rule (fst e)) then Some (snd e) else None
      end
  end.

(** The key is not [__proto__]. *)
Definition not_proto (k : string) : bool := negb (String.eqb k proto_key).

(** The key survives a round trip through camelCase and back: it has no
    upper-case letter and is not [__proto__]. *)
Definition snake_key (k : string) : bool := no_upper k && not_proto k.

(** The key survives a round trip through snake_case and back: it has no
    underscore before a lower-case letter and is not [_Proto__]. *)
Definition camel_key (k : string) : bool :=
  negb (has_underscore_lower k) && snake_key_safe k.

Section normal_form.

(** The keys an object may have. *)
Variable allowed : string -> Prop.

(** A value all of whose objects have the standard prototype and distinct,
    allowed keys other than [__proto__], in property order. *)
Inductive normal_by : json -> Prop :=
| nb_null : normal_by JNull
| nb_bool b : normal_by (JBool b)
| nb_number n : normal_by (JNumber n)
| nb_string s : normal_by (JString s)
| nb_array items : Forall normal_by items -> normal_by (JArray items)
| nb_object entries :
    List.NoDup (map fst entries) ->
    ordered_keys (map fst entries) = true ->
    Forall (fun k => allowed k /\ k <> proto_key) (map fst entries) ->
    Forall normal_by (map snd entries) ->
    normal_by (JObject true entries).

Definition state_by (o : object_state) : Prop :=
  fst o = true
  /\ List.NoDup (map fst (snd o))
  /\ ordered_keys (map fst (snd o)) = true
  /\ Forall (fun k => allowed k /\ k <> proto_key) (map fst (snd o))
  /\ Forall normal_by (map snd (snd o)).

End normal_form.

Definition response_sample : json :=
  JObject true
    [ ("0", JNull);
      ("lookup_id", JString "abc");
      ("address1", JString "123 Main Street");
      ("cards", JArray [JObject true [("is_default", JBool true); ("cvv2", JNull)]]) ].

Definition request_sample : json :=
  JObject true
    [ ("7", JNull);
      ("ipV4Address", JString "10.0.0.1");
      ("address1", JString "123 Main Street");
      ("_Meta", JArray [JObject true [("cvv2", JNull); ("isDefault", JBool true)]]) ].


(** ** More on the error classifier *)

(** The status each subclass fixes in its constructor; [ApiError] takes the
    status it is given, [NetworkError] and [ConfigurationError] have none. *)
Definition fixed_status (c : ErrorClass) : option Z :=
  match c with
  | AuthenticationError => Some 401%Z
  | ValidationError => Some 400%Z
  | PaymentError => Some 402%Z
  | NotFoundError => Some 404%Z
  | RateLimitError => Some 429%Z
  | ApiError | NetworkError | ConfigurationError => None
  end.

(** The classes whose constructor takes the causing error. *)
Definition keeps_cause (c : ErrorClass) : bool :=
  match c with
  | AuthenticationError | NetworkError => true
  | _ => false
  end.

(** The classes whose constructor takes the API body as details. *)
Definition keeps_body (c : ErrorClass) : bool :=
  match c with
  | AuthenticationError | ValidationError | PaymentError | ApiError => true
  | _ => false
  end.

(** The [error] code of the body when it is truthy. *)
Definition body_code (error : AxiosError.t) : option string :=
  match AxiosError.response error with
  | Some response =>
      if truthy (Response.data response ≫= Body.error)
      then Response.data response ≫= Body.error
      else None
  | None => None
  end.

(** ** [PlanService]: authenticated requests *)

(** What the [catch] of a service method receives as [error]: an error
    thrown by the token store has neither [response] nor [request]; its
    [code] and [message] are those of the error. *)
Definition thrown_by_token_store (e : Exception) : AxiosError.t :=
  match e with
  | SdkError e => AxiosError.mk None false (Some (code e)) (message e)
  | TypeError =>
      AxiosError.mk None false None
        "Cannot read properties of null (reading 'access_token')"
  end.

(** [getAuthHeader()] behind its [await]: [{ Authorization: `Bearer ${token}` }]. *)
Definition authHeader (token : string) : string :=
  String.append "Bearer " token.

(** [withAuth(config, token)] on the headers of the request configuration:
    the spread keeps the headers of the caller and sets [Authorization]. *)
Definition withAuth (headers : gmap string string) (token : string)
  : gmap string string :=
  <["Authorization" := String.append "Bearer " token]> headers.

Section authenticated_request.

(** The decoded answer of the resource. *)
Variable T : Type.

(** [makeAuthenticatedRequest(method, url, data, config)], with the
    settlement of [getAuthHeader()] and the HTTP client as arguments: the
    client gets the headers and answers or fails. *)
Definition makeAuthenticatedRequest
  (token : result Exception string)
  (headers : gmap string string)
  (httpClient : gmap string string -> result AxiosError.t T)
  : result PayfirmaError T :=
  match token with
  | Throw e => Throw (handleError (thrown_by_token_store e))
  | Return token =>
      let authConfig :=
        withAuth headers (replace_first "Bearer " EmptyString (authHeader token)) in
      match httpClient authConfig with
      | Return response => Return response
      | Throw error => Throw (handleError error)
      end
  end.

(** [planExists(planLookupId)], with the settlement of [getPlan] as
    argument. *)
Definition planExists (getPlan : result PayfirmaError T)
  : result PayfirmaError bool :=
  match getPlan with
  | Return _ => Return true
  | Throw error =>
      match statusCode error with
      | Some status => if (status =? 404)%Z then Return false else Throw error
      | None => Throw error
      end
  end.

End authenticated_request.

Arguments makeAuthenticatedRequest {T} token headers httpClient.
Arguments planExists {T} getPlan.

(** *** Plan statistics *)

Inductive PlanStatus : Type := ACTIVE | INACTIVE | DELETED.

Inductive SubscriptionFrequency : Type := DAILY | WEEKLY | MONTHLY | YEARLY.

Definition frequency_name (f : SubscriptionFrequency) : string :=
  match f with
  | DAILY => "DAILY"
  | WEEKLY => "WEEKLY"
  | MONTHLY => "MONTHLY"
  | YEARLY => "YEARLY"
  end.

(** The fields of a [Plan] the statistics read. *)
Module Plan.
Record t : Type := mk {
  status : PlanStatus;
  frequency : SubscriptionFrequency
}.
End Plan.

Definition is_active (p : Plan.t) : bool :=
  match Plan.status p with ACTIVE => true | _ => false end.

Definition is_inactive (p : Plan.t) : bool :=
  match Plan.status p with INACTIVE => true | _ => false end.

(** [acc[plan.frequency] = (acc[plan.frequency] || 0) + 1] *)
Definition count_frequency (acc : gmap string nat) (plan : Plan.t)
  : gmap string nat :=
  <[frequency_name (Plan.frequency plan) :=
      (default 0%nat (acc !! frequency_name (Plan.frequency plan)) + 1)%nat]> acc.

Module PlanStatistics.
Record t : Type := mk {
  totalPlans : nat;
  activePlans : nat;
  inactivePlans : nat;
  plansByFrequency : gmap string nat
}.
End PlanStatistics.

(** [getPlanStatistics()] on the listed plans. *)
Definition getPlanStatistics (plans : list Plan.t) : PlanStatistics.t :=
  PlanStatistics.mk
    (length plans)
    (length (List.filter is_active plans))
    (length (List.filter is_inactive plans))
    (fold_left count_frequency plans ∅).

(** [getActivePlans()] on the listed plans. *)
Definition getActivePlans (plans : list Plan.t) : list Plan.t :=
  List.filter is_active plans.

(** [getPlansByFrequency(frequency)] on the listed plans. *)
Definition getPlansByFrequency (frequency : string) (plans : list Plan.t)
  : list Plan.t :=
  List.filter
    (fun plan => String.eqb (frequency_name (Plan.frequency plan)) frequency)
    plans.

(** A failure that [planExists] reads as an absent plan: a response with
    one of the not-found codes, or with status 404 and a code that
    [fromApiResponse] does not match (or none). *)
Definition answers_not_found (error : AxiosError.t) : Prop :=
  exists response,
    AxiosError.response error = Some response
    /\ match body_code error with
       | Some c =>
           In c not_found_codes
           \/ (~ In c matched_codes /\ Response.status response = 404%Z)
       | None => Response.status response = 404%Z
       end.

(** ** More on the token store *)

(** The credentials a grant stores for the answer [tokenData]; [None] for a
    method that is not a grant. *)
Definition granted (m : Method) (tokenData : TokenResponse.t) (now : Z)
  : option AuthCredentials.t :=
  match m with
  | ClientCredentialsGrant => Some (client_credentials_of tokenData now)
  | AuthorizationCodeGrant _ _ _ => Some (credentials_of tokenData now)
  | _ => None
  end.

Definition is_grant (m : Method) : bool :=
  match m with
  | ClientCredentialsGrant | AuthorizationCodeGrant _ _ _ => true
  | _ => false
  end.

(** An answer of the token endpoint without refresh token. *)
Definition short_lived_token : TokenResponse.t :=
  TokenResponse.mk "new-access-token" "Bearer" 3600 None None None.

(** *** [parseTokenPayload] *)

(** [s.split(sep)] for a separator of one character. *)
Fixpoint split_on (sep : ascii) (current : string) (s : string) : list string :=
  match s with
  | EmptyString => [current]
  | String c rest =>
      if Ascii.eqb c sep
      then current :: split_on sep EmptyString rest
      else split_on sep (String.append current (String c EmptyString)) rest
  end.

(** The number of separators in the string. *)
Fixpoint count_char (sep : ascii) (s : string) : nat :=
  match s with
  | EmptyString => O
  | String c rest => if Ascii.eqb c sep then S (count_char sep rest)
                     else count_char sep rest
  end.

Definition dot_free (s : string) : bool :=
  string_forall (fun c => negb (Ascii.eqb c ".")) s.

Section token_payload.

(** [JSON.parse(Buffer.from(part, 'base64').toString('utf-8'))]: the value
    parsed, or the message of the error that [JSON.parse] throws. *)
Variable decode : string -> result string json.

Definition invalid_token (originalError : string) : result PayfirmaError json :=
  Throw (new_AuthenticationError "Invalid token format"
                                 (OriginalError originalError) None None).

(** [parseTokenPayload(token)] *)
Definition parseTokenPayload (token : string) : result PayfirmaError json :=
  let parts := split_on "." EmptyString token in
  if negb (Nat.eqb (length parts) 3) || negb (truthy (nth_error parts 1)) then
    invalid_token "Invalid JWT format"
  else
    match decode (or_else (nth_error parts 1) EmptyString) with
    | Return payload => Return payload
    | Throw message => invalid_token message
    end.

End token_payload.

(** A decoder that knows one payload. *)
Definition sample_decode (part : string) : result string json :=
  if String.eqb part "e30" then Return (JObject true [])
  else Throw "Unexpected end of JSON input".

(** ** More on [PayfirmaSDK] *)

(** [Partial<PayfirmaSDKConfig>]: each field may be left out ([None]), or
    given, possibly as [undefined] ([Some None]). *)
Module PartialConfig.
Record t : Type := mk {
  clientId : option (option string);
  clientSecret : option (option string);
  sandbox : option (option bool);
  timeout : option (option Z);
  apiUrls : option (option ApiUrls.t)
}.
End PartialConfig.

(** One field of [{ ...old, ...new }]. *)
Definition spread {A : Type} (old : A) (new : option A) : A :=
  match new with
  | Some v => v
  | None => old
  end.

(** [{ ...this.config, ...newConfig }] *)
Definition merge_config (config : Config.t) (newConfig : PartialConfig.t)
  : Config.t :=
  Config.mk
    (spread (Config.clientId config) (PartialConfig.clientId newConfig))
    (spread (Config.clientSecret config) (PartialConfig.clientSecret newConfig))
    (spread (Config.sandbox config) (PartialConfig.sandbox newConfig))
    (spread (Config.timeout config) (PartialConfig.timeout newConfig))
    (spread (Config.apiUrls config) (PartialConfig.apiUrls newConfig)).

(** The answer of [getAuthStatus]; an absent field is [None]. *)
Module AuthStatus.
Record t : Type := mk {
  isAuthenticated : bool;
  tokenValid : bool;
  expiresAt : option Z;
  needsRefresh : option bool
}.
End AuthStatus.

(** Twelve hours, in milliseconds. *)
Definition twelve_hours : Z := (12 * 60 * 60 * 1000)%Z.

(** The methods of the SDK object. *)
Module SDK.

(** [updateConfig(newConfig)] *)
Definition updateConfig (newConfig : PartialConfig.t) (sdk : PayfirmaSDK)
  : result PayfirmaError PayfirmaSDK :=
  match validateConfig (merge_config (config sdk) newConfig) with
  | Throw e => Throw e
  | Return _ =>
      let config' := merge_config (config sdk) newConfig in
      Return (mkSDK config'
                    (match PartialConfig.sandbox newConfig with
                     | Some (Some sandbox) => getEnvironment config' sandbox
                     | _ => environment sdk
                     end)
                    (initialized sdk)
                    (auth sdk))
  end.

(** [expiresAt || Date.now() + 12 * 60 * 60 * 1000] *)
Definition expiry (expiresAt : option Z) (now : Z) : Z :=
  match expiresAt with
  | Some e => if (e =? 0)%Z then (now + twelve_hours)%Z else e
  | None => (now + twelve_hours)%Z
  end.

(** [setCredentials(accessToken, refreshToken?, expiresAt?)] *)
Definition setCredentials (accessToken : string) (refreshToken : option string)
  (expiresAt : option Z) (sdk : PayfirmaSDK) : PayfirmaSDK :=
  let credentials :=
    AuthCredentials.mk accessToken refreshToken
                       (expiry expiresAt (now (auth sdk))) None
                       (Some ["ecom"; "invoice"; "terminal"; "eft"]) in
  mkSDK (config sdk) (environment sdk) true
        (setCredentials credentials (auth sdk)).

(** [getAuthStatus()] *)
Definition getAuthStatus (sdk : PayfirmaSDK) : AuthStatus.t :=
  match credentials (auth sdk) with
  | None => AuthStatus.mk false false None None
  | Some _ =>
      let validation := validateToken (credentials (auth sdk)) (now (auth sdk)) in
      AuthStatus.mk true (TokenValidation.valid validation)
                    (TokenValidation.expires_at validation)
                    (TokenValidation.needs_refresh validation)
  end.


End SDK.

(** The environment is the one the stored configuration describes:
    [getEnvironment(config.sandbox || false)] under that configuration. *)
Definition consistent (sdk : PayfirmaSDK) : Prop :=
  environment sdk
  = getEnvironment (config sdk)
      (match Config.sandbox (config sdk) with
       | Some b => b
       | None => false
       end).

(** A production SDK, and an update that gives new URLs only. *)
Definition production_sdk : PayfirmaSDK :=
  mkSDK (Config.mk (Some "your-client-id") (Some "your-client-secret")
                   None None None)
        (Environment.mk "https://auth.payfirma.com"
                        "https://apigateway.payfirma.com" production_env)
        false initial_world.

Definition new_urls : PartialConfig.t :=
  PartialConfig.mk None None None None
    (Some (Some (ApiUrls.mk (Some "https://auth.example.com") None))).

(** ** [EFTService.validateBankAccount] *)

(** Here a string is the sequence of its UTF-16 code units, which is what
    [length] counts; a code unit above 255, which no character of this model
    stands for, behaves like any character that is not a digit. *)

(** [/^\d+$/.test(s)] *)
Definition only_digits (s : string) : bool :=
  negb (String.eqb s EmptyString) && string_forall is_digit s.

Module BankAccountValidation.
Record t : Type := mk {
  valid : bool;
  errors : list string
}.
End BankAccountValidation.

(** [errors.push(message)] under a condition. *)
Definition push_if (condition : bool) (message : string) (errors : list string)
  : list string :=
  if condition then errors ++ [message] else errors.

(** [validateBankAccount(accountNumber, routingNumber)] *)
Definition validateBankAccount (accountNumber routingNumber : string)
  : BankAccountValidation.t :=
  let errors := [] in
  let errors :=
    push_if (negb (truthy (Some accountNumber))
             || (String.length accountNumber <? 4)%nat
             || (17 <? String.length accountNumber)%nat)
            "Account number must be between 4 and 17 digits" errors in
  let errors :=
    push_if (negb (only_digits accountNumber))
            "Account number must contain only digits" errors in
  let errors :=
    push_if (negb (truthy (Some routingNumber))
             || negb (String.length routingNumber =? 9)%nat)
            "Routing number must be 9 digits" errors in
  let errors :=
    push_if (negb (only_digits routingNumber))
            "Routing number must contain only digits" errors in
  BankAccountValidation.mk (length errors =? 0)%nat errors.

(** ** The HTTP client ([utils/apiClient.ts]) *)

(** An error as [fetch] and the client throw it: its [name] and [message].
    It has neither [response] nor [request]. *)
Record JsError : Type := mkJsError {
  error_name : string;
  error_message : string
}.

(** [new Error(message)] *)
Definition new_Error (message : string) : JsError := mkJsError "Error" message.

(** The rejection of [fetch] after [controller.abort()]: the timer of
    [this.config.timeout] milliseconds fired before an answer came. *)
Definition abort_error : JsError :=
  mkJsError "AbortError" "This operation was aborted".

(** The rejection of [fetch] when no connection can be made. *)
Definition fetch_failed : JsError := mkJsError "TypeError" "fetch failed".

(** The answer of [fetch]: the status line, and what reading the body
    gives ([response.json()] with the transformer of the client applied, or
    [response.text()]): the data, or the error that reading throws. *)
Module FetchResponse.
Record t (T : Type) : Type := mk {
  status : Z;
  statusText : string;
  body : result JsError T
}.
Arguments mk {T} status statusText body.
Arguments status {T} t.
Arguments statusText {T} t.
Arguments body {T} t.

(** [response.ok] *)
Definition ok {T : Type} (response : t T) : bool :=
  (200 <=? status response)%Z && (status response <=? 299)%Z.
End FetchResponse.

(** What [await fetch(...)] does. *)
Inductive Fetch (T : Type) : Type :=
| Resolved (response : FetchResponse.t T)
| Rejected (error : JsError).

Arguments Resolved {T} response.
Arguments Rejected {T} error.

(** What [request] returns. *)
Module HttpResponse.
Record t (T : Type) : Type := mk {
  data : T;
  status : Z;
  statusText : string
}.
Arguments mk {T} data status statusText.
Arguments data {T} t.
Arguments status {T} t.
Arguments statusText {T} t.
End HttpResponse.

Module HttpClient.

(** [new Error(`Request timeout after ${this.config.timeout}ms`)] *)
Definition timeout_error (timeout : Z) : JsError :=
  new_Error (String.append "Request timeout after "
               (String.append (status_to_string timeout) "ms")).

(** The [catch] block of [request]. *)
Definition catch {A : Type} (timeout : Z) (error : JsError) : result JsError A :=
  if String.eqb (error_name error) "AbortError"
  then Throw (timeout_error timeout)
  else Throw error.

(** [request(options)] of a client with the given timeout, on what [fetch]
    does with the request. *)
Definition request {T : Type} (timeout : Z) (fetched : Fetch T)
  : result JsError (HttpResponse.t T) :=
  match fetched with
  | Rejected error => catch timeout error
  | Resolved response =>
      match FetchResponse.body response with
      | Throw error => catch timeout error
      | Return responseData =>
          if negb (FetchResponse.ok response) then
            catch timeout
              (new_Error
                 (String.append "HTTP "
                    (String.append
                       (status_to_string (FetchResponse.status response))
                       (String.append ": "
                          (FetchResponse.statusText response)))))
          else
            Return (HttpResponse.mk responseData
                      (FetchResponse.status response)
                      (FetchResponse.statusText response))
      end
  end.

End HttpClient.

(** An error of the client as the handlers of the services read it. *)
Definition thrown (error : JsError) : AxiosError.t :=
  AxiosError.mk None false None (error_message error).

(** [this.httpClient.get/post/put/delete(url, ..., authConfig)] inside a
    service: [request] on what [fetch] does with the headers; an error
    reaches the [catch] of the service as it is thrown. *)
Definition http_call {T : Type} (timeout : Z)
  (fetch : gmap string string -> Fetch T) (headers : gmap string string)
  : result AxiosError.t (HttpResponse.t T) :=
  match HttpClient.request timeout (fetch headers) with
  | Return response => Return response
  | Throw error => Throw (thrown error)
  end.

(** The timeout [PlanService] creates its client with. *)
Definition plan_service_timeout : Z := 30000%Z.

(** An answer [404] with the body of a plan that does not exist. *)
Definition plan_not_found_answer : Fetch json :=
  Resolved
    (FetchResponse.mk 404 "Not Found"
       (Return (JObject true [("error", JString "PLAN_NOT_FOUND");
                              ("message", JString "Plan not found")]))).
(** * Properties *)

(** ** Characters *)

(** Case analysis over the 256 characters. *)
Ltac each_char c :=
  destruct c as [[] [] [] [] [] [] [] []]; vm_compute; try reflexivity;
  try discriminate; try tauto.

Lemma lower_of_upper c : is_upper c = true -> is_lower (toLowerCase c) = true.
Proof. each_char c. Qed.

Lemma upper_of_lower c : is_lower c = true -> is_upper (toUpperCase c) = true.
Proof. each_char c. Qed.

Lemma toUpper_toLower c : is_upper c = true -> toUpperCase (toLowerCase c) = c.
Proof. each_char c. Qed.

Lemma toLower_toUpper c : is_lower c = true -> toLowerCase (toUpperCase c) = c.
Proof. each_char c. Qed.

Lemma upper_not_lower c : is_upper c = true -> is_lower c = false.
Proof. each_char c. Qed.

Lemma lower_not_upper c : is_lower c = true -> is_upper c = false.
Proof. each_char c. Qed.

Lemma underscore_not_lower c : is_underscore c = true -> is_lower c = false.
Proof. each_char c. Qed.

Lemma underscore_not_upper c : is_underscore c = true -> is_upper c = false.
Proof. each_char c. Qed.

Lemma underscore_not_letter c : is_underscore c = true -> is_letter c = false.
Proof. each_char c. Qed.

Lemma underscore_not_digit c : is_underscore c = true -> is_digit c = false.
Proof. each_char c. Qed.

Lemma lower_not_digit c : is_lower c = true -> is_digit c = false.
Proof. each_char c. Qed.

Lemma upper_not_digit c : is_upper c = true -> is_digit c = false.
Proof. each_char c. Qed.

Lemma toLowerCase_not_upper c : is_upper c = true -> is_upper (toLowerCase c) = false.
Proof. each_char c. Qed.

Lemma is_underscore_eq c : is_underscore c = true -> c = "_"%char.
Proof. unfold is_underscore. apply Ascii.eqb_eq. Qed.


(** ** [camelToSnake] and [snakeToCamel] on examples *)

Example camelToSnake_firstName : camelToSnake "firstName" = "first_name".
Proof. reflexivity. Qed.

Example camelToSnake_run : camelToSnake "userID" = "user_i_d".
Proof. reflexivity. Qed.

Example snakeToCamel_first_name : snakeToCamel "first_name" = "firstName".
Proof. reflexivity. Qed.

Example snakeToCamel_digit : snakeToCamel "ip_v4_address" = "ipV4Address".
Proof. reflexivity. Qed.

(** ** The scan of [snakeToCamel] against the rule *)

Lemma underscore_rule_after_letter d rest :
  is_lower d = true ->
  underscore_rule is_lower true (String d rest)
  = String (toUpperCase d) (underscore_rule is_lower false rest).
Proof.
  intros Hd. cbn [underscore_rule].
  assert (Hu : is_underscore d = false).
  { destruct (is_underscore d) eqn:E; [|reflexivity].
    apply underscore_not_lower in E. congruence. }
  rewrite Hu, Hd. reflexivity.
Qed.

Lemma snakeToCamel_rule_bounded n :
  forall s prev, (String.length s <= n)%nat ->
    (prev = true -> followed_by is_lower s = false) ->
    underscore_rule is_lower prev s = snakeToCamel s.
Proof.
  induction n as [|n IH]; intros s prev Hlen Hprev.
  - destruct s; [reflexivity | cbn in Hlen; lia].
  - destruct s as [|c rest]; [reflexivity|].
    cbn [String.length] in Hlen.
    assert (Hc : prev && is_lower c = false).
    { destruct prev; [|reflexivity]. cbn. apply Hprev. reflexivity. }
    cbn [underscore_rule snakeToCamel]. rewrite Hc.
    destruct rest as [|d rest'].
    + cbn. rewrite andb_false_r. reflexivity.
    + cbn [followed_by].
      destruct (is_underscore c && is_lower d) eqn:E.
      * apply andb_prop in E as [_ Hd].
        rewrite underscore_rule_after_letter by exact Hd.
        f_equal. apply IH; [cbn in Hlen; lia | discriminate].
      * f_equal. apply IH; [lia|].
        intros Hu. cbn [followed_by]. rewrite Hu in E. exact E.
Qed.

(** ** Claims on [snakeToCamel] *)

(** C7, as amended: for every string [s], [snakeToCamel s] is [s] with each
    underscore that is followed by a lower-case letter [[a-z]] removed and
    that letter upper-cased; underscores followed by anything else, an
    upper-case letter included, stay. *)
Theorem snakeToCamel_lower_rule (s : string) :
  snakeToCamel s = snakeToCamel_lower_letter s.
Proof.
  symmetry. apply (snakeToCamel_rule_bounded (String.length s)); [lia | discriminate].
Qed.

(** C7, as stated, fails: an underscore followed by an upper-case letter is
    kept by [snakeToCamel], while the rule "whatever the case of the letter"
    removes it. *)
Lemma snakeToCamel_any_letter_fails :
  snakeToCamel "first_Name" = "first_Name"
  /\ snakeToCamel_any_letter "first_Name" = "firstName"
  /\ snakeToCamel "first_Name" <> snakeToCamel_any_letter "first_Name".
Proof. repeat split; try reflexivity. vm_compute. discriminate. Qed.

(** ** Induction on JSON values *)

Section json_induction.

Variable P : json -> Prop.
Hypothesis HNull : P JNull.
Hypothesis HBool : forall b, P (JBool b).
Hypothesis HNumber : forall n, P (JNumber n).
Hypothesis HString : forall s, P (JString s).
Hypothesis HArray : forall items, Forall P items -> P (JArray items).
Hypothesis HObject : forall proto entries,
  Forall (fun e => P (snd e)) entries -> P (JObject proto entries).

Fixpoint json_nested_ind (x : json) : P x :=
  match x with
  | JNull => HNull
  | JBool b => HBool b
  | JNumber n => HNumber n
  | JString s => HString s
  | JArray items =>
      HArray items
        ((fix go (l : list json) : Forall P l :=
            match l with
            | [] => @List.Forall_nil _ P
            | y :: l' => @List.Forall_cons _ P y l' (json_nested_ind y) (go l')
            end) items)
  | JObject proto entries =>
      HObject proto entries
        ((fix go (l : list (string * json)) : Forall (fun e => P (snd e)) l :=
            match l with
            | [] => @List.Forall_nil _ _
            | e :: l' => @List.Forall_cons _ (fun e => P (snd e)) e l' (json_nested_ind (snd e)) (go l')
            end) entries)
  end.

End json_induction.

(** ** Property keys and assignment on examples *)

Example array_index_12 : array_index "12" = Some 12%N.
Proof. reflexivity. Qed.

Example array_index_leading_zero : array_index "012" = None.
Proof. reflexivity. Qed.

Example array_index_max : array_index "4294967294" = Some 4294967294%N
  /\ array_index "4294967295" = None.
Proof. split; reflexivity. Qed.

Example array_index_word : array_index "a1" = None /\ array_index EmptyString = None.
Proof. split; reflexivity. Qed.

Example transformKeysToSnake_sample :
  transformKeysToSnake sample_customer =
  JObject true
    [ ("first_name", JString "John");
      ("billing_address",
        JObject true [("postal_code", JString "M5V 3A8"); ("city", JString "Toronto")]);
      ("cards", JArray [JObject true [("is_default", JBool true)]; JNull]) ].
Proof. reflexivity. Qed.

(** Two keys with one image: the later entry overwrites the value and the
    property keeps the place of the first; array indices are listed first. *)
Example transformKeysToSnake_collision :
  transformKeysToSnake
    (JObject true [("9", JNull); ("10", JNull); ("b", JNull);
                   ("aB", JNumber 1); ("a_b", JNumber 2)])
  = JObject true [("9", JNull); ("10", JNull); ("b", JNull); ("a_b", JNumber 2)].
Proof. reflexivity. Qed.

(** ** Lemmas on the string rules *)

Lemma letter_cases c : is_letter c = true -> is_upper c = true \/ is_lower c = true.
Proof. unfold is_letter. intros H. apply orb_prop in H. exact H. Qed.

Lemma letter_not_underscore c : is_letter c = true -> is_underscore c = false.
Proof.
  intros H. destruct (is_underscore c) eqn:E; [|reflexivity].
  apply underscore_not_letter in E. congruence.
Qed.

Lemma letter_not_digit c : is_letter c = true -> is_digit c = false.
Proof.
  intros H. destruct (letter_cases c H) as [Hu|Hl];
    [apply upper_not_digit | apply lower_not_digit]; assumption.
Qed.

Lemma camelToSnake_no_upper s : no_upper (camelToSnake s) = true.
Proof.
  induction s as [|c rest IH]; [reflexivity|].
  cbn [camelToSnake]. destruct (is_upper c) eqn:E.
  - unfold no_upper in *. cbn [string_forall].
    rewrite (toLowerCase_not_upper c E). exact IH.
  - unfold no_upper in *. cbn [string_forall]. rewrite E. exact IH.
Qed.

Lemma camelToSnake_fixed s : no_upper s = true -> camelToSnake s = s.
Proof.
  induction s as [|c rest IH]; [reflexivity|].
  unfold no_upper. cbn. intros H. apply andb_prop in H as [Hc Hr].
  apply negb_true_iff in Hc. rewrite Hc. f_equal. apply IH. exact Hr.
Qed.

(** On keys made of letters, [snakeToCamel] undoes [camelToSnake]. *)
Lemma snakeToCamel_camelToSnake k :
  letters_only k = true -> snakeToCamel (camelToSnake k) = k.
Proof.
  induction k as [|c rest IH]; [reflexivity|].
  unfold letters_only. cbn [string_forall]. intros H.
  apply andb_prop in H as [Hc Hr]. specialize (IH Hr).
  cbn [camelToSnake]. destruct (is_upper c) eqn:E.
  - cbn [snakeToCamel]. replace (is_underscore "_") with true by reflexivity.
    rewrite (lower_of_upper c E). cbn [andb].
    rewrite (toUpper_toLower c E), IH. reflexivity.
  - cbn [snakeToCamel]. rewrite (letter_not_underscore c Hc). cbn [andb].
    destruct (camelToSnake rest) eqn:Er.
    + cbn in IH. subst rest. reflexivity.
    + rewrite IH. reflexivity.
Qed.

Lemma camelToSnake_injective k1 k2 :
  letters_only k1 = true -> letters_only k2 = true ->
  camelToSnake k1 = camelToSnake k2 -> k1 = k2.
Proof.
  intros H1 H2 E.
  rewrite <- (snakeToCamel_camelToSnake k1 H1), <- (snakeToCamel_camelToSnake k2 H2).
  f_equal. exact E.
Qed.

Lemma array_index_digit k i :
  array_index k = Some i -> followed_by is_digit k = true.
Proof.
  destruct k as [|c rest]; [discriminate|].
  unfold array_index. cbn [digits_value followed_by].
  destruct (is_digit c); [reflexivity | discriminate].
Qed.

Lemma array_index_injective k1 k2 i :
  array_index k1 = Some i -> array_index k2 = Some i -> k1 = k2.
Proof.
  unfold array_index. intros H1 H2.
  destruct k1 as [|c1 r1]; [discriminate|]. destruct k2 as [|c2 r2]; [discriminate|].
  destruct (digits_value 0 (String c1 r1)) as [i1|]; [|discriminate].
  destruct (digits_value 0 (String c2 r2)) as [i2|]; [|discriminate].
  destruct (String.eqb (number_to_string i1) (String c1 r1)) eqn:E1; [|discriminate].
  destruct (String.eqb (number_to_string i2) (String c2 r2)) eqn:E2; [|discriminate].
  apply String.eqb_eq in E1, E2.
  destruct (i1 <=? 4294967294)%N; [|discriminate].
  destruct (i2 <=? 4294967294)%N; [|discriminate].
  cbn in H1, H2. congruence.
Qed.

Lemma letters_only_not_index k : letters_only k = true -> array_index k = None.
Proof.
  intros H. destruct (array_index k) as [i|] eqn:E; [|reflexivity].
  apply array_index_digit in E. destruct k as [|c rest]; [discriminate|].
  unfold letters_only in H. cbn in H, E. apply andb_prop in H as [Hc _].
  rewrite (letter_not_digit c Hc) in E. discriminate.
Qed.

Lemma letters_only_snake_not_index k :
  letters_only k = true -> array_index (camelToSnake k) = None.
Proof.
  intros H. destruct (array_index (camelToSnake k)) as [i|] eqn:E; [|reflexivity].
  apply array_index_digit in E. destruct k as [|c rest]; [discriminate|].
  unfold letters_only in H. cbn in H. apply andb_prop in H as [Hc _].
  cbn [camelToSnake] in E. destruct (is_upper c) eqn:Eu.
  - discriminate.
  - cbn in E. rewrite (letter_not_digit c Hc) in E. discriminate.
Qed.

Lemma letters_only_not_proto k : letters_only k = true -> k <> proto_key.
Proof. intros H ->. discriminate. Qed.

Lemma letters_only_snake_not_proto k :
  letters_only k = true -> camelToSnake k <> proto_key.
Proof.
  intros H E. pose proof (snakeToCamel_camelToSnake k H) as R.
  rewrite E in R. subst k. discriminate.
Qed.

(** ** Lemmas on assignment *)

Lemma has_key_In k entries : has_key k entries = true -> In k (map fst entries).
Proof.
  unfold has_key. intros H. apply existsb_exists in H as [e [He Heq]].
  apply String.eqb_eq in Heq. subst k. apply in_map. exact He.
Qed.

Lemma has_key_fresh k entries : ~ In k (map fst entries) -> has_key k entries = false.
Proof.
  intros H. destruct (has_key k entries) eqn:E; [|reflexivity].
  exfalso. apply H, has_key_In, E.
Qed.

Lemma has_key_present k entries : In k (map fst entries) -> has_key k entries = true.
Proof.
  intros H. apply in_map_iff in H as [e [Hk He]].
  unfold has_key. apply existsb_exists. exists e. split; [exact He|].
  subst k. apply String.eqb_refl.
Qed.

Lemma distinct_keys_NoDup ks : distinct_keys ks = true -> List.NoDup ks.
Proof.
  induction ks as [|k rest IH]; [constructor|].
  cbn. intros H. apply andb_prop in H as [Hk Hr].
  constructor; [|apply IH, Hr].
  intros Hin. apply negb_true_iff in Hk.
  assert (existsb (String.eqb k) rest = true); [|congruence].
  apply existsb_exists. exists k. split; [exact Hin | apply String.eqb_refl].
Qed.

Lemma NoDup_map_on {A B} (f : A -> B) (l : list A) :
  (forall a b, In a l -> In b l -> f a = f b -> a = b) ->
  List.NoDup l -> List.NoDup (map f l).
Proof.
  induction l as [|a l IH]; intros Hinj Hnd; [constructor|].
  inversion Hnd as [|? ? Ha Hl]; subst. cbn. constructor.
  - intros Hin. apply in_map_iff in Hin as [b [Hb Hbl]].
    apply Ha. rewrite (Hinj a b); [exact Hbl | now left | now right | now symmetry].
  - apply IH; [|exact Hl]. intros x y Hx Hy. apply Hinj; now right.
Qed.

(** Assigning keys that are new, not array indices and not [__proto__]
    appends the entries one after the other. *)
Lemma fold_assign_append (f : string -> string) (g : json -> json) entries :
  forall acc,
    List.NoDup (map fst acc ++ map (fun e => f (fst e)) entries) ->
    Forall (fun e => array_index (f (fst e)) = None /\ f (fst e) <> proto_key)
           entries ->
    fold_left (fun transformed e => assign transformed (f (fst e)) (g (snd e)))
              entries (true, acc)
    = (true, acc ++ map (fun e => (f (fst e), g (snd e))) entries).
Proof.
  induction entries as [|e rest IH]; intros acc Hnd Hkeys.
  - cbn. now rewrite app_nil_r.
  - inversion Hkeys as [|? ? [Hidx Hproto] Hrest]; subst.
    cbn [fold_left map]. cbn [map] in Hnd.
    assert (Hfresh : has_key (f (fst e)) acc = false).
    { apply has_key_fresh. intros Hin.
      apply List.NoDup_remove_2 in Hnd. apply Hnd, in_or_app. now left. }
    unfold assign at 2. rewrite Hfresh.
    apply String.eqb_neq in Hproto. rewrite Hproto. cbn [andb].
    unfold add_property. rewrite Hidx.
    rewrite IH; [| |exact Hrest].
    + now rewrite <- app_assoc.
    + rewrite map_app, <- app_assoc. exact Hnd.
Qed.

(** ** Round trip of the key-case transformation *)

Lemma json_like_object proto entries :
  json_like (JObject proto entries) = true ->
  proto = true /\ List.NoDup (map fst entries)
  /\ forall e, In e entries -> json_like (snd e) = true.
Proof.
  cbn [json_like]. intros H.
  apply andb_prop in H as [H Hv]. apply andb_prop in H as [H _].
  apply andb_prop in H as [Hp Hd]. repeat split.
  - exact Hp.
  - apply distinct_keys_NoDup, Hd.
  - intros e He. exact (proj1 (forallb_forall _ _) Hv e He).
Qed.

Lemma keys_all_object P proto entries :
  keys_all P (JObject proto entries) = true ->
  forall e, In e entries -> P (fst e) = true /\ keys_all P (snd e) = true.
Proof.
  cbn [keys_all]. intros H e He.
  pose proof (proj1 (forallb_forall _ _) H e He) as Hx.
  apply andb_prop in Hx. exact Hx.
Qed.

(** C6: for every JSON-like value whose keys, at every depth, consist of
    letters only, [transformKeysToCamel (transformKeysToSnake x)] is [x]. *)
Theorem transformKeys_round_trip (x : json) :
  json_like x = true ->
  keys_all letters_only x = true ->
  transformKeysToCamel (transformKeysToSnake x) = x.
Proof.
  induction x as [| | | |items IH|proto entries IH] using json_nested_ind;
    intros Hlike Hkeys; try reflexivity.
  - cbn [transformKeysToSnake transformKeysToCamel]. f_equal.
    rewrite map_map. transitivity (map id items); [|apply map_id].
    apply map_ext_in. intros y Hy. unfold id.
    rewrite List.Forall_forall in IH. apply IH; [exact Hy | |].
    + cbn in Hlike. exact (proj1 (forallb_forall _ _) Hlike y Hy).
    + cbn in Hkeys. exact (proj1 (forallb_forall _ _) Hkeys y Hy).
  - apply json_like_object in Hlike as [-> [Hnd Hvals]].
    pose proof (keys_all_object _ _ _ Hkeys) as Hk.
    rewrite List.Forall_forall in IH.
    cbn [transformKeysToSnake]. unfold empty_object.
    rewrite fold_assign_append.
    + unfold object_of. cbn [app fst snd transformKeysToCamel].
      unfold empty_object. rewrite fold_assign_append.
      * unfold object_of. cbn [app fst snd]. f_equal. rewrite map_map.
        transitivity (map id entries); [|apply map_id]. apply map_ext_in.
        intros [k v] He. cbn [fst snd]. unfold id.
        destruct (Hk _ He) as [Hletters Hsub]. cbn [fst snd] in *.
        rewrite (snakeToCamel_camelToSnake k Hletters).
        f_equal. apply (IH _ He); [apply (Hvals _ He) | exact Hsub].
      * cbn [map app]. rewrite map_map. cbn [fst].
        erewrite map_ext_in; [exact Hnd|].
        intros e He. cbn. apply snakeToCamel_camelToSnake, (Hk _ He).
      * apply List.Forall_forall. intros e1 He1.
        apply in_map_iff in He1 as [e [<- He]]. cbn [fst].
        destruct (Hk _ He) as [Hletters _].
        rewrite (snakeToCamel_camelToSnake _ Hletters). split.
        -- apply letters_only_not_index, Hletters.
        -- apply letters_only_not_proto, Hletters.
    + cbn [map app]. rewrite <- map_map. apply NoDup_map_on; [|exact Hnd].
      intros a b Ha Hb. apply in_map_iff in Ha as [ea [<- Hea]].
      apply in_map_iff in Hb as [eb [<- Heb]].
      apply camelToSnake_injective; [apply (Hk _ Hea) | apply (Hk _ Heb)].
    + apply List.Forall_forall. intros e He. destruct (Hk _ He) as [Hletters _].
      split.
      * apply letters_only_snake_not_index, Hletters.
      * apply letters_only_snake_not_proto, Hletters.
Qed.

Lemma transformKeys_round_trip_sample :
  json_like sample_customer = true
  /\ keys_all letters_only sample_customer = true
  /\ transformKeysToCamel (transformKeysToSnake sample_customer) = sample_customer.
Proof.
  split; [reflexivity|]. split; [reflexivity|].
  apply (transformKeys_round_trip sample_customer); reflexivity.
Defined.

(** ** Idempotence of [transformKeysToSnake] *)

Lemma before_trans k1 k2 k3 :
  before k1 k2 = true -> before k2 k3 = true -> before k1 k3 = true.
Proof.
  unfold before.
  destruct (array_index k1) as [i1|], (array_index k2) as [i2|],
    (array_index k3) as [i3|]; try reflexivity; try discriminate.
  rewrite !N.ltb_lt. lia.
Qed.

Lemma before_not_index k1 k2 : array_index k2 = None -> before k1 k2 = true.
Proof. unfold before. intros ->. destruct (array_index k1); reflexivity. Qed.

Lemma ordered_keys_before a k rest :
  ordered_keys (a ++ k :: rest) = true -> forall k', In k' a -> before k' k = true.
Proof.
  induction a as [|x a IH]; intros H k' Hin; [destruct Hin|].
  cbn in H. apply andb_prop in H as [Hx Ha]. destruct Hin as [->|Hin].
  - apply (proj1 (forallb_forall _ _) Hx). apply in_or_app. right. now left.
  - apply IH; assumption.
Qed.

Lemma ordered_keys_snoc ks k :
  ordered_keys ks = true -> array_index k = None -> ordered_keys (ks ++ [k]) = true.
Proof.
  intros H Hk. induction ks as [|x ks IH]; [reflexivity|].
  cbn in *. apply andb_prop in H as [Hx Hks]. rewrite (IH Hks), andb_true_r.
  rewrite forallb_app, Hx. cbn. now rewrite (before_not_index x k Hk).
Qed.

Lemma replace_value_keys k v entries :
  map fst (replace_value k v entries) = map fst entries.
Proof.
  induction entries as [|e rest IH]; [reflexivity|].
  cbn. destruct (String.eqb k (fst e)); cbn; [reflexivity | now rewrite IH].
Qed.

Lemma replace_value_values (Q : json -> Prop) k v entries :
  Q v -> Forall Q (map snd entries) -> Forall Q (map snd (replace_value k v entries)).
Proof.
  intros Hv. induction entries as [|e rest IH]; intros H; [constructor|].
  cbn in *. inversion H; subst.
  destruct (String.eqb k (fst e)); cbn; constructor; auto.
Qed.

Lemma insert_index_In i k v entries e :
  In e (insert_index i k v entries) <-> e = (k, v) \/ In e entries.
Proof.
  induction entries as [|x rest IH]; cbn.
  - intuition.
  - destruct (array_index (fst x)) as [j|]; [destruct (j <? i)%N|]; cbn;
      rewrite ?IH; intuition.
Qed.

Lemma insert_index_keys_In i k v entries k' :
  In k' (map fst (insert_index i k v entries)) <-> k' = k \/ In k' (map fst entries).
Proof.
  rewrite !in_map_iff. split.
  - intros [e [<- He]]. apply insert_index_In in He as [->|He]; [now left|].
    right. now exists e.
  - intros [->|[e [<- He]]].
    + exists (k, v). split; [reflexivity|]. apply insert_index_In. now left.
    + exists e. split; [reflexivity|]. apply insert_index_In. now right.
Qed.

Lemma insert_index_NoDup i k v entries :
  List.NoDup (map fst entries) -> ~ In k (map fst entries) ->
  List.NoDup (map fst (insert_index i k v entries)).
Proof.
  induction entries as [|x rest IH]; intros Hnd Hk; cbn.
  - constructor; [intros []|constructor].
  - cbn in Hnd, Hk. inversion Hnd as [|? ? Hx Hrest]; subst.
    assert (Hgoal : List.NoDup (k :: fst x :: map fst rest)).
    { constructor; [exact Hk | exact Hnd]. }
    destruct (array_index (fst x)) as [j|]; [destruct (j <? i)%N|]; cbn;
      try exact Hgoal.
    constructor.
    + intros Hin. apply insert_index_keys_In in Hin as [E|Hin]; tauto.
    + apply IH; tauto.
Qed.

Lemma insert_index_ordered i k v entries :
  array_index k = Some i ->
  ordered_keys (map fst entries) = true -> ~ In k (map fst entries) ->
  ordered_keys (map fst (insert_index i k v entries)) = true.
Proof.
  intros Hi. induction entries as [|x rest IH]; intros Hord Hk; [reflexivity|].
  cbn in Hord, Hk. apply andb_prop in Hord as [Hx Hrest].
  assert (Hstop : before k (fst x) = true ->
                  ordered_keys (k :: fst x :: map fst rest) = true).
  { intros Hb. cbn. rewrite Hb, Hx, Hrest, !andb_true_r. cbn.
    apply forallb_forall. intros y Hy.
    apply (before_trans k (fst x) y Hb).
    exact (proj1 (forallb_forall _ _) Hx y Hy). }
  cbn [insert_index]. destruct (array_index (fst x)) as [j|] eqn:Ej.
  - destruct (j <? i)%N eqn:Eji.
    + cbn. rewrite IH by tauto. rewrite andb_true_r.
      apply forallb_forall. intros y Hy.
      apply insert_index_keys_In in Hy as [->|Hy].
      * unfold before. rewrite Ej, Hi. exact Eji.
      * exact (proj1 (forallb_forall _ _) Hx y Hy).
    + apply Hstop. unfold before. rewrite Hi, Ej.
      apply N.ltb_lt. apply N.ltb_ge in Eji.
      assert (j <> i); [|lia]. intros ->.
      apply Hk. left. apply (array_index_injective _ _ i); assumption.
  - apply Hstop. unfold before. now rewrite Hi, Ej.
Qed.

Lemma insert_index_last i k v entries :
  array_index k = Some i ->
  (forall k', In k' (map fst entries) -> before k' k = true) ->
  insert_index i k v entries = entries ++ [(k, v)].
Proof.
  intros Hi. induction entries as [|x rest IH]; intros Hb; [reflexivity|].
  cbn. pose proof (Hb (fst x) (or_introl eq_refl)) as Hx.
  unfold before in Hx. rewrite Hi in Hx.
  destruct (array_index (fst x)) as [j|]; [|discriminate].
  rewrite Hx. f_equal. apply IH. intros k' Hk'. apply Hb. now right.
Qed.

Lemma add_property_last k v entries :
  (forall k', In k' (map fst entries) -> before k' k = true) ->
  add_property k v entries = entries ++ [(k, v)].
Proof.
  intros Hb. unfold add_property. destruct (array_index k) as [i|] eqn:E.
  - now apply insert_index_last.
  - reflexivity.
Qed.

Lemma fold_left_ext_on {A B} (f g : A -> B -> A) (l : list B) :
  (forall a e, In e l -> f a e = g a e) ->
  forall a, fold_left f l a = fold_left g l a.
Proof.
  induction l as [|e l IH]; intros H a; [reflexivity|].
  cbn. rewrite (H a e) by now left. apply IH. intros. apply H. now right.
Qed.

(** Assigning the entries of an object back in their order rebuilds it. *)
Lemma fold_assign_rebuild entries :
  forall acc,
    List.NoDup (map fst (acc ++ entries)) ->
    ordered_keys (map fst (acc ++ entries)) = true ->
    ~ In proto_key (map fst entries) ->
    fold_left (fun transformed e => assign transformed (fst e) (snd e))
              entries (true, acc)
    = (true, acc ++ entries).
Proof.
  induction entries as [|[k v] rest IH]; intros acc Hnd Hord Hproto.
  - cbn. now rewrite app_nil_r.
  - cbn [fold_left fst snd]. rewrite map_app in Hnd, Hord. cbn [map fst] in *.
    assert (Hfresh : has_key k acc = false).
    { apply has_key_fresh. intros Hin.
      apply List.NoDup_remove_2 in Hnd. apply Hnd, in_or_app. now left. }
    assert (Hk : String.eqb k proto_key = false).
    { apply String.eqb_neq. intros ->. apply Hproto. now left. }
    unfold assign at 2. rewrite Hfresh, Hk. cbn [andb].
    rewrite add_property_last by (apply (ordered_keys_before _ _ _ Hord)).
    rewrite IH.
    + now rewrite <- app_assoc.
    + rewrite <- app_assoc, map_app. exact Hnd.
    + rewrite <- app_assoc, map_app. exact Hord.
    + intros Hin. apply Hproto. now right.
Qed.

(** On a value of that shape, [transformKeysToSnake] changes nothing:
    request bodies already in snake_case pass through unchanged. *)
Lemma transformKeysToSnake_fixed (y : json) :
  snake_normal y -> transformKeysToSnake y = y.
Proof.
  induction y as [| | | |items IH|proto entries IH] using json_nested_ind;
    intros Hn; try reflexivity.
  - inversion Hn as [| | | |? Hitems|]; subst. cbn. f_equal.
    transitivity (map id items); [|apply map_id]. apply map_ext_in.
    intros y Hy. rewrite List.Forall_forall in IH, Hitems. apply IH; auto.
  - inversion Hn as [| | | | |? Hnd Hord Hkeys Hvals]; subst.
    rewrite List.Forall_forall in IH, Hkeys, Hvals.
    cbn [transformKeysToSnake].
    rewrite (fold_left_ext_on _ (fun t e => assign t (fst e) (snd e))).
    + unfold empty_object. rewrite fold_assign_rebuild; try assumption.
      * reflexivity.
      * intros Hin. destruct (Hkeys _ Hin) as [_ Hp]. now apply Hp.
    + intros t e He.
      destruct (Hkeys (fst e) (in_map fst _ _ He)) as [Hu _].
      rewrite (camelToSnake_fixed _ Hu). f_equal.
      apply (IH _ He), Hvals. now apply in_map.
Qed.

Lemma NoDup_snoc {A} (l : list A) (a : A) :
  List.NoDup l -> ~ In a l -> List.NoDup (l ++ [a]).
Proof.
  induction l as [|x l IH]; intros Hnd Ha; cbn.
  - constructor; [intros []|constructor].
  - inversion Hnd; subst. constructor.
    + intros Hin. apply in_app_or in Hin as [Hin|[->|[]]]; [tauto|].
      apply Ha. now left.
    + apply IH; [assumption|]. intros Hin. apply Ha. now right.
Qed.

Lemma snake_state_empty : snake_state empty_object.
Proof. repeat split; cbn; constructor. Qed.

Lemma snake_state_assign o k v :
  snake_state o -> no_upper k = true -> k <> proto_key -> snake_normal v ->
  snake_state (assign o k v).
Proof.
  destruct o as [proto entries].
  intros (Hp & Hnd & Hord & Hkeys & Hvals) Hu Hk Hv. cbn [fst snd] in *.
  subst proto. unfold assign. destruct (has_key k entries) eqn:Ehas.
  - repeat split; cbn [fst snd]; rewrite ?replace_value_keys; try assumption.
    now apply replace_value_values.
  - apply String.eqb_neq in Hk. rewrite Hk. cbn [andb].
    assert (Hfresh : ~ In k (map fst entries)).
    { intros Hin. apply has_key_present in Hin. congruence. }
    apply String.eqb_neq in Hk.
    unfold add_property. destruct (array_index k) as [i|] eqn:Ei.
    + repeat split; cbn [fst snd].
      * now apply insert_index_NoDup.
      * now apply insert_index_ordered.
      * apply List.Forall_forall. intros k' Hin.
        apply insert_index_keys_In in Hin as [->|Hin]; [now split|].
        rewrite List.Forall_forall in Hkeys. now apply Hkeys.
      * apply List.Forall_forall. intros y Hin.
        apply in_map_iff in Hin as [e [<- He]].
        apply insert_index_In in He as [->|He]; [exact Hv|].
        rewrite List.Forall_forall in Hvals. apply Hvals. now apply in_map.
    + repeat split; cbn [fst snd]; rewrite ?map_app; cbn [map fst snd].
      * now apply NoDup_snoc.
      * now apply ordered_keys_snoc.
      * apply List.Forall_app. split; [exact Hkeys|]. constructor; [now split|constructor].
      * apply List.Forall_app. split; [exact Hvals|]. constructor; [exact Hv|constructor].
Qed.

Lemma snake_state_fold (g : json -> json) entries :
  (forall e, In e entries ->
     snake_key_safe (fst e) = true /\ snake_normal (g (snd e))) ->
  forall o, snake_state o ->
    snake_state
      (fold_left (fun transformed e => assign transformed (camelToSnake (fst e)) (g (snd e)))
                 entries o).
Proof.
  induction entries as [|e rest IH]; intros H o Ho; [exact Ho|].
  cbn [fold_left]. apply IH; [intros; apply H; now right|].
  destruct (H e (or_introl eq_refl)) as [Hsafe Hnorm].
  apply snake_state_assign; try assumption.
  - apply camelToSnake_no_upper.
  - unfold snake_key_safe in Hsafe. apply negb_true_iff in Hsafe.
    now apply String.eqb_neq.
Qed.

Lemma transformKeysToSnake_normal (x : json) :
  keys_all snake_key_safe x = true -> snake_normal (transformKeysToSnake x).
Proof.
  induction x as [| | | |items IH|proto entries IH] using json_nested_ind;
    intros Hsafe; try constructor.
  - cbn in Hsafe. apply List.Forall_forall. intros y Hy.
    apply in_map_iff in Hy as [z [<- Hz]].
    rewrite List.Forall_forall in IH. apply IH; [exact Hz|].
    exact (proj1 (forallb_forall _ _) Hsafe z Hz).
  - pose proof (keys_all_object _ _ _ Hsafe) as Hk.
    rewrite List.Forall_forall in IH. cbn [transformKeysToSnake].
    pose proof (snake_state_fold transformKeysToSnake entries) as Hfold.
    specialize (Hfold (fun e He =>
      conj (proj1 (Hk e He)) (IH e He (proj2 (Hk e He)))) _ snake_state_empty).
    destruct (fold_left _ entries empty_object) as [p built].
    destruct Hfold as (Hp & Hnd & Hord & Hkeys & Hvals). cbn [fst snd] in *.
    subst p. unfold object_of. cbn [fst snd]. now constructor.
Qed.

(** *** The keys that [camelToSnake] turns into [__proto__] *)

Lemma camelToSnake_cons_inv k a t :
  camelToSnake k = String a t ->
  (exists r, k = String a r /\ is_upper a = false /\ camelToSnake r = t)
  \/ (exists c r t', k = String c r /\ is_upper c = true /\ a = "_"%char
                     /\ t = String (toLowerCase c) t' /\ camelToSnake r = t').
Proof.
  destruct k as [|c r]; [discriminate|]. cbn [camelToSnake].
  destruct (is_upper c) eqn:E; intros [= <- <-].
  - right. exists c, r, (camelToSnake r). auto.
  - left. exists r. auto.
Qed.

Lemma camelToSnake_empty_inv k : camelToSnake k = EmptyString -> k = EmptyString.
Proof.
  destruct k as [|c r]; [reflexivity|]. cbn. destruct (is_upper c); discriminate.
Qed.

Lemma toLowerCase_inv c (d : ascii) :
  is_upper c = true -> toLowerCase c = d -> is_lower d = true /\ c = toUpperCase d.
Proof.
  intros Hu <-. split; [now apply lower_of_upper|].
  symmetry. now apply toUpper_toLower.
Qed.

(** One character of the image: it was copied, or it is the underscore put
    before a lowered letter. *)
Ltac snake_inv H :=
  let H' := fresh in
  apply camelToSnake_cons_inv in H as
    [(? & -> & _ & H) | (? & ? & ? & -> & H' & ? & ? & H)];
  [| try discriminate;
     match goal with
     | E : String _ _ = String (toLowerCase _) _ |- _ =>
         injection E as E ?; symmetry in E;
         apply (toLowerCase_inv _ _ H') in E as [E ->];
         try discriminate; subst
     end ].

Lemma camelToSnake_proto k :
  camelToSnake k = proto_key <-> k = "__proto__" \/ k = "_Proto__".
Proof.
  split; [|intros [->| ->]; reflexivity].
  unfold proto_key. intros H.
  snake_inv H. snake_inv H.
  - do 5 snake_inv H. snake_inv H. snake_inv H.
    apply camelToSnake_empty_inv in H as ->. now left.
  - do 4 snake_inv H. snake_inv H. snake_inv H.
    apply camelToSnake_empty_inv in H as ->. now right.
Qed.

Lemma snake_key_safe_iff k :
  snake_key_safe k = true <-> k <> "__proto__" /\ k <> "_Proto__".
Proof.
  unfold snake_key_safe. rewrite negb_true_iff, String.eqb_neq, camelToSnake_proto.
  tauto.
Qed.

(** ** Claims on [transformKeysToSnake] *)

(** Idempotence when no key is turned into [__proto__]. *)
Lemma transformKeysToSnake_twice (x : json) :
  keys_all snake_key_safe x = true ->
  transformKeysToSnake (transformKeysToSnake x) = transformKeysToSnake x.
Proof.
  intros Hsafe. apply transformKeysToSnake_fixed, transformKeysToSnake_normal, Hsafe.
Qed.

(** C10: the code at the key [__proto__].  Both keys of [proto_null_body]
    become [__proto__].  The first assignment reaches the setter inherited
    from [Object.prototype] and sets the prototype of the new object to
    [null]; the second assignment finds no setter any more and creates an
    own property [__proto__].  A second pass reads that own property and
    assigns it to a fresh object, whose inherited setter ignores the number:
    the result has no own property, so the second pass differs from the
    first.  And [proto_only_body], whose one key has no upper-case letter,
    does not pass through unchanged: its property is lost in the setter. *)
Theorem transformKeysToSnake_loses_proto_key :
  (json_like proto_null_body = true
   /\ transformKeysToSnake proto_null_body
      = JObject false [("__proto__", JNumber 5)]
   /\ transformKeysToSnake (transformKeysToSnake proto_null_body)
      = JObject true []
   /\ transformKeysToSnake (transformKeysToSnake proto_null_body)
      <> transformKeysToSnake proto_null_body)
  /\ (json_like proto_only_body = true
      /\ keys_all no_upper proto_only_body = true
      /\ transformKeysToSnake proto_only_body = JObject false []
      /\ transformKeysToSnake proto_only_body <> proto_only_body).
Proof. repeat split; try reflexivity; vm_compute; discriminate. Qed.

(** ** The error classifier *)

Lemma code_in_absent code labels : ~ In code labels -> code_in code labels = false.
Proof.
  intros H. unfold code_in. destruct (existsb (String.eqb code) labels) eqn:E;
    [|reflexivity].
  apply existsb_exists in E as [l [Hl Heq]]. apply String.eqb_eq in Heq.
  subst l. contradiction.
Qed.

Lemma code_in_present code labels : In code labels -> code_in code labels = true.
Proof.
  intros H. unfold code_in. apply existsb_exists. exists code.
  split; [exact H | apply String.eqb_refl].
Qed.

Lemma truthy_or_else s : truthy (Some s) = true -> or_else (Some s) EmptyString = s.
Proof. cbn. destruct (String.eqb s EmptyString); [discriminate | reflexivity]. Qed.

(** An unmatched code falls to the default branch. *)
Lemma fromApiResponse_default response cause :
  ~ In (ErrorResponse.code response) matched_codes ->
  fromApiResponse response cause
  = new_ApiError (ErrorResponse.message response)
                 (status_or_500 (ErrorResponse.status response))
                 (ErrorResponse.code response)
                 (ErrorResponse.details response)
                 (ErrorResponse.request_id response).
Proof.
  intros H. unfold matched_codes in H. rewrite !in_app_iff in H.
  unfold fromApiResponse.
  rewrite !code_in_absent by tauto. reflexivity.
Qed.

Lemma fromApiResponse_not_found response cause :
  In (ErrorResponse.code response) not_found_codes ->
  name (fromApiResponse response cause) = NotFoundError
  /\ statusCode (fromApiResponse response cause) = Some 404%Z.
Proof.
  intros H. unfold fromApiResponse.
  assert (Hc : code_in (ErrorResponse.code response) not_found_codes = true)
    by now apply code_in_present.
  cbn in H.
  destruct H as [<-|[<-|[<-|[<-|[]]]]]; split; reflexivity.
Qed.

(** The class is chosen by the code alone. *)
Lemma fromApiResponse_name_by_code r1 r2 cause1 cause2 :
  ErrorResponse.code r1 = ErrorResponse.code r2 ->
  name (fromApiResponse r1 cause1) = name (fromApiResponse r2 cause2).
Proof.
  intros H. unfold fromApiResponse. rewrite H.
  repeat match goal with
         | |- context [code_in ?c ?l] => destruct (code_in c l)
         end; reflexivity.
Qed.

(** A failure without response is a [NetworkError], whatever else it
    carries. *)
Lemma handleError_no_response error :
  no_response error = true ->
  handleError error = networkError "Network error in plan service" (Some error).
Proof.
  unfold no_response, handleError.
  destruct (AxiosError.response error); [discriminate|]. now intros ->.
Qed.

Lemma handleAuthError_no_response error :
  no_response error = true ->
  handleAuthError error
  = networkError "Network error during authentication" (Some error).
Proof.
  unfold no_response, handleAuthError.
  destruct (AxiosError.response error); [discriminate|]. now intros ->.
Qed.

(** C4: [handleError] gives every outcome one typed error, chosen by the
    [error] code of the body: a not-found code gives a [NotFoundError]; a
    code outside the known set, with the HTTP status of the response, gives
    an [ApiError] carrying that status; a failure with the request sent and
    no response gives a [NetworkError], whatever code it carries. *)
Theorem handleError_classifies (error : AxiosError.t) :
  (forall response body c,
     AxiosError.response error = Some response ->
     Response.data response = Some body ->
     Body.error body = Some c ->
     In c not_found_codes ->
     name (handleError error) = NotFoundError)
  /\ (forall response body c,
        AxiosError.response error = Some response ->
        Response.data response = Some body ->
        Body.error body = Some c ->
        c <> EmptyString -> ~ In c matched_codes ->
        Response.status response <> 0%Z ->
        name (handleError error) = ApiError
        /\ statusCode (handleError error) = Some (Response.status response)
        /\ code (handleError error) = c)
  /\ (AxiosError.response error = None ->
      AxiosError.request error = true ->
      name (handleError error) = NetworkError
      /\ statusCode (handleError error) = None)
  /\ (forall other response response' body body' c,
        AxiosError.response error = Some response ->
        Response.data response = Some body ->
        AxiosError.response other = Some response' ->
        Response.data response' = Some body' ->
        Body.error body = Some c -> Body.error body' = Some c -> c <> EmptyString ->
        name (handleError error) = name (handleError other)).
Proof.
  split; [|split; [|split]].
  - intros response body c Hr Hd Hc Hin. unfold handleError.
    rewrite Hr, Hd. cbn [mbind option_bind]. rewrite Hc.
    assert (Ht : truthy (Some c) = true).
    { cbn in Hin. destruct Hin as [<-|[<-|[<-|[<-|[]]]]]; reflexivity. }
    rewrite Ht, (truthy_or_else c Ht).
    now apply fromApiResponse_not_found.
  - intros response body c Hr Hd Hc Hne Hin Hs. unfold handleError.
    rewrite Hr, Hd. cbn [mbind option_bind]. rewrite Hc.
    assert (Ht : truthy (Some c) = true).
    { cbn. now apply negb_true_iff, String.eqb_neq. }
    rewrite Ht, (truthy_or_else c Ht).
    rewrite fromApiResponse_default by exact Hin.
    cbn. apply Z.eqb_neq in Hs. rewrite Hs. auto.
  - intros Hr Hq. rewrite handleError_no_response.
    + split; reflexivity.
    + unfold no_response. now rewrite Hr.
  - intros other response response' body body' c Hr Hd Hr' Hd' Hc Hc' Hne.
    unfold handleError. rewrite Hr, Hd, Hr', Hd'. cbn [mbind option_bind].
    rewrite Hc, Hc'.
    assert (Ht : truthy (Some c) = true).
    { cbn. now apply negb_true_iff, String.eqb_neq. }
    rewrite Ht. now apply fromApiResponse_name_by_code.
Qed.

Lemma handleError_classifies_examples :
  name (handleError customer_not_found_outcome) = NotFoundError
  /\ (name (handleError weird_code_outcome) = ApiError
      /\ statusCode (handleError weird_code_outcome) = Some 500%Z
      /\ code (handleError weird_code_outcome) = "WEIRD_CODE")
  /\ (name (handleError timeout_outcome) = NetworkError
      /\ statusCode (handleError timeout_outcome) = None).
Proof.
  split; [|split].
  - apply (proj1 (handleError_classifies customer_not_found_outcome)
             (Response.mk 404
                (Some (Body.mk (Some "CUSTOMER_NOT_FOUND") (Some "x") None)) None)
             (Body.mk (Some "CUSTOMER_NOT_FOUND") (Some "x") None)
             "CUSTOMER_NOT_FOUND");
      try reflexivity.
    cbn. tauto.
  - apply (proj1 (proj2 (handleError_classifies weird_code_outcome))
             (Response.mk 500 (Some (Body.mk (Some "WEIRD_CODE") None None)) None)
             (Body.mk (Some "WEIRD_CODE") None None)
             "WEIRD_CODE");
      try reflexivity; try discriminate.
    cbn. intros H. repeat (destruct H as [H|H]; [discriminate|]). exact H.
  - apply (proj1 (proj2 (proj2 (handleError_classifies timeout_outcome))));
      reflexivity.
Defined.

(** ** The classifier behind the HTTP client *)

(** Whatever the client throws, [handleError] gives the same [ApiError]. *)
Lemma handleError_thrown (error : JsError) :
  handleError (thrown error)
  = new_ApiError "Unknown error in plan service" 500 "UNKNOWN_ERROR"
                 NoDetails None.
Proof. reflexivity. Qed.

Lemma request_rejected (T : Type) (timeout : Z) (error : JsError) :
  HttpClient.request (T := T) timeout (Rejected error)
  = Throw (if String.eqb (error_name error) "AbortError"
           then HttpClient.timeout_error timeout
           else error).
Proof.
  unfold HttpClient.request, HttpClient.catch.
  now destruct (String.eqb (error_name error) "AbortError").
Qed.

(** C5: the code at an expired timeout.  The client turns the abort of
    [fetch] into an error of its own, [Request timeout after Nms]; the
    classifier of the service finds neither [response] nor [request] on it
    and gives an [ApiError] with the code [UNKNOWN_ERROR] and status 500,
    not a timeout-classified error, and gives the very same error for every
    other rejection of [fetch]; the classifier of the token store gives an
    [AuthenticationError]. *)
Theorem timeout_surfaces_as_unknown_error (T : Type) (timeout : Z)
  (token : string) (headers : gmap string string) :
  HttpClient.request (T := T) timeout (Rejected abort_error)
  = Throw (new_Error (String.append "Request timeout after "
                        (String.append (status_to_string timeout) "ms")))
  /\ makeAuthenticatedRequest (Return token) headers
       (http_call (T := T) timeout (fun _ => Rejected abort_error))
     = Throw (new_ApiError "Unknown error in plan service" 500 "UNKNOWN_ERROR"
                           NoDetails None)
  /\ (forall other : JsError,
        makeAuthenticatedRequest (Return token) headers
          (http_call (T := T) timeout (fun _ => Rejected other))
        = makeAuthenticatedRequest (Return token) headers
            (http_call (T := T) timeout (fun _ => Rejected abort_error)))
  /\ classification (handleAuthError (thrown (HttpClient.timeout_error timeout)))
     = (AuthenticationError, "AUTHENTICATION_FAILED").
Proof.
  assert (H : forall error : JsError,
             makeAuthenticatedRequest (Return token) headers
               (http_call (T := T) timeout (fun _ => Rejected error))
             = Throw (new_ApiError "Unknown error in plan service" 500
                                   "UNKNOWN_ERROR" NoDetails None)).
  { intros error. unfold makeAuthenticatedRequest, http_call. cbn zeta.
    rewrite request_rejected. now rewrite handleError_thrown. }
  split; [reflexivity|]. split; [apply H|]. split; [|reflexivity].
  intros other. now rewrite !H.
Qed.

(** The plan service with its timeout of 30000 ms, [fetch] aborted by the
    timer, next to a connection that fails at once. *)
Example timeout_like_any_failure :
  makeAuthenticatedRequest (Return "token") ∅
    (http_call (T := json) plan_service_timeout (fun _ => Rejected abort_error))
  = makeAuthenticatedRequest (Return "token") ∅
      (http_call plan_service_timeout (fun _ => Rejected fetch_failed))
  /\ HttpClient.request (T := json) plan_service_timeout (Rejected abort_error)
     = Throw (new_Error "Request timeout after 30000ms").
Proof. split; reflexivity. Qed.

(** ** SDK construction *)

Lemma validateConfig_throws config e :
  validateConfig config = Throw e -> name e = ConfigurationError.
Proof.
  unfold validateConfig.
  repeat match goal with
         | |- context [if ?b then _ else _] => destruct b
         end; intros [= <-] || discriminate; reflexivity.
Qed.

Lemma validateConfig_invalid config :
  invalid_config config <-> exists e, validateConfig config = Throw e.
Proof.
  unfold invalid_config, validateConfig.
  destruct (truthy (Config.clientId config)); cbn [negb];
    [|split; [eauto | tauto]].
  destruct (truthy (Config.clientSecret config)); cbn [negb];
    [|split; [eauto | tauto]].
  destruct (Config.timeout config) as [t|]; cbn [truthy_number andb].
  - destruct (Z.eqb_spec t 0) as [->|Hz]; cbn [negb andb].
    + split; [|intros [e [=]]].
      intros [H|[H|[t [[= <-] [H _]]]]]; congruence.
    + destruct (Z.ltb_spec t 1000); cbn [orb].
      * split; [eauto|]. intros _. right. right. exists t. repeat split; auto.
      * destruct (t >? 300000)%Z eqn:E.
        -- split; [eauto|]. intros _. right. right. exists t.
           repeat split; auto. right. lia.
        -- split; [|intros [e [=]]].
           intros [H'|[H'|[t' [[= <-] [_ H']]]]]; try discriminate. lia.
  - split; [|intros [e [=]]].
    intros [H|[H|[t [[=] _]]]]; discriminate.
Qed.

(** C9, as amended: construction throws, before anything is sent, exactly
    when the client id or the client secret is empty or missing, or the
    timeout is given, is not [0], and lies outside [1000, 300000]; the error
    is a [ConfigurationError].  Otherwise it returns an SDK that has sent
    nothing.  A timeout of [0] is read as no timeout given. *)
Theorem new_PayfirmaSDK_throws_iff (config : Config.t) :
  (invalid_config config ->
     exists e, new_PayfirmaSDK config = Throw e /\ name e = ConfigurationError)
  /\ (~ invalid_config config ->
        exists sdk, new_PayfirmaSDK config = Return sdk
                    /\ sent (auth sdk) = [] /\ network (auth sdk) = ∅
                    /\ initialized sdk = false).
Proof.
  unfold new_PayfirmaSDK. split.
  - intros H. apply validateConfig_invalid in H as [e He].
    exists e. rewrite He. split; [reflexivity|].
    now apply (validateConfig_throws config).
  - intros H. destruct (validateConfig config) as [[]|e] eqn:E.
    + eexists. repeat split.
    + exfalso. apply H, validateConfig_invalid. now exists e.
Qed.

Lemma new_PayfirmaSDK_timeout_500 :
  invalid_config (sample_config (Some 500%Z))
  /\ exists e, new_PayfirmaSDK (sample_config (Some 500%Z)) = Throw e
               /\ name e = ConfigurationError.
Proof.
  assert (H : invalid_config (sample_config (Some 500%Z))).
  { right. right. exists 500%Z. repeat split; [discriminate | lia]. }
  split; [exact H|].
  exact (proj1 (new_PayfirmaSDK_throws_iff (sample_config (Some 500%Z))) H).
Defined.

(** C9, as stated, fails: the timeout [0] lies outside [1000, 300000] and
    the construction succeeds. *)
Lemma new_PayfirmaSDK_timeout_0 :
  invalid_as_specified (sample_config (Some 0%Z))
  /\ exists sdk, new_PayfirmaSDK (sample_config (Some 0%Z)) = Return sdk.
Proof.
  split.
  - right. right. exists 0%Z. split; [reflexivity | lia].
  - eexists. reflexivity.
Qed.

(** Whenever the construction succeeds, the timeout the HTTP clients get
    lies in the range: a timeout of [0] is replaced by the default. *)
Lemma client_timeout_in_range config :
  ~ invalid_config config ->
  (1000 <= client_timeout config <= 300000)%Z.
Proof.
  intros H. unfold client_timeout.
  destruct (Config.timeout config) as [t|] eqn:E; [|lia].
  destruct (Z.eqb_spec t 0) as [->|Hz]; [lia|].
  destruct (Z.lt_ge_cases t 1000) as [Hlt|Hge].
  - exfalso. apply H. right. right. exists t. auto.
  - destruct (Z.lt_ge_cases 300000 t) as [Hgt|Hle]; [|lia].
    exfalso. apply H. right. right. exists t. auto.
Qed.

(** ** [validateToken] *)

Lemma truthy_present s : truthy s = true <-> exists t, s = Some t /\ t <> EmptyString.
Proof.
  destruct s as [t|]; cbn.
  - rewrite negb_true_iff, String.eqb_neq. split.
    + intros H. now exists t.
    + now intros [t' [[= <-] H]].
  - split; [discriminate | now intros [t [[=] _]]].
Qed.

(** C2: [validateToken] is a function of the stored credentials and the
    clock alone, defined on every state.  Without credentials it answers
    [valid: false] with a reason.  With credentials that expire more than
    five minutes from now it answers [{valid: true, expires_at}].  With
    credentials that expire within five minutes, or have expired, it answers
    [valid: false] with [needs_refresh], which is [true] exactly when a
    (non-empty) refresh token is stored and [false] otherwise. *)
Theorem validateToken_cases (credentials : option AuthCredentials.t) (now : Z) :
  (credentials = None ->
     TokenValidation.valid (validateToken credentials now) = false
     /\ exists r, TokenValidation.reason (validateToken credentials now) = Some r)
  /\ (forall c, credentials = Some c ->
        (bufferTime < AuthCredentials.expires_at c - now)%Z ->
        validateToken credentials now
        = TokenValidation.mk true (Some (AuthCredentials.expires_at c)) None None)
  /\ (forall c, credentials = Some c ->
        (AuthCredentials.expires_at c - now <= bufferTime)%Z ->
        TokenValidation.valid (validateToken credentials now) = false
        /\ (TokenValidation.needs_refresh (validateToken credentials now) = Some true
            <-> exists t, AuthCredentials.refresh_token c = Some t /\ t <> EmptyString)
        /\ ((~ exists t, AuthCredentials.refresh_token c = Some t /\ t <> EmptyString) ->
            TokenValidation.needs_refresh (validateToken credentials now)
            = Some false))
  /\ (forall tokenData,
        TokenResponse.expires_in tokenData = 3600%Z ->
        TokenValidation.valid
          (validateToken (Some (credentials_of tokenData now)) now) = true)
  /\ (forall c, credentials = Some c ->
        AuthCredentials.expires_at c = (now + 60000)%Z ->
        TokenValidation.valid (validateToken credentials now) = false
        /\ TokenValidation.needs_refresh (validateToken credentials now)
           = Some (truthy (AuthCredentials.refresh_token c))).
Proof.
  unfold validateToken, bufferTime.
  split; [|split; [|split; [|split]]].
  - intros ->. split; [reflexivity | eauto].
  - intros c -> H.
    destruct (Z.leb_spec (AuthCredentials.expires_at c - now) (5 * 60 * 1000));
      [lia | reflexivity].
  - intros c -> H.
    destruct (Z.leb_spec (AuthCredentials.expires_at c - now) (5 * 60 * 1000));
      [|lia].
    split; [reflexivity|]. split; [split|].
    + cbn. intros [= E]. now apply truthy_present.
    + intros E. cbn. f_equal. now apply truthy_present.
    + intros E. cbn. f_equal.
      destruct (truthy (AuthCredentials.refresh_token c)) eqn:Et; [|reflexivity].
      exfalso. apply E. now apply truthy_present.
  - intros tokenData H. cbn. rewrite H.
    destruct (Z.leb_spec (now + 3600 * 1000 - now) (5 * 60 * 1000));
      [lia | reflexivity].
  - intros c -> H. rewrite H.
    destruct (Z.leb_spec (now + 60000 - now) (5 * 60 * 1000)); [|lia].
    split; reflexivity.
Qed.

Lemma validateToken_one_minute_left :
  TokenValidation.valid
    (validateToken (Some (expiring_credentials (Some "refresh"))) 1700000) = false
  /\ TokenValidation.needs_refresh
       (validateToken (Some (expiring_credentials (Some "refresh"))) 1700000)
     = Some true
  /\ TokenValidation.needs_refresh
       (validateToken (Some (expiring_credentials None)) 1700000)
     = Some false.
Proof.
  pose proof (validateToken_cases
                (Some (expiring_credentials (Some "refresh"))) 1700000) as H1.
  pose proof (validateToken_cases
                (Some (expiring_credentials None)) 1700000) as H2.
  destruct H1 as (_ & _ & H1 & _). destruct H2 as (_ & _ & H2 & _).
  specialize (H1 _ eq_refl). specialize (H2 _ eq_refl).
  destruct H1 as (Hv & Hr & _); [unfold bufferTime; cbn; lia|].
  destruct H2 as (_ & _ & Hn); [unfold bufferTime; cbn; lia|].
  split; [exact Hv|]. split.
  - apply Hr. exists "refresh". split; [reflexivity | discriminate].
  - apply Hn. intros [t [[=] _]].
Defined.

(** ** The token store on the event loop *)

Ltac unfold_world :=
  unfold invoke, refreshToken, getValidToken, revokeToken,
    clientCredentialsGrant, authorizationCodeGrant, setCredentials,
    resume, run_job, await, send, settle, with_microtasks, with_network,
    with_now, with_tokenRefreshPromise, with_credentials in *;
  cbn [credentials tokenRefreshPromise now network next_request microtasks
       sent settled] in *.

Lemma add_waiter_refreshing c a f : refreshing (add_waiter c a f) <-> refreshing f.
Proof. reflexivity. Qed.

Lemma coherent_initial : coherent initial_world.
Proof.
  split; cbn.
  - intros id f H. rewrite lookup_empty in H. discriminate.
  - discriminate.
  - intros id f H. rewrite lookup_empty in H. discriminate.
Qed.

(** A caller joining the waiters of a request changes neither the handle
    nor the requests in flight. *)
Lemma coherent_await p c a w : coherent w -> coherent (await p c a w).
Proof.
  intros [H1 H2 H3]. split; unfold_world.
  - intros id f Hl Hr. rewrite lookup_alter in Hl.
    destruct (decide (p = id)) as [->|Hne].
    + destruct (network w !! id) as [f0|] eqn:E; [|discriminate].
      cbn in Hl. injection Hl as <-. now apply (H1 id f0).
    + now apply (H1 id f).
  - intros q Hq. destruct (H2 q Hq) as [f [Hl Hr]].
    rewrite lookup_alter. destruct (decide (p = q)) as [->|Hne].
    + rewrite Hl. now exists (add_waiter c a f).
    + now exists f.
  - intros id f Hl. rewrite lookup_alter in Hl.
    destruct (decide (p = id)) as [->|Hne].
    + destruct (network w !! id) as [f0|] eqn:E; [|discriminate].
      now apply (H3 id f0).
    + now apply (H3 id f).
Qed.

(** Sending a request that is not a refresh keeps the agreement. *)
Lemma coherent_send r k c a w :
  k <> RefreshCall -> coherent w -> coherent (send r k c a w).
Proof.
  intros Hk [H1 H2 H3]. split; unfold_world.
  - intros id f Hl Hr. rewrite lookup_insert in Hl.
    destruct (decide (next_request w = id)) as [<-|Hne].
    + injection Hl as <-. now cbn in Hr.
    + now apply (H1 id f).
  - intros p Hp. destruct (H2 p Hp) as [f [Hl Hr]].
    exists f. split; [|exact Hr]. rewrite lookup_insert_ne; [exact Hl|].
    apply H3 in Hl. lia.
  - intros id f Hl. rewrite lookup_insert in Hl.
    destruct (decide (next_request w = id)) as [<-|Hne]; [lia|].
    apply H3 in Hl. lia.
Qed.

(** Sending the refresh request when the handle is empty, and naming it. *)
Lemma coherent_send_refresh r c a w :
  tokenRefreshPromise w = None -> coherent w ->
  coherent (with_tokenRefreshPromise (Some (next_request w))
              (send r RefreshCall c a w)).
Proof.
  intros Hnone [H1 H2 H3]. split; unfold_world.
  - intros id f Hl Hr. rewrite lookup_insert in Hl.
    destruct (decide (next_request w = id)) as [<-|Hne]; [reflexivity|].
    rewrite (H1 id f Hl Hr) in Hnone. discriminate.
  - intros p [= <-]. eexists. rewrite lookup_insert_eq. split; reflexivity.
  - intros id f Hl. rewrite lookup_insert in Hl.
    destruct (decide (next_request w = id)) as [<-|Hne]; [lia|].
    apply H3 in Hl. lia.
Qed.

(** The agreement is about the handle, the network and the request
    numbers only. *)
Lemma coherent_same w w' :
  network w' = network w ->
  tokenRefreshPromise w' = tokenRefreshPromise w ->
  next_request w' = next_request w ->
  coherent w -> coherent w'.
Proof.
  intros Hn Hp Hr [H1 H2 H3]. split; rewrite ?Hn, ?Hp, ?Hr; assumption.
Qed.

Lemma coherent_refreshToken t c a w :
  coherent w -> coherent (refreshToken t c a w).
Proof.
  intros H. unfold refreshToken.
  destruct (tokenRefreshPromise w) as [p|] eqn:E.
  - now apply coherent_await.
  - destruct (truthy _).
    + now apply coherent_send_refresh.
    + now apply (coherent_same w).
Qed.

Lemma coherent_invoke m c w : coherent w -> coherent (invoke m c w).
Proof.
  intros H. destruct m; cbn [invoke].
  - now apply coherent_refreshToken.
  - unfold getValidToken.
    destruct (TokenValidation.valid _).
    + destruct (credentials w); now apply (coherent_same w).
    + destruct (TokenValidation.needs_refresh _) as [[]|];
        try now apply (coherent_same w).
      now apply coherent_refreshToken.
  - unfold revokeToken. destruct (credentials w).
    + now apply coherent_send.
    + now apply (coherent_same w).
  - now apply coherent_send.
  - now apply coherent_send.
  - now apply (coherent_same w).
Qed.

(** The answer to a request removes it from the network; when it is the
    refresh request, the handle goes with it. *)
Lemma coherent_remove id f w :
  network w !! id = Some f -> coherent w ->
  coherent
    (with_tokenRefreshPromise
       (match continuation f with
        | RefreshCall => None
        | _ => tokenRefreshPromise w
        end)
       (with_network (delete id (network w)) w)).
Proof.
  intros Hf [H1 H2 H3].
  assert (Hothers : forall id' f', delete id (network w) !! id' = Some f' ->
                                   id' <> id /\ network w !! id' = Some f').
  { intros id' f' Hl. rewrite lookup_delete in Hl.
    destruct (decide (id = id')); [discriminate|]. split; [congruence | exact Hl]. }
  assert (Hkeep : forall p, p <> id -> tokenRefreshPromise w = Some p ->
            exists f', delete id (network w) !! p = Some f' /\ refreshing f').
  { intros p Hne Hp. destruct (H2 p Hp) as [f' [Hl Hr]]. exists f'.
    split; [|exact Hr]. now rewrite lookup_delete_ne. }
  split; unfold_world.
  - intros id' f' Hl Hr. apply Hothers in Hl as [Hne Hl].
    pose proof (H1 id' f' Hl Hr) as E1.
    destruct (continuation f) eqn:Ek; try exact E1.
    pose proof (H1 id f Hf Ek). congruence.
  - intros p Hp. destruct (continuation f) eqn:Ek; [discriminate| | |];
      (apply Hkeep; [|exact Hp]); intros ->;
      destruct (H2 id Hp) as [f' [Hl Hr]]; unfold refreshing in Hr; congruence.
  - intros id' f' Hl. apply Hothers in Hl as [_ Hl]. now apply (H3 id' f').
Qed.

Lemma coherent_answer id f o w :
  network w !! id = Some f -> coherent w ->
  coherent (resume f o (with_network (delete id (network w)) w)).
Proof.
  intros Hf H. apply (coherent_remove id f w Hf) in H.
  revert H. apply coherent_same; unfold resume;
    destruct (continuation f), o; reflexivity.
Qed.

Lemma coherent_step e w w' : coherent w -> step e w = Some w' -> coherent w'.
Proof.
  intros H. destruct e as [c m|id o| |elapsed]; cbn [step].
  - intros [= <-]. now apply coherent_invoke.
  - destruct (network w !! id) as [f|] eqn:Ef; [|discriminate].
    destruct (microtasks w); [|discriminate].
    intros [= <-]. now apply coherent_answer.
  - destruct (microtasks w) as [|j rest]; [discriminate|].
    intros [= <-]. revert H. apply coherent_same; unfold run_job;
      destruct (job_awaiter j); reflexivity.
  - intros [= <-]. now apply (coherent_same w).
Qed.

Lemma coherent_run events : forall w w',
  coherent w -> run events w = Some w' -> coherent w'.
Proof.
  induction events as [|e rest IH]; intros w w' H; cbn [run].
  - now intros [= <-].
  - destruct (step e w) as [w1|] eqn:E; [|discriminate].
    apply IH. now apply (coherent_step e w).
Qed.

Lemma reachable_coherent w : reachable w -> coherent w.
Proof. intros [events H]. exact (coherent_run events _ _ coherent_initial H). Qed.

(** ** Single-flight refresh *)

Lemma run_app events1 events2 w :
  run (events1 ++ events2) w
  = match run events1 w with
    | Some w' => run events2 w'
    | None => None
    end.
Proof.
  revert w. induction events1 as [|e rest IH]; intros w; cbn; [reflexivity|].
  destruct (step e w); [apply IH | reflexivity].
Qed.

Lemma alter_present (g : InFlight -> InFlight) p f (m : gmap nat InFlight) :
  m !! p = Some f -> alter g p m = <[p := g f]> m.
Proof.
  intros H. rewrite <- (insert_id m p f H) at 1. apply alter_insert_eq.
Qed.

Lemma truthy_token token : token <> EmptyString -> truthy (Some token) = true.
Proof. intros H. cbn. now apply negb_true_iff, String.eqb_neq. Qed.

Lemma validateToken_expiring w :
  ExpiringSoon w ->
  TokenValidation.valid (validateToken (credentials w) (now w)) = false
  /\ TokenValidation.needs_refresh (validateToken (credentials w) (now w))
     = Some true.
Proof.
  intros (c & Hc & Hexp & Htok). unfold validateToken. rewrite Hc.
  destruct (Z.leb_spec (AuthCredentials.expires_at c - now w) bufferTime); [|lia].
  cbn. now rewrite Htok.
Qed.

(** [getValidToken] on credentials expiring soon is [refreshToken()] with a
    continuation that reads the token. *)
Lemma getValidToken_expiring c w :
  ExpiringSoon w -> getValidToken c w = refreshToken None c ReadToken w.
Proof.
  intros H. destruct (validateToken_expiring w H) as [Hv Hn].
  unfold getValidToken. now rewrite Hv, Hn.
Qed.

Lemma size_at_most_one (m : gmap nat InFlight) p :
  (forall id f, m !! id = Some f -> id = p) -> (size m <= 1)%nat.
Proof.
  intros H. destruct (m !! p) as [x|] eqn:E.
  - assert (m = {[p := x]}) as ->.
    { apply map_eq. intros i. destruct (decide (i = p)) as [->|Hne].
      - now rewrite lookup_singleton_eq.
      - rewrite lookup_singleton_ne by congruence.
        destruct (m !! i) eqn:Ei; [|reflexivity]. apply H in Ei. contradiction. }
    now rewrite map_size_singleton.
  - assert (m = ∅) as ->.
    { apply map_eq. intros i. rewrite lookup_empty.
      destruct (m !! i) eqn:Ei; [|reflexivity].
      pose proof (H _ _ Ei). subst. congruence. }
    rewrite map_size_empty. lia.
Qed.

Lemma coherent_at_most_one w : coherent w -> at_most_one_refresh_in_flight w.
Proof.
  intros [H1 H2 _]. split; [|split; assumption].
  unfold refreshes_in_flight.
  apply (size_at_most_one _ (default 0%nat (tokenRefreshPromise w))).
  intros id f Hl. apply map_lookup_filter_Some in Hl as [Hl Hr]. cbn in Hr.
  now rewrite (H1 id f Hl Hr).
Qed.

Lemma first_request_sends w : first_request_creates_handle w.
Proof.
  intros c t token Hnone Htok Hne. cbn zeta. cbn [invoke].
  unfold refreshToken. rewrite Hnone, Htok, (truthy_token token Hne).
  rewrite (truthy_or_else token (truthy_token token Hne)).
  unfold_world. rewrite lookup_insert_eq. auto.
Qed.

Lemma coherent_join w : coherent w -> later_requests_join w.
Proof.
  intros [_ H2 _] p c m a Hp Hm. cbn zeta.
  destruct (H2 p Hp) as [f [Hl Hr]].
  assert (E : invoke m c w = await p c a w).
  { destruct Hm as [[[t ->] ->]|(-> & Hexp & ->)]; cbn [invoke].
    - unfold refreshToken. now rewrite Hp.
    - rewrite (getValidToken_expiring c w Hexp). unfold refreshToken.
      now rewrite Hp. }
  rewrite E. unfold_world. repeat split; try assumption.
  exists f. repeat split; try assumption. now apply alter_present.
Qed.

Lemma coherent_settlement w : coherent w -> settlement_clears_handle w.
Proof.
  intros [H1 _ _] p f o Hl Hr Hm.
  exists (resume f o (with_network (delete p (network w)) w)).
  split; [cbn [step]; now rewrite Hl, Hm|].
  unfold refreshing in Hr. unfold resume. rewrite Hr.
  assert (Hnone : forall id f', delete p (network w) !! id = Some f' ->
                                ~ refreshing f').
  { intros id f' Hd Hr'. rewrite lookup_delete in Hd.
    destruct (decide (p = id)) as [->|Hne]; [discriminate|].
    pose proof (H1 id f' Hd Hr'). pose proof (H1 p f Hl Hr). congruence. }
  destruct o as [tokenData|error]; unfold_world; cbn [refresh_settlement];
    (split; [reflexivity|]); (split; [exact Hnone|]); (split; [reflexivity|]);
    intros c t token Htok Hne; unfold refreshToken; unfold_world;
    rewrite Htok, (truthy_token token Hne),
      (truthy_or_else token (truthy_token token Hne)); reflexivity.
Qed.

Lemma await_present p c a f w :
  network w !! p = Some f ->
  await p c a w = with_network (<[p := add_waiter c a f]> (network w)) w.
Proof. intros H. unfold await. now rewrite (alter_present _ p f). Qed.

(** Callers arriving while the refresh is in flight line up behind it. *)
Lemma run_joining callers : forall w p f,
  ExpiringSoon w -> tokenRefreshPromise w = Some p ->
  network w !! p = Some f ->
  run (map (fun c => Call c GetValidToken) callers) w
  = Some (with_network
            (<[p := mkInFlight (request f) (continuation f)
                      (waiters f ++ map (fun c => (c, ReadToken)) callers)]>
               (network w)) w).
Proof.
  induction callers as [|c rest IH]; intros w p f Hexp Hp Hl.
  - cbn. f_equal. rewrite app_nil_r. destruct f as [r k ws]. cbn.
    rewrite (insert_id _ _ _ Hl). now destruct w.
  - cbn [map run step invoke]. rewrite (getValidToken_expiring c w Hexp).
    unfold refreshToken. rewrite Hp, (await_present p c ReadToken f w Hl).
    rewrite (IH _ p (add_waiter c ReadToken f)).
    + unfold with_network. cbn. rewrite insert_insert_eq.
      now rewrite <- app_assoc.
    + exact Hexp.
    + exact Hp.
    + cbn. apply lookup_insert_eq.
Qed.

(** The continuations of [getValidToken] run one after the other, each
    reading the same store. *)
Lemma run_read_jobs callers : forall w o rest,
  microtasks w = map (fun caller => mkJob caller ReadToken o) callers ++ rest ->
  run (repeat Microtask (length callers)) w
  = Some (mkWorld (credentials w) (tokenRefreshPromise w) (now w) (network w)
                  (next_request w) rest (sent w)
                  (settled w
                   ++ map (fun caller => (caller, read_token (credentials w) o))
                          callers)).
Proof.
  induction callers as [|caller others IH]; intros w o rest Hm.
  - cbn in *. rewrite app_nil_r. subst rest. now destruct w.
  - cbn [length repeat run step]. rewrite Hm. cbn [map app].
    unfold run_job. cbn [job_awaiter job_outcome job_caller].
    erewrite IH; [|unfold_world; reflexivity].
    unfold_world. cbn [map]. now rewrite <- app_assoc.
Qed.

Lemma read_token_settlement w o :
  read_token (credentials_after o w) (refresh_settlement w o) = caller_result o.
Proof. now destruct o. Qed.

Lemma concurrent_callers w : concurrent_callers_share w.
Proof.
  intros callers o c Hne Hexp Hnone Hmicro Hc.
  destruct callers as [|first others]; [contradiction|].
  assert (Htok : truthy (AuthCredentials.refresh_token c) = true).
  { destruct Hexp as (c' & Hc' & _ & Ht). congruence. }
  set (r := PostToken (RefreshGrant (or_else (AuthCredentials.refresh_token c) EmptyString))).
  set (w1 := with_tokenRefreshPromise (Some (next_request w))
               (send r RefreshCall first ReadToken w)).
  assert (Hfirst : invoke GetValidToken first w = w1).
  { cbn [invoke]. rewrite (getValidToken_expiring first w Hexp).
    unfold refreshToken, tokenToUse. rewrite Hnone, Hc.
    cbn [truthy mbind option_bind]. now rewrite Htok. }
  assert (Hexp1 : ExpiringSoon w1).
  { destruct Hexp as (c' & Hc' & Hle & Ht). now exists c'. }
  set (F := mkInFlight r RefreshCall
              ([(first, ReadToken)] ++ map (fun c => (c, ReadToken)) others)).
  pose proof (run_joining others w1 (next_request w)
                (mkInFlight r RefreshCall [(first, ReadToken)]) Hexp1
                eq_refl (lookup_insert_eq _ _ _)) as Hjoin.
  cbn [request continuation waiters] in Hjoin. fold F in Hjoin.
  set (w2 := with_network (<[next_request w := F]> (network w1)) w1) in Hjoin.
  unfold concurrent_getValidToken. rewrite run_app.
  cbn [map run step]. rewrite Hfirst, Hjoin, run_app. cbn [run step].
  assert (Hl2 : network w2 !! next_request w = Some F)
    by apply lookup_insert_eq.
  assert (Hm2 : microtasks w2 = []) by exact Hmicro.
  rewrite Hl2, Hm2.
  set (w3 := resume F o (with_network (delete (next_request w) (network w2)) w2)).
  assert (Hc3 : credentials w3 = credentials_after o w) by now destruct o.
  assert (Hp3 : tokenRefreshPromise w3 = None) by now destruct o.
  assert (Hs3 : sent w3 = sent w ++ [(next_request w, r)]) by now destruct o.
  assert (Hd3 : settled w3 = settled w) by now destruct o.
  assert (Hm3 : microtasks w3
                = map (fun caller => mkJob caller ReadToken (refresh_settlement w o))
                      (first :: others) ++ []).
  { rewrite app_nil_r. subst w3. unfold resume. cbn [continuation].
    destruct o; unfold with_microtasks; cbn [microtasks]; unfold jobs_for, F;
      cbn [waiters map app fst snd]; f_equal; now rewrite map_map. }
  rewrite (run_read_jobs (first :: others) w3 (refresh_settlement w o) [] Hm3).
  eexists. split; [reflexivity|].
  cbn [sent settled credentials tokenRefreshPromise].
  rewrite Hc3, Hp3, Hs3, Hd3, read_token_settlement. auto.
Qed.

(** C1: in every world the service can reach, whatever the interleaving of
    calls, answers and continuations: at most one refresh request is in
    flight; without a handle a refresh request creates the handle and sends
    one request; with the handle set, [refreshToken] and (on credentials
    expiring soon) [getValidToken] send nothing and wait for the request in
    flight; its answer, success or failure, clears the handle, hands the
    same settlement to every waiter, and lets the next refresh request send
    a new request; concurrent callers of [getValidToken] cause one refresh
    request and all get its result, the new token or the one failure. *)
Theorem single_flight_refresh (w : World) :
  reachable w ->
  at_most_one_refresh_in_flight w
  /\ first_request_creates_handle w
  /\ later_requests_join w
  /\ settlement_clears_handle w
  /\ concurrent_callers_share w.
Proof.
  intros H. apply reachable_coherent in H.
  split; [|split; [|split; [|split]]].
  - now apply coherent_at_most_one.
  - apply first_request_sends.
  - now apply coherent_join.
  - now apply coherent_settlement.
  - apply concurrent_callers.
Qed.

Lemma single_flight_refresh_two_callers :
  reachable two_callers_world
  /\ at_most_one_refresh_in_flight two_callers_world
  /\ first_request_creates_handle two_callers_world
  /\ later_requests_join two_callers_world
  /\ settlement_clears_handle two_callers_world
  /\ concurrent_callers_share two_callers_world.
Proof.
  assert (H : reachable two_callers_world).
  { exists two_callers_events. reflexivity. }
  split; [exact H|]. exact (single_flight_refresh two_callers_world H).
Defined.

(** Two callers of [getValidToken] with one minute left: one request went
    out, the handle names it, and both callers wait for it. *)
Example two_callers_one_request :
  sent two_callers_world = [(0%nat, PostToken (RefreshGrant "refresh"))]
  /\ tokenRefreshPromise two_callers_world = Some 0%nat
  /\ (waiters <$> network two_callers_world !! 0%nat)
     = Some [(1%nat, ReadToken); (2%nat, ReadToken)]
  /\ settled two_callers_world = []
  /\ refreshes_in_flight two_callers_world = 1%nat.
Proof. repeat split; vm_compute; reflexivity. Qed.

(** A failed refresh does not block the store: the first caller gets the
    network error, the second caller causes a second request and gets the
    new token. *)
Example refresh_failure_then_retry :
  exists w,
    run retry_events stored_world = Some w
    /\ map snd (sent w)
       = [PostToken (RefreshGrant "refresh"); PostToken (RefreshGrant "refresh")]
    /\ map (fun s => (fst s, thrown_class (snd s), returned (snd s))) (settled w)
       = [ (1%nat, Some NetworkError, None);
           (2%nat, None, Some (VToken "new-access-token")) ]
    /\ tokenRefreshPromise w = None.
Proof. eexists. split; [vm_compute; reflexivity|]. repeat split. Qed.

(** ** [getValidToken] *)


(** ** [revokeToken] *)

(** C8: [revokeToken] never throws and leaves the store without
    credentials.  Without credentials it returns at once.  With credentials
    it sends the revocation, and whatever the answer (success, HTTP error or
    network failure) and whatever happened in between, the answer clears
    the credentials and the caller gets a plain return. *)
Theorem revokeToken_clears (w : World) (c : Caller) :
  (credentials w = None ->
     invoke RevokeToken c w = settle c (Return VVoid) w)
  /\ (forall cr o,
        credentials w = Some cr -> microtasks w = [] ->
        exists w',
          run [Call c RevokeToken; Answer (next_request w) o; Microtask] w
          = Some w'
          /\ credentials w' = None
          /\ settled w' = settled w ++ [(c, Return VVoid)]
          /\ sent w'
             = sent w
               ++ [(next_request w,
                    DeleteRevokeToken (AuthCredentials.access_token cr))])
  /\ (forall id f o,
        network w !! id = Some f -> continuation f = RevokeCall ->
        microtasks w = [] ->
        exists w',
          step (Answer id o) w = Some w'
          /\ credentials w' = None
          /\ microtasks w'
             = map (fun ca => mkJob (fst ca) (snd ca) (Return VVoid)) (waiters f)).
Proof.
  split; [|split].
  - intros Hc. cbn [invoke]. unfold revokeToken. now rewrite Hc.
  - intros cr o Hc Hmicro. cbn [run step invoke]. unfold revokeToken.
    rewrite Hc. unfold send at 1 2. cbn [network microtasks].
    rewrite lookup_insert_eq, Hmicro.
    eexists. split; [reflexivity|]. destruct o; cbn; auto.
  - intros id f o Hl Hk Hmicro. cbn [step]. rewrite Hl, Hmicro.
    eexists. split; [reflexivity|]. unfold resume. rewrite Hk.
    destruct o; cbn; auto.
Qed.

Lemma revokeToken_clears_network_failure :
  exists w',
    run [Call 7%nat RevokeToken; Answer 0%nat (HttpFail refused_outcome); Microtask]
        stored_world = Some w'
    /\ credentials w' = None
    /\ settled w' = [(7%nat, Return VVoid)].
Proof.
  destruct (proj1 (proj2 (revokeToken_clears stored_world 7%nat))
              (expiring_credentials (Some "refresh")) (HttpFail refused_outcome)
              eq_refl eq_refl) as (w' & Hrun & Hc & Hs & _).
  exists w'. auto.
Defined.


(** * Further properties *)

(** ** The two string rules against each other *)

Lemma camelToSnake_head r :
  followed_by is_lower (camelToSnake r) = followed_by is_lower r.
Proof.
  destruct r as [|c r']; [reflexivity|]. cbn [camelToSnake].
  destruct (is_upper c) eqn:E; cbn [followed_by]; [|reflexivity].
  now rewrite (upper_not_lower c E).
Qed.

Lemma toUpperCase_not_underscore d :
  is_lower d = true -> is_underscore (toUpperCase d) = false.
Proof.
  intros H. apply upper_of_lower in H.
  destruct (is_underscore (toUpperCase d)) eqn:E; [|reflexivity].
  apply underscore_not_upper in E. congruence.
Qed.

Lemma upper_not_underscore c : is_upper c = true -> is_underscore c = false.
Proof.
  intros H. destruct (is_underscore c) eqn:E; [|reflexivity].
  apply underscore_not_upper in E. congruence.
Qed.

Lemma snakeToCamel_cons c d rest :
  snakeToCamel (String c (String d rest))
  = if is_underscore c && is_lower d
    then String (toUpperCase d) (snakeToCamel rest)
    else String c (snakeToCamel (String d rest)).
Proof. reflexivity. Qed.

Lemma snakeToCamel_camelToSnake_plain (s : string) :
  has_underscore_lower s = false -> snakeToCamel (camelToSnake s) = s.
Proof.
  induction s as [|c r IH]; [reflexivity|].
  cbn [camelToSnake has_underscore_lower]. intros H.
  apply orb_false_iff in H as [Hm Hr]. destruct (is_upper c) eqn:Eu.
  - cbn [snakeToCamel]. replace (is_underscore "_") with true by reflexivity.
    rewrite (lower_of_upper c Eu), (toUpper_toLower c Eu). cbn [andb].
    f_equal. now apply IH.
  - rewrite <- (camelToSnake_head r) in Hm. specialize (IH Hr).
    destruct (camelToSnake r) as [|d t]; [now rewrite <- IH|].
    rewrite snakeToCamel_cons. cbn [followed_by] in Hm. rewrite Hm.
    now rewrite IH.
Qed.

Lemma camelToSnake_snakeToCamel_bounded n : forall s,
  (String.length s <= n)%nat -> no_upper s = true ->
  camelToSnake (snakeToCamel s) = s.
Proof.
  induction n as [|n IH]; intros s Hlen Hs.
  - destruct s; [reflexivity | cbn in Hlen; lia].
  - destruct s as [|c rest]; [reflexivity|].
    unfold no_upper in Hs. cbn [string_forall] in Hs.
    apply andb_prop in Hs as [Hc Hrest]. apply negb_true_iff in Hc.
    cbn [String.length] in Hlen. cbn [snakeToCamel].
    destruct rest as [|d rest'].
    + cbn. now rewrite Hc.
    + destruct (is_underscore c && is_lower d) eqn:Em.
      * apply andb_prop in Em as [Hus Hd]. apply is_underscore_eq in Hus.
        subst c. cbn [camelToSnake].
        rewrite (upper_of_lower d Hd), (toLower_toUpper d Hd).
        cbn [string_forall] in Hrest. apply andb_prop in Hrest as [_ Hrest'].
        rewrite IH; [reflexivity | cbn in Hlen; lia | exact Hrest'].
      * cbn [camelToSnake]. rewrite Hc. f_equal. apply IH; [lia | exact Hrest].
Qed.

(** X2. [camelToSnake] undoes [snakeToCamel] exactly on the strings without an
    upper-case letter. *)
Theorem camelToSnake_snakeToCamel_iff (s : string) :
  camelToSnake (snakeToCamel s) = s <-> no_upper s = true.
Proof.
  split.
  - intros <-. apply camelToSnake_no_upper.
  - apply (camelToSnake_snakeToCamel_bounded (String.length s)). lia.
Qed.

Lemma camelToSnake_snakeToCamel_example :
  no_upper "card_expiry_month" = true
  /\ camelToSnake (snakeToCamel "card_expiry_month") = "card_expiry_month".
Proof.
  split; [reflexivity|].
  apply (proj2 (camelToSnake_snakeToCamel_iff "card_expiry_month")). reflexivity.
Defined.

Lemma snakeToCamel_fixed s :
  has_underscore_lower s = false -> snakeToCamel s = s.
Proof.
  induction s as [|c rest IH]; [reflexivity|].
  cbn [has_underscore_lower]. intros H. apply orb_false_elim in H as [Hm Hr].
  cbn [snakeToCamel]. destruct rest as [|d rest']; [reflexivity|].
  cbn [followed_by] in Hm. rewrite Hm. f_equal. now apply IH.
Qed.

Lemma snakeToCamel_head c rest :
  followed_by is_lower (snakeToCamel (String c rest)) = true -> is_lower c = true.
Proof.
  cbn [snakeToCamel]. destruct rest as [|d rest']; [now cbn|].
  destruct (is_underscore c && is_lower d) eqn:Em; cbn [followed_by]; [|tauto].
  intros H. apply andb_prop in Em as [_ Hd]. apply upper_of_lower in Hd.
  apply upper_not_lower in Hd. congruence.
Qed.

Lemma snakeToCamel_no_match_bounded n : forall s,
  (String.length s <= n)%nat -> has_underscore_lower (snakeToCamel s) = false.
Proof.
  induction n as [|n IH]; intros s Hlen.
  - destruct s; [reflexivity | cbn in Hlen; lia].
  - destruct s as [|c rest]; [reflexivity|]. cbn [String.length] in Hlen.
    cbn [snakeToCamel]. destruct rest as [|d rest'].
    + cbn. now rewrite andb_false_r.
    + destruct (is_underscore c && is_lower d) eqn:Em.
      * apply andb_prop in Em as [_ Hd]. cbn [has_underscore_lower].
        rewrite (toUpperCase_not_underscore d Hd). cbn [andb orb].
        apply IH. cbn in Hlen. lia.
      * cbn [has_underscore_lower]. rewrite (IH (String d rest')) by lia.
        rewrite orb_false_r. destruct (is_underscore c) eqn:Eus; [|reflexivity].
        cbn [andb] in *.
        destruct (followed_by is_lower (snakeToCamel (String d rest'))) eqn:Eh;
          [|reflexivity].
        apply snakeToCamel_head in Eh. congruence.
Qed.

Lemma snakeToCamel_no_match s : has_underscore_lower (snakeToCamel s) = false.
Proof. apply (snakeToCamel_no_match_bounded (String.length s)). lia. Qed.

(** X1. [snakeToCamel] undoes [camelToSnake] exactly on the strings in which no
    underscore stands before a lower-case letter. *)
Theorem snakeToCamel_camelToSnake_iff (s : string) :
  snakeToCamel (camelToSnake s) = s <-> has_underscore_lower s = false.
Proof.
  split.
  - intros H. rewrite <- H. apply snakeToCamel_no_match.
  - apply snakeToCamel_camelToSnake_plain.
Qed.

Lemma snakeToCamel_camelToSnake_example :
  has_underscore_lower "ipV4Address" = false
  /\ snakeToCamel (camelToSnake "ipV4Address") = "ipV4Address".
Proof.
  split; [reflexivity|].
  apply (proj2 (snakeToCamel_camelToSnake_iff "ipV4Address")). reflexivity.
Defined.

(** X3. [snakeToCamel] is idempotent: it leaves nothing for a second pass. *)
Theorem snakeToCamel_idempotent (s : string) :
  snakeToCamel (snakeToCamel s) = snakeToCamel s.
Proof. apply snakeToCamel_fixed, snakeToCamel_no_match. Qed.

(** ** The two traversals as one *)

Lemma transformKeysToSnake_transformKeys x :
  transformKeysToSnake x = transformKeys camelToSnake x.
Proof.
  induction x as [| | | |items IH|proto entries IH] using json_nested_ind;
    try reflexivity.
  - cbn. f_equal. apply map_ext_in. intros y Hy.
    rewrite List.Forall_forall in IH. now apply IH.
  - cbn. f_equal. apply fold_left_ext_on. intros t e He.
    rewrite List.Forall_forall in IH. now rewrite (IH e He).
Qed.

Lemma transformKeysToCamel_transformKeys x :
  transformKeysToCamel x = transformKeys snakeToCamel x.
Proof.
  induction x as [| | | |items IH|proto entries IH] using json_nested_ind;
    try reflexivity.
  - cbn. f_equal. apply map_ext_in. intros y Hy.
    rewrite List.Forall_forall in IH. now apply IH.
  - cbn. f_equal. apply fold_left_ext_on. intros t e He.
    rewrite List.Forall_forall in IH. now rewrite (IH e He).
Qed.

(** ** Objects built by assignment, for any rule on the keys *)

Section normal_form_facts.

Variable allowed : string -> Prop.
Variable rule : string -> string.

Lemma state_by_empty : state_by allowed empty_object.
Proof. repeat split; cbn; constructor. Qed.

Lemma state_by_assign o k v :
  state_by allowed o -> allowed k -> k <> proto_key -> normal_by allowed v ->
  state_by allowed (assign o k v).
Proof.
  destruct o as [proto entries].
  intros (Hp & Hnd & Hord & Hkeys & Hvals) Hu Hk Hv. cbn [fst snd] in *.
  subst proto. unfold assign. destruct (has_key k entries) eqn:Ehas.
  - repeat split; cbn [fst snd]; rewrite ?replace_value_keys; try assumption.
    now apply replace_value_values.
  - apply String.eqb_neq in Hk. rewrite Hk. cbn [andb].
    assert (Hfresh : ~ In k (map fst entries)).
    { intros Hin. apply has_key_present in Hin. congruence. }
    apply String.eqb_neq in Hk.
    unfold add_property. destruct (array_index k) as [i|] eqn:Ei.
    + repeat split; cbn [fst snd].
      * now apply insert_index_NoDup.
      * now apply insert_index_ordered.
      * apply List.Forall_forall. intros k' Hin.
        apply insert_index_keys_In in Hin as [->|Hin]; [now split|].
        rewrite List.Forall_forall in Hkeys. now apply Hkeys.
      * apply List.Forall_forall. intros y Hin.
        apply in_map_iff in Hin as [e [<- He]].
        apply insert_index_In in He as [->|He]; [exact Hv|].
        rewrite List.Forall_forall in Hvals. apply Hvals. now apply in_map.
    + repeat split; cbn [fst snd]; rewrite ?map_app; cbn [map fst snd].
      * now apply NoDup_snoc.
      * now apply ordered_keys_snoc.
      * apply List.Forall_app. split; [exact Hkeys|].
        constructor; [now split|constructor].
      * apply List.Forall_app. split; [exact Hvals|].
        constructor; [exact Hv|constructor].
Qed.

Hypothesis rule_allowed : forall k, allowed (rule k).

Lemma state_by_fold (g : json -> json) entries :
  (forall e, In e entries ->
     rule (fst e) <> proto_key /\ normal_by allowed (g (snd e))) ->
  forall o, state_by allowed o ->
    state_by allowed
      (fold_left (fun transformed e => assign transformed (rule (fst e)) (g (snd e)))
                 entries o).
Proof.
  induction entries as [|e rest IH]; intros H o Ho; [exact Ho|].
  cbn [fold_left]. apply IH; [intros; apply H; now right|].
  destruct (H e (or_introl eq_refl)) as [Hsafe Hnorm].
  now apply state_by_assign.
Qed.

(** When the rule never yields [__proto__] on the keys of [x], the result is
    in normal form. *)
Lemma transformKeys_normal x :
  keys_all (fun k => not_proto (rule k)) x = true ->
  normal_by allowed (transformKeys rule x).
Proof.
  induction x as [| | | |items IH|proto entries IH] using json_nested_ind;
    intros Hsafe; try constructor.
  - cbn in Hsafe. apply List.Forall_forall. intros y Hy.
    apply in_map_iff in Hy as [z [<- Hz]].
    rewrite List.Forall_forall in IH. apply IH; [exact Hz|].
    exact (proj1 (forallb_forall _ _) Hsafe z Hz).
  - pose proof (keys_all_object _ _ _ Hsafe) as Hk.
    rewrite List.Forall_forall in IH. cbn [transformKeys].
    pose proof (state_by_fold (transformKeys rule) entries) as Hfold.
    assert (Hall : forall e, In e entries ->
              rule (fst e) <> proto_key
              /\ normal_by allowed (transformKeys rule (snd e))).
    { intros e He. destruct (Hk e He) as [Hp Hsub]. split.
      - unfold not_proto in Hp. apply negb_true_iff in Hp.
        now apply String.eqb_neq.
      - now apply IH. }
    specialize (Hfold Hall _ state_by_empty).
    destruct (fold_left _ entries empty_object) as [p built].
    destruct Hfold as (Hp & Hnd & Hord & Hkeys & Hvals). cbn [fst snd] in *.
    subst p. unfold object_of. cbn [fst snd]. now constructor.
Qed.

Hypothesis rule_fixed : forall k, allowed k -> rule k = k.

(** A value in normal form whose keys the rule leaves alone is left alone. *)
Lemma transformKeys_fixed y :
  normal_by allowed y -> transformKeys rule y = y.
Proof.
  induction y as [| | | |items IH|proto entries IH] using json_nested_ind;
    intros Hn; try reflexivity.
  - inversion Hn as [| | | |? Hitems|]; subst. cbn. f_equal.
    transitivity (map id items); [|apply map_id]. apply map_ext_in.
    intros y Hy. rewrite List.Forall_forall in IH, Hitems. apply IH; auto.
  - inversion Hn as [| | | | |? Hnd Hord Hkeys Hvals]; subst.
    rewrite List.Forall_forall in IH, Hkeys, Hvals.
    cbn [transformKeys].
    rewrite (fold_left_ext_on _ (fun t e => assign t (fst e) (snd e))).
    + unfold empty_object. rewrite fold_assign_rebuild; try assumption.
      * reflexivity.
      * intros Hin. destruct (Hkeys _ Hin) as [_ Hp]. now apply Hp.
    + intros t e He.
      destruct (Hkeys (fst e) (in_map fst _ _ He)) as [Hu _].
      rewrite (rule_fixed _ Hu). f_equal.
      apply (IH _ He), Hvals. now apply in_map.
Qed.

End normal_form_facts.

Lemma NoDup_distinct_keys ks : List.NoDup ks -> distinct_keys ks = true.
Proof.
  induction ks as [|k rest IH]; intros H; [reflexivity|].
  inversion H as [|? ? Hk Hrest]; subst. cbn. rewrite (IH Hrest), andb_true_r.
  apply negb_true_iff. destruct (existsb (String.eqb k) rest) eqn:E; [|reflexivity].
  apply existsb_exists in E as [k' [Hin Heq]]. apply String.eqb_eq in Heq.
  subst k'. contradiction.
Qed.

(** A value in normal form is JSON-like and has no key [__proto__]. *)
Lemma normal_by_json_like allowed y :
  normal_by allowed y ->
  json_like y = true /\ keys_all not_proto y = true.
Proof.
  induction y as [| | | |items IH|proto entries IH] using json_nested_ind;
    intros Hn; try (split; reflexivity).
  - inversion Hn as [| | | |? Hitems|]; subst.
    rewrite List.Forall_forall in IH, Hitems. cbn.
    split; apply forallb_forall; intros y Hy; now apply IH; auto.
  - inversion Hn as [| | | | |? Hnd Hord Hkeys Hvals]; subst.
    rewrite List.Forall_forall in IH, Hkeys, Hvals. cbn.
    rewrite (NoDup_distinct_keys _ Hnd), Hord. cbn [andb]. split.
    + apply forallb_forall. intros e He. apply (IH e He), Hvals. now apply in_map.
    + apply forallb_forall. intros e He. apply andb_true_intro. split.
      * destruct (Hkeys (fst e) (in_map fst _ _ He)) as [_ Hp].
        unfold not_proto. now apply negb_true_iff, String.eqb_neq.
      * apply (IH e He), Hvals. now apply in_map.
Qed.

(** ** [transformKeysToCamel] on every value *)

Lemma snakeToCamel_not_proto k : snakeToCamel k <> proto_key.
Proof.
  intros H. pose proof (snakeToCamel_no_match k) as Hn. rewrite H in Hn.
  discriminate.
Qed.

Lemma transformKeysToCamel_normal x :
  normal_by (fun k => has_underscore_lower k = false) (transformKeysToCamel x).
Proof.
  rewrite transformKeysToCamel_transformKeys.
  apply transformKeys_normal; [apply snakeToCamel_no_match|].
  induction x as [| | | |items IH|proto entries IH] using json_nested_ind;
    try reflexivity.
  - cbn. apply forallb_forall. rewrite List.Forall_forall in IH. exact IH.
  - cbn. apply forallb_forall. rewrite List.Forall_forall in IH.
    intros e He. rewrite (IH e He), andb_true_r. unfold not_proto.
    apply negb_true_iff, String.eqb_neq, snakeToCamel_not_proto.
Qed.

(** X4. Whatever the value, keys [__proto__] included, the result of
    [transformKeysToCamel] is a plain JSON-like value: every object in it
    has the standard prototype, distinct keys, and no own key [__proto__]. *)
Theorem transformKeysToCamel_plain (x : json) :
  json_like (transformKeysToCamel x) = true
  /\ keys_all not_proto (transformKeysToCamel x) = true
  /\ keys_all (fun k => negb (has_underscore_lower k)) (transformKeysToCamel x)
     = true.
Proof.
  pose proof (transformKeysToCamel_normal x) as Hn.
  destruct (normal_by_json_like _ _ Hn) as [Hl Hp]. split; [exact Hl|].
  split; [exact Hp|]. clear Hl Hp.
  induction (transformKeysToCamel x) as [| | | |items IH|proto entries IH]
    using json_nested_ind; try reflexivity.
  - inversion Hn as [| | | |? Hitems|]; subst.
    rewrite List.Forall_forall in IH, Hitems. cbn.
    apply forallb_forall. intros y Hy. apply IH; auto.
  - inversion Hn as [| | | | |? Hnd Hord Hkeys Hvals]; subst.
    rewrite List.Forall_forall in IH, Hkeys, Hvals. cbn.
    apply forallb_forall. intros e He. apply andb_true_intro. split.
    + destruct (Hkeys (fst e) (in_map fst _ _ He)) as [Hk _]. now rewrite Hk.
    + apply (IH e He), Hvals. now apply in_map.
Qed.

(** X5. [transformKeysToCamel] is idempotent on every value. *)
Theorem transformKeysToCamel_idempotent (x : json) :
  transformKeysToCamel (transformKeysToCamel x) = transformKeysToCamel x.
Proof.
  rewrite (transformKeysToCamel_transformKeys (transformKeysToCamel x)).
  apply (transformKeys_fixed (fun k => has_underscore_lower k = false)).
  - intros k Hk. now apply snakeToCamel_fixed.
  - apply transformKeysToCamel_normal.
Qed.

(** ** Colliding keys: the last entry wins *)

Lemma lookup_entry_replace k' k v entries :
  In k (map fst entries) ->
  lookup_entry k' (replace_value k v entries)
  = if String.eqb k' k then Some v else lookup_entry k' entries.
Proof.
  induction entries as [|e rest IH]; intros Hin; [destruct Hin|].
  cbn [replace_value]. destruct (String.eqb_spec k (fst e)) as [->|Hne].
  - cbn [lookup_entry fst snd]. now destruct (String.eqb k' (fst e)).
  - cbn [lookup_entry]. destruct (String.eqb_spec k' (fst e)) as [->|Hne'].
    + destruct (String.eqb_spec (fst e) k); [congruence | reflexivity].
    + apply IH. destruct Hin as [Hin|Hin]; [congruence | exact Hin].
Qed.

Lemma lookup_entry_insert_index i k' k v entries :
  ~ In k (map fst entries) ->
  lookup_entry k' (insert_index i k v entries)
  = if String.eqb k' k then Some v else lookup_entry k' entries.
Proof.
  induction entries as [|e rest IH]; intros Hk; [reflexivity|].
  cbn [insert_index]. cbn in Hk.
  destruct (array_index (fst e)) as [j|]; [destruct (j <? i)%N|];
    try reflexivity.
  cbn [lookup_entry]. destruct (String.eqb_spec k' (fst e)) as [->|Hne].
  - destruct (String.eqb_spec (fst e) k); [tauto | reflexivity].
  - apply IH. tauto.
Qed.

Lemma lookup_entry_snoc k' k v entries :
  ~ In k (map fst entries) ->
  lookup_entry k' (entries ++ [(k, v)])
  = if String.eqb k' k then Some v else lookup_entry k' entries.
Proof.
  intros Hk. induction entries as [|e rest IH]; [reflexivity|].
  cbn [app lookup_entry]. cbn in Hk.
  destruct (String.eqb_spec k' (fst e)) as [->|Hne].
  - destruct (String.eqb_spec (fst e) k); [tauto | reflexivity].
  - apply IH. tauto.
Qed.

(** Reading a key other than [__proto__] after an assignment. *)
Lemma lookup_entry_assign o k' k v :
  k' <> proto_key ->
  lookup_entry k' (snd (assign o k v))
  = if String.eqb k' k then Some v else lookup_entry k' (snd o).
Proof.
  intros Hk'. destruct o as [proto entries]. unfold assign.
  destruct (has_key k entries) eqn:Ehas; cbn [snd].
  - apply lookup_entry_replace. now apply has_key_In.
  - assert (Hfresh : ~ In k (map fst entries)).
    { intros Hin. apply has_key_present in Hin. congruence. }
    destruct (String.eqb k proto_key && proto) eqn:Ep.
    + apply andb_prop in Ep as [Ek _]. apply String.eqb_eq in Ek. subst k.
      destruct (String.eqb_spec k' proto_key); [contradiction|].
      now destruct v.
    + cbn [snd]. unfold add_property. destruct (array_index k).
      * now apply lookup_entry_insert_index.
      * now apply lookup_entry_snoc.
Qed.

Lemma lookup_entry_fold rule (g : json -> json) k' entries :
  k' <> proto_key ->
  forall o,
    lookup_entry k'
      (snd (fold_left (fun transformed e => assign transformed (rule (fst e)) (g (snd e)))
                      entries o))
    = match last_source rule k' entries with
      | Some v => Some (g v)
      | None => lookup_entry k' (snd o)
      end.
Proof.
  intros Hk'. induction entries as [|e rest IH]; intros o; [reflexivity|].
  cbn [fold_left last_source]. rewrite IH.
  destruct (last_source rule k' rest); [reflexivity|].
  rewrite lookup_entry_assign by exact Hk'.
  now destruct (String.eqb k' (rule (fst e))).
Qed.

(** X6. When several keys of an object have the same snake_case form, the
    property of the result holds the transformed value of the last of
    them; a key no entry is turned into is absent. *)
Theorem transformKeysToSnake_last_wins proto entries (k : string) :
  k <> proto_key ->
  lookup_entry k (own_entries (transformKeysToSnake (JObject proto entries)))
  = option_map transformKeysToSnake (last_source camelToSnake k entries).
Proof.
  intros Hk. cbn [transformKeysToSnake]. unfold object_of. cbn [own_entries].
  rewrite lookup_entry_fold by exact Hk.
  now destruct (last_source camelToSnake k entries).
Qed.

Lemma transformKeysToSnake_last_wins_example :
  lookup_entry "a_b"
    (own_entries (transformKeysToSnake
       (JObject true [("aB", JNumber 1); ("a_b", JNumber 2); ("c", JNull)])))
  = Some (JNumber 2).
Proof.
  rewrite (transformKeysToSnake_last_wins true
             [("aB", JNumber 1); ("a_b", JNumber 2); ("c", JNull)] "a_b");
    [reflexivity | discriminate].
Defined.

(** ** Round trips through both traversals *)

Lemma digits_value_digits s : forall acc v,
  digits_value acc s = Some v -> string_forall is_digit s = true.
Proof.
  induction s as [|c rest IH]; intros acc v H; [reflexivity|].
  cbn in *. destruct (is_digit c); [|discriminate]. cbn. exact (IH _ v H).
Qed.

Lemma array_index_digits k i :
  array_index k = Some i -> string_forall is_digit k = true.
Proof.
  unfold array_index. destruct k as [|c rest]; [discriminate|].
  destruct (digits_value 0 (String c rest)) as [v|] eqn:E; [|discriminate].
  intros _. now apply (digits_value_digits _ 0%N v).
Qed.

Lemma digit_not_upper c : is_digit c = true -> is_upper c = false.
Proof.
  intros H. destruct (is_upper c) eqn:E; [|reflexivity].
  apply upper_not_digit in E. congruence.
Qed.

Lemma digit_not_underscore c : is_digit c = true -> is_underscore c = false.
Proof.
  intros H. destruct (is_underscore c) eqn:E; [|reflexivity].
  apply underscore_not_digit in E. congruence.
Qed.

Lemma digits_camelToSnake s :
  string_forall is_digit (camelToSnake s) = true -> camelToSnake s = s.
Proof.
  induction s as [|c rest IH]; [reflexivity|]. cbn [camelToSnake].
  destruct (is_upper c) eqn:E; cbn [string_forall].
  - discriminate.
  - intros H. apply andb_prop in H as [_ H]. f_equal. now apply IH.
Qed.

Lemma digits_snakeToCamel_bounded n : forall s,
  (String.length s <= n)%nat ->
  string_forall is_digit (snakeToCamel s) = true -> snakeToCamel s = s.
Proof.
  induction n as [|n IH]; intros s Hlen.
  - destruct s; [reflexivity | cbn in Hlen; lia].
  - destruct s as [|c rest]; [reflexivity|]. cbn [String.length] in Hlen.
    destruct rest as [|d rest']; [reflexivity|]. rewrite snakeToCamel_cons.
    destruct (is_underscore c && is_lower d) eqn:Em; cbn [string_forall].
    + apply andb_prop in Em as [_ Hd]. apply upper_of_lower in Hd.
      rewrite (upper_not_digit _ Hd). discriminate.
    + intros H. apply andb_prop in H as [_ H]. f_equal. apply IH; [lia | exact H].
Qed.

Lemma digits_fixed s :
  string_forall is_digit s = true -> camelToSnake s = s /\ snakeToCamel s = s.
Proof.
  intros H. split.
  - apply camelToSnake_fixed. induction s as [|c rest IH]; [reflexivity|].
    cbn in *. apply andb_prop in H as [Hc Hr]. unfold no_upper in IH.
    now rewrite (digit_not_upper c Hc), IH.
  - apply snakeToCamel_fixed. induction s as [|c rest IH]; [reflexivity|].
    cbn in *. apply andb_prop in H as [Hc Hr].
    now rewrite (digit_not_underscore c Hc), IH.
Qed.

(** Neither rule makes or unmakes an array index. *)
Lemma array_index_camelToSnake k : array_index (camelToSnake k) = array_index k.
Proof.
  destruct (array_index (camelToSnake k)) as [i|] eqn:E1.
  - pose proof (digits_camelToSnake k (array_index_digits _ _ E1)) as E.
    rewrite E in E1. now rewrite E1.
  - destruct (array_index k) as [i|] eqn:E2; [|reflexivity].
    destruct (digits_fixed k (array_index_digits _ _ E2)) as [E _]. congruence.
Qed.

Lemma array_index_snakeToCamel k : array_index (snakeToCamel k) = array_index k.
Proof.
  destruct (array_index (snakeToCamel k)) as [i|] eqn:E1.
  - pose proof (digits_snakeToCamel_bounded (String.length k) k (le_n _)
                  (array_index_digits _ _ E1)) as E.
    rewrite E in E1. now rewrite E1.
  - destruct (array_index k) as [i|] eqn:E2; [|reflexivity].
    destruct (digits_fixed k (array_index_digits _ _ E2)) as [_ E]. congruence.
Qed.

Lemma ordered_keys_map rule ks :
  (forall k, array_index (rule k) = array_index k) ->
  ordered_keys (map rule ks) = ordered_keys ks.
Proof.
  intros H. induction ks as [|k rest IH]; [reflexivity|].
  cbn. rewrite IH. f_equal. clear IH.
  induction rest as [|k' rest IH]; [reflexivity|].
  cbn. rewrite IH. f_equal. unfold before. now rewrite !H.
Qed.

(** Assigning entries whose keys are new and arrive in property order
    appends them one after the other. *)
Lemma fold_assign_ordered (f : string -> string) (g : json -> json) entries :
  forall acc,
    List.NoDup (map fst acc ++ map (fun e => f (fst e)) entries) ->
    ordered_keys (map fst acc ++ map (fun e => f (fst e)) entries) = true ->
    Forall (fun e => f (fst e) <> proto_key) entries ->
    fold_left (fun transformed e => assign transformed (f (fst e)) (g (snd e)))
              entries (true, acc)
    = (true, acc ++ map (fun e => (f (fst e), g (snd e))) entries).
Proof.
  induction entries as [|e rest IH]; intros acc Hnd Hord Hkeys.
  - cbn. now rewrite app_nil_r.
  - inversion Hkeys as [|? ? Hproto Hrest]; subst.
    cbn [fold_left map]. cbn [map] in Hnd, Hord.
    assert (Hfresh : has_key (f (fst e)) acc = false).
    { apply has_key_fresh. intros Hin.
      apply List.NoDup_remove_2 in Hnd. apply Hnd, in_or_app. now left. }
    unfold assign at 2. rewrite Hfresh.
    apply String.eqb_neq in Hproto. rewrite Hproto. cbn [andb].
    rewrite add_property_last by (apply (ordered_keys_before _ _ _ Hord)).
    rewrite IH; [| | |exact Hrest].
    + now rewrite <- app_assoc.
    + rewrite map_app, <- app_assoc. exact Hnd.
    + rewrite map_app, <- app_assoc. exact Hord.
Qed.

Lemma json_like_ordered proto entries :
  json_like (JObject proto entries) = true ->
  ordered_keys (map fst entries) = true.
Proof.
  cbn [json_like]. intros H. apply andb_prop in H as [H _].
  apply andb_prop in H as [_ H]. exact H.
Qed.

Section round_trip.

Variables there back : string -> string.
Variable kept : string -> bool.

Hypothesis back_there : forall k, kept k = true -> back (there k) = k.
Hypothesis there_index : forall k, array_index (there k) = array_index k.
Hypothesis there_proto : forall k, kept k = true -> there k <> proto_key.
Hypothesis kept_proto : forall k, kept k = true -> k <> proto_key.

(** Going there and back over the keys of a JSON-like value gives the value
    back, when the rule back undoes the rule there on every key and no key
    touches [__proto__]. *)
Lemma transformKeys_there_back x :
  json_like x = true -> keys_all kept x = true ->
  transformKeys back (transformKeys there x) = x.
Proof.
  induction x as [| | | |items IH|proto entries IH] using json_nested_ind;
    intros Hlike Hkeys; try reflexivity.
  - cbn [transformKeys]. f_equal.
    rewrite map_map. transitivity (map id items); [|apply map_id].
    apply map_ext_in. intros y Hy. unfold id.
    rewrite List.Forall_forall in IH. apply IH; [exact Hy | |].
    + cbn in Hlike. exact (proj1 (forallb_forall _ _) Hlike y Hy).
    + cbn in Hkeys. exact (proj1 (forallb_forall _ _) Hkeys y Hy).
  - pose proof (json_like_ordered _ _ Hlike) as Hord.
    apply json_like_object in Hlike as [-> [Hnd Hvals]].
    pose proof (keys_all_object _ _ _ Hkeys) as Hk.
    rewrite List.Forall_forall in IH.
    assert (Hback : map (fun e : string * json => back (there (fst e))) entries
                    = map fst entries).
    { apply map_ext_in. intros e He. apply back_there, (Hk _ He). }
    cbn [transformKeys]. unfold empty_object.
    rewrite fold_assign_ordered.
    + unfold object_of. cbn [app fst snd transformKeys].
      unfold empty_object. rewrite fold_assign_ordered.
      * unfold object_of. cbn [app fst snd]. f_equal. rewrite map_map.
        transitivity (map id entries); [|apply map_id]. apply map_ext_in.
        intros [k v] He. cbn [fst snd]. unfold id.
        destruct (Hk _ He) as [Hkept Hsub]. cbn [fst snd] in *.
        rewrite (back_there k Hkept).
        f_equal. apply (IH _ He); [apply (Hvals _ He) | exact Hsub].
      * cbn [map app]. rewrite map_map. cbn [fst]. now rewrite Hback.
      * cbn [map app]. rewrite map_map. cbn [fst]. now rewrite Hback.
      * apply List.Forall_forall. intros e1 He1.
        apply in_map_iff in He1 as [e [<- He]]. cbn [fst].
        destruct (Hk _ He) as [Hkept _].
        rewrite (back_there _ Hkept). now apply kept_proto.
    + cbn [map app]. rewrite <- map_map. apply NoDup_map_on; [|exact Hnd].
      intros a b Ha Hb Hab. apply in_map_iff in Ha as [ea [<- Hea]].
      apply in_map_iff in Hb as [eb [<- Heb]].
      rewrite <- (back_there (fst ea)), <- (back_there (fst eb));
        [now rewrite Hab | apply (Hk _ Heb) | apply (Hk _ Hea)].
    + cbn [map app]. rewrite <- map_map.
      now rewrite (ordered_keys_map there _ there_index).
    + apply List.Forall_forall. intros e He. apply there_proto, (Hk _ He).
Qed.

End round_trip.

Lemma snake_key_parts k :
  snake_key k = true -> no_upper k = true /\ k <> proto_key.
Proof.
  unfold snake_key, not_proto. intros H. apply andb_prop in H as [Hu Hp].
  split; [exact Hu|]. now apply String.eqb_neq, negb_true_iff.
Qed.

Lemma camel_key_parts k :
  camel_key k = true ->
  has_underscore_lower k = false /\ camelToSnake k <> proto_key.
Proof.
  unfold camel_key, snake_key_safe. intros H. apply andb_prop in H as [Hu Hp].
  split; [now apply negb_true_iff|]. now apply String.eqb_neq, negb_true_iff.
Qed.

(** X7. A response with snake_case keys comes back unchanged from the inbound
    and then the outbound transformation: for every JSON-like value whose
    keys have no upper-case letter and are not [__proto__],
    [transformKeysToSnake (transformKeysToCamel x) = x]. *)
Theorem transformKeys_snake_round_trip (x : json) :
  json_like x = true -> keys_all snake_key x = true ->
  transformKeysToSnake (transformKeysToCamel x) = x.
Proof.
  intros Hlike Hkeys.
  rewrite transformKeysToSnake_transformKeys, transformKeysToCamel_transformKeys.
  apply (transformKeys_there_back snakeToCamel camelToSnake snake_key);
    try assumption.
  - intros k Hk.
    apply (camelToSnake_snakeToCamel_bounded (String.length k));
      [lia | apply (snake_key_parts k Hk)].
  - apply array_index_snakeToCamel.
  - intros k _. apply snakeToCamel_not_proto.
  - intros k Hk. apply (snake_key_parts k Hk).
Qed.

Lemma transformKeys_snake_round_trip_sample :
  json_like response_sample = true
  /\ keys_all snake_key response_sample = true
  /\ transformKeysToSnake (transformKeysToCamel response_sample) = response_sample.
Proof.
  split; [reflexivity|]. split; [reflexivity|].
  apply (transformKeys_snake_round_trip response_sample); reflexivity.
Defined.

(** X8. The round trip of a request reaches beyond keys made of letters: for
    every JSON-like value whose keys have no underscore before a lower-case
    letter and are not [_Proto__] (digits, array indices and other
    underscores are fine),
    [transformKeysToCamel (transformKeysToSnake x) = x]. *)
Theorem transformKeys_camel_round_trip (x : json) :
  json_like x = true -> keys_all camel_key x = true ->
  transformKeysToCamel (transformKeysToSnake x) = x.
Proof.
  intros Hlike Hkeys.
  rewrite transformKeysToSnake_transformKeys, transformKeysToCamel_transformKeys.
  apply (transformKeys_there_back camelToSnake snakeToCamel camel_key);
    try assumption.
  - intros k Hk. apply snakeToCamel_camelToSnake_plain, (camel_key_parts k Hk).
  - apply array_index_camelToSnake.
  - intros k Hk. apply (camel_key_parts k Hk).
  - intros k Hk -> . destruct (camel_key_parts _ Hk) as [H _]. discriminate.
Qed.

Lemma transformKeys_camel_round_trip_sample :
  json_like request_sample = true
  /\ keys_all camel_key request_sample = true
  /\ transformKeysToCamel (transformKeysToSnake request_sample) = request_sample.
Proof.
  split; [reflexivity|]. split; [reflexivity|].
  apply (transformKeys_camel_round_trip request_sample); reflexivity.
Defined.

(** ** [transformKeysToSnake] away from the key [__proto__] *)

Lemma snake_key_normal (x : json) :
  json_like x = true -> keys_all snake_key x = true -> snake_normal x.
Proof.
  induction x as [| | | |items IH|proto entries IH] using json_nested_ind;
    intros Hlike Hkeys; try constructor.
  - rewrite List.Forall_forall in IH. apply List.Forall_forall. intros y Hy.
    apply IH; [exact Hy | |].
    + cbn in Hlike. exact (proj1 (forallb_forall _ _) Hlike y Hy).
    + cbn in Hkeys. exact (proj1 (forallb_forall _ _) Hkeys y Hy).
  - pose proof (json_like_ordered _ _ Hlike) as Hord.
    pose proof (keys_all_object _ _ _ Hkeys) as Hk.
    apply json_like_object in Hlike as [-> [Hnd Hvals]].
    rewrite List.Forall_forall in IH. constructor.
    + exact Hnd.
    + exact Hord.
    + apply List.Forall_forall. intros k Hin.
      apply in_map_iff in Hin as [e [<- He]].
      exact (snake_key_parts _ (proj1 (Hk e He))).
    + apply List.Forall_forall. intros v Hin.
      apply in_map_iff in Hin as [e [<- He]].
      apply IH; [exact He | now apply Hvals | exact (proj2 (Hk e He))].
Qed.

(** X30. Away from the key [__proto__], [transformKeysToSnake] is
    idempotent and leaves snake_case bodies alone: for every value none of
    whose keys is [__proto__] or [_Proto__], a second pass changes nothing;
    and every JSON-like value whose keys have no upper-case letter and are
    not [__proto__] passes through unchanged. *)
Theorem transformKeysToSnake_idempotent (x : json) :
  (keys_all snake_key_safe x = true ->
   transformKeysToSnake (transformKeysToSnake x) = transformKeysToSnake x)
  /\ (json_like x = true -> keys_all snake_key x = true ->
      transformKeysToSnake x = x).
Proof.
  split.
  - apply transformKeysToSnake_twice.
  - intros Hlike Hkeys. now apply transformKeysToSnake_fixed, snake_key_normal.
Qed.

Lemma transformKeysToSnake_idempotent_sample :
  transformKeysToSnake (transformKeysToSnake sample_customer)
  = transformKeysToSnake sample_customer
  /\ transformKeysToSnake response_sample = response_sample.
Proof.
  split.
  - apply (proj1 (transformKeysToSnake_idempotent sample_customer)). reflexivity.
  - apply (proj2 (transformKeysToSnake_idempotent response_sample)); reflexivity.
Defined.

(** ** More on the error classifier *)

Ltac by_code :=
  unfold fromApiResponse;
  repeat match goal with
         | |- context [code_in ?c ?l] => destruct (code_in c l)
         end.

Lemma fromApiResponse_statusCode response cause :
  statusCode (fromApiResponse response cause)
  = match name (fromApiResponse response cause) with
    | ApiError => Some (status_or_500 (ErrorResponse.status response))
    | c => fixed_status c
    end.
Proof. by_code; reflexivity. Qed.

Lemma fromApiResponse_requestId response cause :
  requestId (fromApiResponse response cause) = ErrorResponse.request_id response.
Proof. by_code; reflexivity. Qed.

Lemma fromApiResponse_cause response origin :
  cause (fromApiResponse response origin)
  = if keeps_cause (name (fromApiResponse response origin)) then origin else None.
Proof. by_code; reflexivity. Qed.

Lemma fromApiResponse_details response cause :
  keeps_body (name (fromApiResponse response cause)) = true ->
  details (fromApiResponse response cause) = ErrorResponse.details response.
Proof. by_code; cbn; congruence. Qed.

Lemma fromApiResponse_class response cause :
  name (fromApiResponse response cause) <> NetworkError
  /\ name (fromApiResponse response cause) <> ConfigurationError.
Proof. by_code; split; discriminate. Qed.

(** X9. Whatever HTTP status the server answered with, the error that
    [handleError] builds from a response carries the status of its class
    (401, 400, 402, 429 or 404); only an [ApiError] carries the status of
    the response, and 500 in place of the status 0. *)
Theorem handleError_status (error : AxiosError.t) (response : Response.t) :
  AxiosError.response error = Some response ->
  statusCode (handleError error)
  = match name (handleError error) with
    | ApiError =>
        Some (if (Response.status response =? 0)%Z then 500%Z
              else Response.status response)
    | c => fixed_status c
    end
  /\ name (handleError error) <> NetworkError
  /\ name (handleError error) <> ConfigurationError.
Proof.
  intros H. unfold handleError. rewrite H.
  destruct (truthy _);
    (split; [apply fromApiResponse_statusCode | apply fromApiResponse_class]).
Qed.

Lemma handleError_status_example :
  statusCode (handleError customer_not_found_outcome) = Some 404%Z
  /\ statusCode (handleError weird_code_outcome) = Some 500%Z.
Proof.
  split.
  - exact (proj1 (handleError_status customer_not_found_outcome _ eq_refl)).
  - exact (proj1 (handleError_status weird_code_outcome _ eq_refl)).
Defined.

(** X10. What the classified error keeps of the failure: the request id of
    the response always; the failure itself as [cause] only for an
    [AuthenticationError] or a [NetworkError]; the body of the response as
    [details] for the classes whose constructor takes details. *)
Theorem handleError_retains (error : AxiosError.t) :
  requestId (handleError error)
  = AxiosError.response error ≫= Response.x_request_id
  /\ cause (handleError error)
     = (if keeps_cause (name (handleError error)) then Some error else None)
  /\ (keeps_body (name (handleError error)) = true ->
      details (handleError error)
      = body_details (AxiosError.response error ≫= Response.data)).
Proof.
  unfold handleError.
  destruct (AxiosError.response error) as [response|]; cbn [mbind option_bind].
  - destruct (truthy _);
      (split; [apply fromApiResponse_requestId
              |split; [apply fromApiResponse_cause
                      |apply fromApiResponse_details]]).
  - destruct (AxiosError.request error).
    + cbn. repeat split.
    + split; [apply fromApiResponse_requestId
             |split; [apply fromApiResponse_cause
                     |apply fromApiResponse_details]].
Qed.

(** X11. A response whose code is one of the four not-found codes gives an
    error of code [TRANSACTION_NOT_FOUND], whichever of the four it was; the
    code of the response can be read back from the resource type in the
    details. *)
Theorem handleError_not_found (error : AxiosError.t) (response : Response.t)
  (body : Body.t) (c : string) :
  AxiosError.response error = Some response ->
  Response.data response = Some body ->
  Body.error body = Some c ->
  In c not_found_codes ->
  code (handleError error) = "TRANSACTION_NOT_FOUND"
  /\ exists resourceType,
       details (handleError error) = ResourceType resourceType
       /\ String.append resourceType "_NOT_FOUND" = c.
Proof.
  intros H Hd Hb Hin. unfold handleError. rewrite H. cbn zeta. rewrite Hd.
  cbn [mbind option_bind]. rewrite Hb.
  cbn in Hin. destruct Hin as [<-|[<-|[<-|[<-|[]]]]]; cbn;
    (split; [reflexivity | eexists; split; reflexivity]).
Qed.

Lemma handleError_not_found_example :
  code (handleError customer_not_found_outcome) = "TRANSACTION_NOT_FOUND"
  /\ exists resourceType,
       details (handleError customer_not_found_outcome) = ResourceType resourceType
       /\ String.append resourceType "_NOT_FOUND" = "CUSTOMER_NOT_FOUND".
Proof.
  apply (handleError_not_found customer_not_found_outcome _ _ _
           eq_refl eq_refl eq_refl).
  cbn. tauto.
Defined.

(** X12. The two handlers give the same class exactly when the response has
    an error code or the request got no response.  On a response without a
    code [handleError] gives an [ApiError] with the status of the response,
    [handleAuthError] an [AuthenticationError] with status 401; on a failure
    with neither response nor request [handleError] gives an [ApiError] of
    status 500, [handleAuthError] an [AuthenticationError]. *)
Theorem handlers_agree_iff (error : AxiosError.t) :
  (name (handleAuthError error) = name (handleError error)
   <-> body_code error <> None \/ no_response error = true)
  /\ (body_code error = None -> no_response error = false ->
      name (handleError error) = ApiError
      /\ name (handleAuthError error) = AuthenticationError
      /\ statusCode (handleAuthError error) = Some 401%Z).
Proof.
  unfold handleError, handleAuthError, body_code, no_response.
  destruct (AxiosError.response error) as [response|].
  - destruct (truthy (Response.data response ≫= Body.error)) eqn:E.
    + split.
      * split; [intros _; left|intros _; apply fromApiResponse_name_by_code;
                                reflexivity].
        destruct (Response.data response ≫= Body.error); [discriminate|].
        discriminate.
      * intros H. rewrite H in E. discriminate.
    + split.
      * split; [discriminate|]. intros [H|H]; [now elim H | discriminate].
      * intros _ _. repeat split.
  - destruct (AxiosError.request error).
    + split; [|discriminate]. split; [now right | reflexivity].
    + split.
      * split; [discriminate|]. intros [H|H]; [now elim H | discriminate].
      * intros _ _. repeat split.
Qed.

Lemma handlers_agree_iff_example :
  name (handleError
          (AxiosError.mk (Some (Response.mk 503 None None)) true None "x"))
  = ApiError
  /\ name (handleAuthError
             (AxiosError.mk (Some (Response.mk 503 None None)) true None "x"))
     = AuthenticationError
  /\ statusCode (handleAuthError
                   (AxiosError.mk (Some (Response.mk 503 None None)) true None "x"))
     = Some 401%Z.
Proof.
  apply (proj2 (handlers_agree_iff
                  (AxiosError.mk (Some (Response.mk 503 None None)) true None "x")));
    reflexivity.
Defined.

(** ** [PlanService] *)

Lemma prefix_append p s : String.prefix p (String.append p s) = true.
Proof.
  induction p as [|a p IH]; simpl; [now destruct s|].
  destruct (ascii_dec a a); [exact IH | contradiction].
Qed.

Lemma string_drop_append p s :
  string_drop (String.length p) (String.append p s) = s.
Proof. induction p as [|a p IH]; [reflexivity | exact IH]. Qed.

Lemma replace_first_prefix p r s :
  String.prefix p s = true ->
  replace_first p r s = String.append r (string_drop (String.length p) s).
Proof. destruct s; simpl; intros ->; reflexivity. Qed.

(** Stripping the scheme from the header gives the token back, also for a
    token that contains the scheme itself. *)
Lemma strip_authHeader token :
  replace_first "Bearer " EmptyString (authHeader token) = token.
Proof.
  unfold authHeader. rewrite replace_first_prefix by apply prefix_append.
  apply string_drop_append.
Qed.

(** X13. With a token from the store, the HTTP client is called once, with
    the headers of the caller and [Authorization: Bearer <token>] (the
    header of the caller, if any, is replaced); its answer is returned as it
    is and its failure is classified by [handleError]. *)
Theorem makeAuthenticatedRequest_sends_token (T : Type) (token : string)
  (headers : gmap string string)
  (httpClient : gmap string string -> result AxiosError.t T) :
  exists sent_headers,
    sent_headers !! "Authorization" = Some (String.append "Bearer " token)
    /\ (forall h, h <> "Authorization" -> sent_headers !! h = headers !! h)
    /\ makeAuthenticatedRequest (Return token) headers httpClient
       = match httpClient sent_headers with
         | Return response => Return response
         | Throw error => Throw (handleError error)
         end.
Proof.
  exists (withAuth headers token). unfold withAuth. split; [|split].
  - apply lookup_insert_eq.
  - intros h Hh. now apply lookup_insert_ne.
  - unfold makeAuthenticatedRequest. cbn zeta. now rewrite strip_authHeader.
Qed.

(** X14. When the token store throws, whatever it throws, the HTTP client
    is not called and the caller gets an [ApiError] of code [UNKNOWN_ERROR]
    and status 500 without cause: an [AuthenticationError] of the store does
    not reach the caller of a plan method as such. *)
Theorem makeAuthenticatedRequest_token_failure (T : Type) (e : Exception)
  (headers : gmap string string)
  (httpClient : gmap string string -> result AxiosError.t T) :
  makeAuthenticatedRequest (Throw e) headers httpClient
  = Throw (new_ApiError "Unknown error in plan service" 500 "UNKNOWN_ERROR"
                        NoDetails None).
Proof. destruct e; reflexivity. Qed.

Lemma handleError_404 error :
  statusCode (handleError error) = Some 404%Z <-> answers_not_found error.
Proof.
  unfold answers_not_found, body_code, handleError.
  destruct (AxiosError.response error) as [response|].
  - destruct (truthy (Response.data response ≫= Body.error)) eqn:E.
    + destruct (Response.data response ≫= Body.error) as [c|]; [|discriminate].
      rewrite truthy_or_else by exact E.
      destruct (in_dec string_dec c matched_codes) as [Hin|Hout].
      * assert (Hnf : statusCode
                        (fromApiResponse
                           (ErrorResponse.mk c
                              (or_else (Response.data response ≫= Body.message)
                                       "Plan service error")
                              (Some (Response.status response))
                              (body_details (Response.data response))
                              (Response.x_request_id response))
                           (Some error)) = Some 404%Z
                      <-> In c not_found_codes).
        { cbn in Hin.
          repeat (destruct Hin as [<-|Hin]; [cbn; split; [try discriminate|]|]);
            try contradiction; try (intros _; cbn; tauto);
            try (intros H; cbn in H;
                 repeat (destruct H as [H|H]; [discriminate|]); contradiction).
          all: reflexivity. }
        rewrite Hnf. split.
        -- intros H. exists response. split; [reflexivity | now left].
        -- intros [r [Hr [H|[H _]]]]; [exact H | contradiction].
      * rewrite fromApiResponse_default by exact Hout. cbn.
        assert (Hnf : ~ In c not_found_codes).
        { intros H. apply Hout. unfold matched_codes.
          rewrite !in_app_iff. tauto. }
        split.
        -- intros H. exists response. split; [reflexivity|]. right.
           split; [exact Hout|].
           destruct (Response.status response =? 0)%Z; congruence.
        -- intros [r [Hr [H|[_ H]]]]; [contradiction|].
           injection Hr as <-. rewrite H. reflexivity.
    + rewrite fromApiResponse_default by (cbn; intuition discriminate). cbn.
      split.
      * intros H. exists response. split; [reflexivity|].
        destruct (Response.status response =? 0)%Z; congruence.
      * intros [r [Hr H]]. injection Hr as <-. rewrite H. reflexivity.
  - split.
    + destruct (AxiosError.request error); discriminate.
    + intros [r [Hr _]]. discriminate.
Qed.

(** For any client: [planExists] answers [false] exactly when the token
    store gave a token and the failure of the request has a response with a
    not-found code, or with status 404 and no code that [fromApiResponse]
    matches. *)
Lemma planExists_false_cases (T : Type) (token : result Exception string)
  (headers : gmap string string)
  (httpClient : gmap string string -> result AxiosError.t T) :
  planExists (makeAuthenticatedRequest token headers httpClient) = Return false
  <-> exists t error,
        token = Return t
        /\ httpClient (withAuth headers t) = Throw error
        /\ answers_not_found error.
Proof.
  destruct token as [t|e].
  - unfold makeAuthenticatedRequest. cbn zeta. rewrite strip_authHeader.
    destruct (httpClient (withAuth headers t)) as [r|error] eqn:E.
    + split; [discriminate|]. intros [t' [err [Ht [Hc _]]]].
      injection Ht as <-. congruence.
    + unfold planExists.
      destruct (statusCode (handleError error)) as [status|] eqn:Es.
      * destruct (Z.eqb_spec status 404) as [->|Hne].
        -- split; [|reflexivity]. intros _. exists t, error.
           split; [reflexivity|]. split; [exact E|]. now apply handleError_404.
        -- split; [discriminate|]. intros [t' [err [Ht [Hc Hnf]]]].
           injection Ht as <-. rewrite E in Hc. injection Hc as <-.
           apply handleError_404 in Hnf. congruence.
      * split; [discriminate|]. intros [t' [err [Ht [Hc Hnf]]]].
        injection Ht as <-. rewrite E in Hc. injection Hc as <-.
        apply handleError_404 in Hnf. congruence.
  - assert (E : makeAuthenticatedRequest (Throw e) headers httpClient
                = Throw (new_ApiError "Unknown error in plan service" 500
                                      "UNKNOWN_ERROR" NoDetails None))
      by (destruct e; reflexivity).
    rewrite E. cbn.
    split; [discriminate|]. intros [t [err [Ht _]]]. discriminate.
Qed.

(** X15. With the HTTP client of the repository [planExists] never answers
    [false].  It answers [true] exactly when the token store gave a token
    and [fetch] answered with a status from 200 to 299 and a readable body;
    in every other case it throws.  An answer with status 404, the body of a
    plan that does not exist included, is thrown as an [ApiError] with the
    code [UNKNOWN_ERROR] and status 500: the client throws a plain error
    without [response], so the test for status 404 never succeeds. *)
Theorem planExists_never_false (T : Type) (timeout : Z)
  (token : result Exception string) (headers : gmap string string)
  (fetch : gmap string string -> Fetch T) :
  let answer :=
    planExists (makeAuthenticatedRequest token headers (http_call timeout fetch)) in
  answer <> Return false
  /\ (answer = Return true
      <-> exists t response data,
            token = Return t
            /\ fetch (withAuth headers t) = Resolved response
            /\ FetchResponse.body response = Return data
            /\ FetchResponse.ok response = true)
  /\ (forall t response,
        token = Return t ->
        fetch (withAuth headers t) = Resolved response ->
        FetchResponse.status response = 404%Z ->
        answer
        = Throw (new_ApiError "Unknown error in plan service" 500
                              "UNKNOWN_ERROR" NoDetails None)).
Proof.
  cbn zeta.
  assert (Hthrow : forall A (error : JsError),
             planExists (T := A) (Throw (handleError (thrown error)))
             = Throw (new_ApiError "Unknown error in plan service" 500
                                   "UNKNOWN_ERROR" NoDetails None))
    by reflexivity.
  destruct token as [t|e].
  - unfold makeAuthenticatedRequest. cbn zeta. rewrite strip_authHeader.
    unfold http_call, HttpClient.request, HttpClient.catch.
    destruct (fetch (withAuth headers t)) as [response|error] eqn:Ef.
    + destruct (FetchResponse.body response) as [data|error] eqn:Eb.
      * destruct (FetchResponse.ok response) eqn:Eok; cbn [negb].
        -- split; [discriminate|]. split.
           ++ split; [|reflexivity]. intros _. exists t, response, data. auto.
           ++ intros t' r' [= <-] Hf H404. rewrite Ef in Hf.
              injection Hf as <-. exfalso.
              unfold FetchResponse.ok in Eok. rewrite H404 in Eok. discriminate.
        -- cbn [String.eqb error_name new_Error Ascii.eqb Bool.eqb].
           rewrite Hthrow. split; [discriminate|]. split; [|reflexivity].
           split; [discriminate|].
           intros (t' & r' & d' & [= <-] & Hf & _ & Hok). rewrite Ef in Hf.
           injection Hf as <-. congruence.
      * destruct (String.eqb (error_name error) "AbortError"); rewrite Hthrow;
          (split; [discriminate|]); (split; [|reflexivity]);
          (split; [discriminate|]);
          intros (t' & r' & d' & [= <-] & Hf & Hb & _); rewrite Ef in Hf;
          injection Hf as <-; congruence.
    + destruct (String.eqb (error_name error) "AbortError"); rewrite Hthrow;
        (split; [discriminate|]); (split; [|intros t' r' [= <-] Hf; congruence]);
        (split; [discriminate|]);
        intros (t' & r' & d' & [= <-] & Hf & _); congruence.
  - assert (E : makeAuthenticatedRequest (Throw e) headers
                  (http_call timeout fetch)
                = Throw (new_ApiError "Unknown error in plan service" 500
                                      "UNKNOWN_ERROR" NoDetails None))
      by (destruct e; reflexivity).
    rewrite E. cbn. split; [discriminate|]. split; [|discriminate].
    split; [discriminate|]. intros (t & r & d & [=] & _).
Qed.

Lemma planExists_never_false_example :
  planExists
    (makeAuthenticatedRequest (Return "token") ∅
       (http_call plan_service_timeout (fun _ => plan_not_found_answer)))
  = Throw (new_ApiError "Unknown error in plan service" 500 "UNKNOWN_ERROR"
                        NoDetails None).
Proof.
  apply (proj2 (proj2 (planExists_never_false json plan_service_timeout
                         (Return "token") ∅ (fun _ => plan_not_found_answer)))
               "token" _ eq_refl eq_refl eq_refl).
Defined.

(** *** Statistics *)

Lemma fold_count_frequency k plans : forall acc,
  fold_left count_frequency plans acc !! k
  = match length (getPlansByFrequency k plans) with
    | O => acc !! k
    | S n => Some (default 0%nat (acc !! k) + S n)%nat
    end.
Proof.
  induction plans as [|p plans IH]; intros acc; [reflexivity|].
  cbn [fold_left]. rewrite IH. unfold getPlansByFrequency. cbn [List.filter].
  unfold count_frequency.
  destruct (String.eqb_spec (frequency_name (Plan.frequency p)) k) as [->|Hne].
  - rewrite lookup_insert_eq. cbn [length default].
    destruct (length _); apply (f_equal Some); unfold id; lia.
  - rewrite lookup_insert_ne by exact Hne. reflexivity.
Qed.

Lemma frequencies_partition plans :
  (length (getPlansByFrequency "DAILY" plans)
   + length (getPlansByFrequency "WEEKLY" plans)
   + length (getPlansByFrequency "MONTHLY" plans)
   + length (getPlansByFrequency "YEARLY" plans))%nat
  = length plans.
Proof.
  induction plans as [|p plans IH]; [reflexivity|].
  unfold getPlansByFrequency in *. cbn [List.filter length].
  destruct (Plan.frequency p); cbn; lia.
Qed.

(** X16. The statistics of a list of plans: the active and the inactive
    plans together are at most all plans, and exactly all plans when no plan
    is [DELETED]; [plansByFrequency] has an entry for a frequency exactly
    when a plan has it, the entry is the number of such plans, it has no
    other keys, and its entries add up to the total. *)
Theorem getPlanStatistics_counts (plans : list Plan.t) :
  let stats := getPlanStatistics plans in
  (PlanStatistics.activePlans stats + PlanStatistics.inactivePlans stats
   <= PlanStatistics.totalPlans stats)%nat
  /\ ((PlanStatistics.activePlans stats + PlanStatistics.inactivePlans stats
       = PlanStatistics.totalPlans stats)%nat
      <-> forall p, In p plans -> Plan.status p <> DELETED)
  /\ (forall k,
        PlanStatistics.plansByFrequency stats !! k
        = match length (getPlansByFrequency k plans) with
          | O => None
          | S n => Some (S n)
          end)
  /\ (forall k n,
        PlanStatistics.plansByFrequency stats !! k = Some n ->
        exists f, k = frequency_name f)
  /\ (default 0 (PlanStatistics.plansByFrequency stats !! "DAILY")
      + default 0 (PlanStatistics.plansByFrequency stats !! "WEEKLY")
      + default 0 (PlanStatistics.plansByFrequency stats !! "MONTHLY")
      + default 0 (PlanStatistics.plansByFrequency stats !! "YEARLY"))%nat
     = PlanStatistics.totalPlans stats.
Proof.
  cbn zeta. unfold getPlanStatistics.
  cbn [PlanStatistics.activePlans PlanStatistics.inactivePlans
       PlanStatistics.totalPlans PlanStatistics.plansByFrequency].
  assert (Hk : forall k,
             fold_left count_frequency plans ∅ !! k
             = match length (getPlansByFrequency k plans) with
               | O => None
               | S n => Some (S n)
               end).
  { intros k. rewrite fold_count_frequency, lookup_empty. reflexivity. }
  assert (Hs : (length (List.filter is_active plans)
                + length (List.filter is_inactive plans)
                <= length plans)%nat
               /\ ((length (List.filter is_active plans)
                    + length (List.filter is_inactive plans)
                    = length plans)%nat
                   <-> forall p, In p plans -> Plan.status p <> DELETED)).
  { clear Hk. induction plans as [|p plans [IH1 IH2]].
    - split; [reflexivity|]. split; [intros _ p []|reflexivity].
    - cbn [List.filter length].
      replace (is_active p) with (match Plan.status p with ACTIVE => true | _ => false end)
        by reflexivity.
      replace (is_inactive p) with (match Plan.status p with INACTIVE => true | _ => false end)
        by reflexivity.
      destruct (Plan.status p) eqn:E; cbn [length]; (split; [lia|]).
      + rewrite Nat.add_succ_l. split.
        * intros H p' [<-|Hin]; [congruence|]. apply IH2; [lia | exact Hin].
        * intros H. f_equal. apply IH2. intros p' Hin. apply H. now right.
      + rewrite Nat.add_succ_r. split.
        * intros H p' [<-|Hin]; [congruence|]. apply IH2; [lia | exact Hin].
        * intros H. f_equal. apply IH2. intros p' Hin. apply H. now right.
      + split; [lia|]. intros H. exfalso. apply (H p); [now left | exact E]. }
  destruct Hs as [Hs1 Hs2].
  split; [exact Hs1|]. split; [exact Hs2|]. split; [exact Hk|]. split.
  - intros k n H. rewrite Hk in H.
    destruct (length (getPlansByFrequency k plans)) eqn:E; [discriminate|].
    destruct (getPlansByFrequency k plans) as [|p rest] eqn:Ef; [discriminate|].
    assert (Hin : In p (getPlansByFrequency k plans))
      by (rewrite Ef; now left).
    unfold getPlansByFrequency in Hin. apply filter_In in Hin as [_ Hp].
    apply String.eqb_eq in Hp. exists (Plan.frequency p). now symmetry.
  - rewrite !Hk. rewrite <- (frequencies_partition plans).
    repeat match goal with
           | |- context [length ?l] => destruct (length l)
           end; reflexivity.
Qed.

(** ** More on the token store *)

Lemma validateToken_valid_iff cr t :
  TokenValidation.valid (validateToken (Some cr) t) = true
  <-> (bufferTime < AuthCredentials.expires_at cr - t)%Z.
Proof.
  unfold validateToken.
  destruct (Z.leb_spec (AuthCredentials.expires_at cr - t) bufferTime); cbn;
    split; intros; try lia; try discriminate; reflexivity.
Qed.

Lemma granted_facts m tokenData t cr :
  granted m tokenData t = Some cr ->
  AuthCredentials.access_token cr = TokenResponse.access_token tokenData
  /\ AuthCredentials.expires_at cr
     = (t + TokenResponse.expires_in tokenData * 1000)%Z
  /\ is_grant m = true.
Proof. destruct m; cbn; intros [= <-]; repeat split. Qed.

Lemma grant_sends m c w :
  is_grant m = true ->
  exists r k,
    invoke m c w = send r k c PassThrough w
    /\ forall f o w0,
         continuation f = k ->
         resume f o w0
         = match o with
           | HttpOk tokenData =>
               with_microtasks
                 (jobs_for f (Return (VCredentials
                    (default (credentials_of tokenData (now w0))
                             (granted m tokenData (now w0))))))
                 (with_credentials
                    (Some (default (credentials_of tokenData (now w0))
                                   (granted m tokenData (now w0)))) w0)
           | HttpFail error =>
               with_microtasks
                 (jobs_for f (Throw (SdkError (handleAuthError error)))) w0
           end.
Proof.
  destruct m; try discriminate; intros _; cbn [invoke].
  - eexists _, _. split; [reflexivity|]. intros f o w0 Hk. unfold resume.
    rewrite Hk. now destruct o.
  - eexists _, _. split; [reflexivity|]. intros f o w0 Hk. unfold resume.
    rewrite Hk. now destruct o.
Qed.

(** X17. A grant that succeeds stores the credentials built from the
    answer and hands them to its caller.  From then on [getValidToken]
    returns the granted access token without any request for as long as
    more than five minutes of the lifetime are left, and not after; a grant
    with a lifetime of 300 seconds or less is never valid. *)
Theorem grant_then_valid (w : World) (c : Caller) (m : Method)
  (tokenData : TokenResponse.t) (cr : AuthCredentials.t) :
  granted m tokenData (now w) = Some cr ->
  microtasks w = [] ->
  exists w',
    run [Call c m; Answer (next_request w) (HttpOk tokenData); Microtask] w
    = Some w'
    /\ credentials w' = Some cr
    /\ settled w' = settled w ++ [(c, Return (VCredentials cr))]
    /\ length (sent w') = S (length (sent w))
    /\ forall (elapsed : N) (c2 : Caller),
         if (Z.of_N elapsed <? TokenResponse.expires_in tokenData * 1000
                               - bufferTime)%Z
         then run [Tick elapsed; Call c2 GetValidToken] w'
              = Some (settle c2
                        (Return (VToken (TokenResponse.access_token tokenData)))
                        (with_now (now w' + Z.of_N elapsed)%Z w'))
         else TokenValidation.valid
                (validateToken (credentials w') (now w' + Z.of_N elapsed)%Z)
              = false.
Proof.
  intros Hg Hmicro.
  destruct (granted_facts _ _ _ _ Hg) as (Ha & He & Hm).
  destruct (grant_sends m c w Hm) as (r & k & Hinv & Hres).
  cbn [run step]. rewrite Hinv. unfold send at 1 2. cbn [network microtasks].
  rewrite lookup_insert_eq, Hmicro, Hres by reflexivity.
  unfold send, with_network. cbn [now]. rewrite Hg. cbn [default]. unfold id.
  unfold with_microtasks, with_credentials, jobs_for.
  cbn [credentials tokenRefreshPromise now network next_request microtasks
       sent settled waiters map fst snd].
  eexists. split; [reflexivity|].
  unfold run_job, settle, with_microtasks.
  cbn [job_awaiter job_caller job_outcome credentials tokenRefreshPromise now
       network next_request microtasks sent settled].
  split; [reflexivity|]. split; [reflexivity|].
  split; [rewrite length_app; cbn; lia|].
  intros elapsed c2.
  destruct (Z.ltb_spec (Z.of_N elapsed)
              (TokenResponse.expires_in tokenData * 1000 - bufferTime)) as [Hlt|Hge].
  - unfold invoke, getValidToken, with_now.
    cbn [credentials tokenRefreshPromise now network next_request microtasks
         sent settled].
    assert (Hv : TokenValidation.valid
                   (validateToken (Some cr) (now w + Z.of_N elapsed)) = true)
      by (apply validateToken_valid_iff; lia).
    rewrite Hv, Ha. reflexivity.
  - destruct (TokenValidation.valid
                (validateToken (Some cr) (now w + Z.of_N elapsed))) eqn:Hv;
      [|reflexivity].
    apply validateToken_valid_iff in Hv. lia.
Qed.

Lemma grant_then_valid_example :
  exists w',
    run [Call 1%nat ClientCredentialsGrant;
         Answer 0%nat (HttpOk short_lived_token); Microtask] initial_world
    = Some w'
    /\ credentials w'
       = Some (AuthCredentials.mk "new-access-token" None 3600000 None None).
Proof.
  destruct (grant_then_valid initial_world 1%nat ClientCredentialsGrant
              short_lived_token _ eq_refl eq_refl) as (w' & Hrun & Hc & _).
  exists w'. split; [exact Hrun | exact Hc].
Defined.

(** X18. A grant that fails leaves the store as it was: the credentials
    and the refresh handle are unchanged, and the caller gets the failure
    as classified by [handleAuthError]. *)
Theorem grant_failure_keeps_credentials (w : World) (c : Caller) (m : Method)
  (error : AxiosError.t) :
  is_grant m = true ->
  microtasks w = [] ->
  exists w',
    run [Call c m; Answer (next_request w) (HttpFail error); Microtask] w
    = Some w'
    /\ credentials w' = credentials w
    /\ tokenRefreshPromise w' = tokenRefreshPromise w
    /\ network w' = delete (next_request w) (network w)
    /\ settled w' = settled w ++ [(c, Throw (SdkError (handleAuthError error)))].
Proof.
  intros Hm Hmicro.
  destruct (grant_sends m c w Hm) as (r & k & Hinv & Hres).
  cbn [run step]. rewrite Hinv. unfold send at 1 2. cbn [network microtasks].
  rewrite lookup_insert_eq, Hmicro, Hres by reflexivity.
  eexists. split; [reflexivity|].
  unfold run_job, send, settle, with_microtasks, with_network, jobs_for.
  cbn. repeat split. now rewrite delete_insert_eq.
Qed.

Lemma grant_failure_keeps_credentials_example :
  exists w',
    run [Call 1%nat ClientCredentialsGrant;
         Answer 0%nat (HttpFail refused_outcome); Microtask] stored_world
    = Some w'
    /\ credentials w' = credentials stored_world.
Proof.
  destruct (grant_failure_keeps_credentials stored_world 1%nat
              ClientCredentialsGrant refused_outcome eq_refl eq_refl)
    as (w' & Hrun & Hc & _).
  exists w'. split; [exact Hrun | exact Hc].
Defined.

(** X19. A refresh stores the credentials of the answer as a whole: the
    refresh token of the store is the one of the answer, and is gone when
    the answer has none.  Then, once the new token is within five minutes of
    its expiry, [getValidToken] throws an [AuthenticationError] and sends
    nothing. *)
Theorem refresh_replaces_refresh_token (w : World) (c : Caller)
  (tokenData : TokenResponse.t) :
  ExpiringSoon w -> tokenRefreshPromise w = None -> microtasks w = [] ->
  exists w',
    run [Call c GetValidToken; Answer (next_request w) (HttpOk tokenData);
         Microtask] w = Some w'
    /\ (AuthCredentials.refresh_token <$> credentials w')
       = Some (TokenResponse.refresh_token tokenData)
    /\ (truthy (TokenResponse.refresh_token tokenData) = false ->
        forall (elapsed : N) (c2 : Caller),
          (TokenResponse.expires_in tokenData * 1000 - bufferTime
           <= Z.of_N elapsed)%Z ->
          exists w'' e,
            run [Tick elapsed; Call c2 GetValidToken] w' = Some w''
            /\ sent w'' = sent w'
            /\ settled w'' = settled w' ++ [(c2, Throw (SdkError e))]
            /\ name e = AuthenticationError).
Proof.
  intros Hexp Hnone Hmicro.
  destruct Hexp as (cr & Hcr & Hle & Htok).
  assert (Hexp : ExpiringSoon w) by (exists cr; auto).
  destruct (concurrent_callers w [c] (HttpOk tokenData) cr)
    as (w' & Hrun & Hs & Hst & Hc & Hp); try assumption; [discriminate|].
  assert (Hnow : now w' = now w).
  { unfold concurrent_getValidToken in Hrun.
    cbn [map app length repeat run step invoke] in Hrun.
    rewrite (getValidToken_expiring c w Hexp) in Hrun.
    unfold refreshToken, tokenToUse in Hrun. rewrite Hnone, Hcr in Hrun.
    cbn [truthy mbind option_bind] in Hrun. rewrite Htok in Hrun.
    unfold with_tokenRefreshPromise, send in Hrun.
    cbn [network microtasks] in Hrun.
    rewrite lookup_insert_eq, Hmicro in Hrun.
    cbn [resume continuation run_job step run] in Hrun.
    unfold with_microtasks, with_tokenRefreshPromise, with_credentials,
      with_network, jobs_for in Hrun.
    cbn [microtasks waiters map run_job job_awaiter now] in Hrun.
    injection Hrun as <-. reflexivity. }
  exists w'. split; [exact Hrun|]. cbn [credentials_after] in Hc.
  split; [now rewrite Hc|].
  intros Hno elapsed c2 Hlate. cbn [run step].
  eexists _, (new_AuthenticationError
                "No valid token available and cannot refresh" NoDetails None None).
  split; [reflexivity|].
  unfold invoke, getValidToken, with_now, validateToken.
  cbn [credentials now]. rewrite Hc, Hnow.
  cbn [credentials_of AuthCredentials.expires_at AuthCredentials.refresh_token].
  destruct (Z.leb_spec
              (now w + TokenResponse.expires_in tokenData * 1000
               - (now w + Z.of_N elapsed)) bufferTime); [|lia].
  cbn [TokenValidation.valid TokenValidation.needs_refresh]. rewrite Hno.
  repeat split.
Qed.

Lemma refresh_replaces_refresh_token_example :
  exists w',
    run [Call 7%nat GetValidToken; Answer 0%nat (HttpOk short_lived_token);
         Microtask] stored_world = Some w'
    /\ (AuthCredentials.refresh_token <$> credentials w') = Some None.
Proof.
  assert (Hexp : ExpiringSoon stored_world).
  { exists (expiring_credentials (Some "refresh")).
    split; [reflexivity|]. split; [unfold bufferTime; cbn; lia | reflexivity]. }
  destruct (refresh_replaces_refresh_token stored_world 7%nat short_lived_token
              Hexp eq_refl eq_refl) as (w' & Hrun & Hr & _).
  exists w'. split; [exact Hrun | exact Hr].
Defined.

(** X21. Revoking does not cancel a refresh in flight: when the answer of
    the refresh arrives after the revocation has cleared the store, the
    store holds the refreshed credentials again. *)
Theorem revoke_then_refresh_answer (w : World) (c : Caller) (p : nat)
  (f : InFlight) (cr : AuthCredentials.t) (o : HttpOutcome)
  (tokenData : TokenResponse.t) :
  reachable w ->
  network w !! p = Some f -> refreshing f ->
  credentials w = Some cr -> microtasks w = [] ->
  exists w1 w2,
    run [Call c RevokeToken; Answer (next_request w) o; Microtask] w = Some w1
    /\ credentials w1 = None
    /\ step (Answer p (HttpOk tokenData)) w1 = Some w2
    /\ credentials w2 = Some (credentials_of tokenData (now w)).
Proof.
  intros Hreach Hl Hr Hc Hmicro.
  apply reachable_coherent in Hreach. destruct Hreach as [_ _ H3].
  pose proof (H3 p f Hl) as Hlt.
  cbn [run step invoke]. unfold revokeToken. rewrite Hc.
  unfold send at 1 2. cbn [network microtasks].
  rewrite lookup_insert_eq, Hmicro.
  eexists _, _. split; [reflexivity|].
  split; [now destruct o|].
  assert (Hl' : delete (next_request w)
                  (<[next_request w :=
                       mkInFlight
                         (DeleteRevokeToken (AuthCredentials.access_token cr))
                         RevokeCall [(c, PassThrough)]]> (network w)) !! p
                = Some f).
  { rewrite lookup_delete_ne by lia. rewrite lookup_insert_ne by lia. exact Hl. }
  unfold refreshing in Hr.
  destruct o; cbn; rewrite Hl'; (split; [reflexivity|]);
    unfold resume; rewrite Hr; reflexivity.
Qed.

Lemma revoke_then_refresh_answer_example :
  exists w1 w2,
    run [Call 3%nat RevokeToken; Answer 1%nat (HttpFail refused_outcome);
         Microtask] two_callers_world = Some w1
    /\ credentials w1 = None
    /\ step (Answer 0%nat (HttpOk short_lived_token)) w1 = Some w2
    /\ credentials w2 = Some (credentials_of short_lived_token 1700000).
Proof.
  assert (H : reachable two_callers_world).
  { exists two_callers_events. reflexivity. }
  exact (revoke_then_refresh_answer two_callers_world 3%nat 0%nat
           (mkInFlight (PostToken (RefreshGrant "refresh")) RefreshCall
                       [(1%nat, ReadToken); (2%nat, ReadToken)])
           (expiring_credentials (Some "refresh"))
           (HttpFail refused_outcome) short_lived_token
           H eq_refl eq_refl eq_refl eq_refl).
Defined.

(** X22. Grants are not shared the way refreshes are: every call of
    [clientCredentialsGrant] sends a request of its own, whatever is in
    flight, and none of them touches the refresh handle. *)
Theorem concurrent_grants_all_send (callers : list Caller) (w : World) :
  exists w',
    run (map (fun c => Call c ClientCredentialsGrant) callers) w = Some w'
    /\ sent w'
       = sent w ++ map (fun id => (id, PostToken ClientCredentials))
                       (seq (next_request w) (length callers))
    /\ tokenRefreshPromise w' = tokenRefreshPromise w
    /\ credentials w' = credentials w.
Proof.
  revert w. induction callers as [|c rest IH]; intros w.
  - exists w. cbn. now rewrite app_nil_r.
  - destruct (IH (invoke ClientCredentialsGrant c w)) as (w' & Hrun & Hs & Hp & Hc).
    exists w'. cbn [map run step]. split; [exact Hrun|].
    rewrite Hs, Hp, Hc. cbn. rewrite <- app_assoc. auto.
Qed.

(** *** [parseTokenPayload] *)

Lemma split_on_length sep s : forall current,
  length (split_on sep current s) = S (count_char sep s).
Proof.
  induction s as [|a s IH]; intros current; [reflexivity|].
  cbn. destruct (Ascii.eqb a sep); cbn; now rewrite IH.
Qed.

Lemma append_cons x (a b : string) :
  String.append (String x a) b = String x (String.append a b).
Proof. reflexivity. Qed.

Lemma append_empty_r (a : string) : String.append a EmptyString = a.
Proof.
  induction a as [|x a IH]; [reflexivity|]. now rewrite append_cons, IH.
Qed.

Lemma append_assoc (a b c : string) :
  String.append (String.append a b) c = String.append a (String.append b c).
Proof.
  induction a as [|x a IH]; [reflexivity|]. now rewrite !append_cons, IH.
Qed.

Lemma split_on_free sep s : forall current,
  count_char sep s = O ->
  split_on sep current s = [String.append current s].
Proof.
  induction s as [|a s IH]; intros current H; simpl in *.
  - now rewrite append_empty_r.
  - destruct (Ascii.eqb a sep); [discriminate|].
    rewrite IH by exact H. now rewrite append_assoc.
Qed.

Lemma split_on_first sep a rest : forall current,
  count_char sep a = O ->
  split_on sep current (String.append a (String sep rest))
  = String.append current a :: split_on sep EmptyString rest.
Proof.
  induction a as [|x a IH]; intros current H.
  - change (String.append EmptyString (String sep rest)) with (String sep rest).
    change (split_on sep current (String sep rest))
      with (if Ascii.eqb sep sep then current :: split_on sep EmptyString rest
            else split_on sep (String.append current (String sep EmptyString)) rest).
    now rewrite Ascii.eqb_refl, append_empty_r.
  - rewrite append_cons.
    change (split_on sep current (String x (String.append a (String sep rest))))
      with (if Ascii.eqb x sep
            then current :: split_on sep EmptyString (String.append a (String sep rest))
            else split_on sep (String.append current (String x EmptyString))
                          (String.append a (String sep rest))).
    simpl in H. destruct (Ascii.eqb x sep); [discriminate|].
    rewrite IH by exact H. now rewrite append_assoc.
Qed.

Lemma dot_free_count s : dot_free s = true -> count_char "." s = O.
Proof.
  unfold dot_free. induction s as [|a s IH]; [reflexivity|]. cbn.
  destruct (Ascii.eqb a "."); [discriminate|]. exact IH.
Qed.

Section token_payload_facts.

Variable decode : string -> result string json.

(** X23. [parseTokenPayload] reads the middle part of the token only: for
    a header, a payload that is not empty and a signature without dots, the
    result is what the decoder makes of the payload, whatever the header and
    the signature are, the empty string included. *)
Theorem parseTokenPayload_reads_payload (header payload signature : string) :
  dot_free header = true -> dot_free payload = true ->
  dot_free signature = true -> payload <> EmptyString ->
  parseTokenPayload decode
    (String.append header
       (String "." (String.append payload (String "." signature))))
  = match decode payload with
    | Return value => Return value
    | Throw message => invalid_token message
    end.
Proof.
  intros Hh Hp Hs Hne. unfold parseTokenPayload. cbn zeta.
  rewrite split_on_first by now apply dot_free_count.
  rewrite split_on_first by now apply dot_free_count.
  rewrite split_on_free by now apply dot_free_count.
  cbn [length Nat.eqb negb orb nth_error String.append].
  rewrite truthy_token by exact Hne. cbn [negb].
  rewrite truthy_or_else by now apply truthy_token. reflexivity.
Qed.

(** X24. [parseTokenPayload] rejects every token that does not have
    exactly two dots without calling the decoder, and whatever goes wrong,
    what it throws is an [AuthenticationError] with the message
    [Invalid token format] and status 401. *)
Theorem parseTokenPayload_rejects (token : string) :
  (count_char "." token <> 2%nat ->
   parseTokenPayload decode token = invalid_token "Invalid JWT format")
  /\ forall e,
       parseTokenPayload decode token = Throw e ->
       name e = AuthenticationError
       /\ message e = "Invalid token format"
       /\ statusCode e = Some 401%Z
       /\ exists originalError, details e = OriginalError originalError.
Proof.
  unfold parseTokenPayload. cbn zeta. split.
  - intros H. rewrite split_on_length.
    destruct (Nat.eqb_spec (S (count_char "." token)) 3) as [E|_]; [lia|].
    reflexivity.
  - intros e.
    destruct (_ || _).
    + intros [= <-]. repeat split. now eexists.
    + destruct (decode _); [discriminate|].
      intros [= <-]. repeat split. now eexists.
Qed.

End token_payload_facts.

Lemma parseTokenPayload_reads_payload_example :
  parseTokenPayload sample_decode ".e30." = Return (JObject true []).
Proof.
  apply (parseTokenPayload_reads_payload sample_decode EmptyString "e30"
           EmptyString); [reflexivity | reflexivity | reflexivity | discriminate].
Defined.

Lemma parseTokenPayload_rejects_example :
  parseTokenPayload sample_decode "e30"
  = invalid_token "Invalid JWT format".
Proof.
  apply (proj1 (parseTokenPayload_rejects sample_decode "e30")).
  cbn. lia.
Defined.

(** ** More on [PayfirmaSDK] *)

(** X25. An update of the configuration is checked as a whole before
    anything is stored: it throws exactly when the merged configuration is
    invalid, and a stored configuration is never invalid, so the timeout of
    the clients stays within 1000 and 300000 ms.  The update leaves the
    token store and the [initialized] flag alone. *)
Theorem updateConfig_keeps_valid (newConfig : PartialConfig.t)
  (sdk : PayfirmaSDK) :
  ((exists e, SDK.updateConfig newConfig sdk = Throw e)
   <-> invalid_config (merge_config (config sdk) newConfig))
  /\ forall sdk',
       SDK.updateConfig newConfig sdk = Return sdk' ->
       config sdk' = merge_config (config sdk) newConfig
       /\ ~ invalid_config (config sdk')
       /\ (1000 <= client_timeout (config sdk') <= 300000)%Z
       /\ auth sdk' = auth sdk
       /\ initialized sdk' = initialized sdk.
Proof.
  unfold SDK.updateConfig.
  pose proof (validateConfig_invalid (merge_config (config sdk) newConfig)) as Hi.
  destruct (validateConfig (merge_config (config sdk) newConfig)) as [[]|e] eqn:E.
  - split.
    + split; [intros [e [=]]|]. intros H. apply Hi in H as [e [=]].
    + intros sdk' [= <-]. cbn [config auth initialized].
      assert (Hv : ~ invalid_config (merge_config (config sdk) newConfig)).
      { intros H. apply Hi in H as [e [=]]. }
      repeat split; try exact Hv; now apply client_timeout_in_range.
  - split; [|discriminate].
    split; [intros _; apply Hi; now exists e | intros _; now exists e].
Qed.

Lemma updateConfig_keeps_valid_example :
  exists sdk',
    SDK.updateConfig new_urls production_sdk = Return sdk'
    /\ (1000 <= client_timeout (config sdk') <= 300000)%Z.
Proof.
  eexists. split; [reflexivity|].
  exact (proj1 (proj2 (proj2 (proj2 (updateConfig_keeps_valid new_urls
                                       production_sdk) _ eq_refl)))).
Defined.

Lemma merge_sandbox c n :
  Config.sandbox (merge_config c n)
  = spread (Config.sandbox c) (PartialConfig.sandbox n).
Proof. reflexivity. Qed.

Lemma merge_apiUrls c n :
  Config.apiUrls (merge_config c n)
  = spread (Config.apiUrls c) (PartialConfig.apiUrls n).
Proof. reflexivity. Qed.

Lemma getEnvironment_apiUrls c1 c2 sandbox :
  Config.apiUrls c1 = Config.apiUrls c2 ->
  getEnvironment c1 sandbox = getEnvironment c2 sandbox.
Proof. intros H. unfold getEnvironment. now rewrite H. Qed.

(** X26. The constructor leaves the environment as the stored configuration
    describes it.  [updateConfig] computes the environment anew only when
    the update gives [sandbox] a value, and then it is again the one the
    configuration describes.  An update that gives neither [sandbox] nor
    [apiUrls] keeps the agreement.  In every update without a value for
    [sandbox] the environment stays as it was, also when the update changes
    the URLs. *)
Theorem updateConfig_environment (newConfig : PartialConfig.t)
  (sdk sdk' : PayfirmaSDK) :
  SDK.updateConfig newConfig sdk = Return sdk' ->
  (forall c sdk0, new_PayfirmaSDK c = Return sdk0 -> consistent sdk0)
  /\ (forall sandbox,
        PartialConfig.sandbox newConfig = Some (Some sandbox) ->
        consistent sdk')
  /\ (PartialConfig.sandbox newConfig = None ->
      PartialConfig.apiUrls newConfig = None ->
      consistent sdk -> consistent sdk')
  /\ (PartialConfig.sandbox newConfig = None
      \/ PartialConfig.sandbox newConfig = Some None ->
      environment sdk' = environment sdk).
Proof.
  unfold SDK.updateConfig, consistent.
  destruct (validateConfig _); [|discriminate]. intros [= <-].
  cbn [config environment]. split; [|split; [|split]].
  - intros c sdk0. unfold new_PayfirmaSDK.
    destruct (validateConfig c); [|discriminate]. now intros [= <-].
  - intros sandbox H. rewrite merge_sandbox, H. reflexivity.
  - intros Hs Hu Hc. rewrite merge_sandbox, Hs, Hc. cbn [spread].
    apply getEnvironment_apiUrls. rewrite merge_apiUrls, Hu. reflexivity.
  - now intros [-> | ->].
Qed.

Lemma updateConfig_environment_stale :
  exists sdk',
    SDK.updateConfig new_urls production_sdk = Return sdk'
    /\ environment sdk' = environment production_sdk
    /\ Environment.authUrl (environment sdk') = "https://auth.payfirma.com"
    /\ Environment.authUrl (getEnvironment (config sdk') false)
       = "https://auth.example.com".
Proof.
  eexists. split; [reflexivity|].
  split; [|split; reflexivity].
  exact (proj2 (proj2 (proj2 (updateConfig_environment new_urls production_sdk
                                _ eq_refl)))
               (or_introl eq_refl)).
Defined.

(** ** Credentials set by hand, and the status *)

Lemma getAuthStatus_valid sdk :
  AuthStatus.tokenValid (SDK.getAuthStatus sdk) = true
  <-> exists cr, credentials (auth sdk) = Some cr
                 /\ (bufferTime < AuthCredentials.expires_at cr - now (auth sdk))%Z.
Proof.
  unfold SDK.getAuthStatus.
  destruct (credentials (auth sdk)) as [cr|]; cbn [AuthStatus.tokenValid].
  - rewrite validateToken_valid_iff. split; [intros H; now exists cr|].
    now intros [cr' [[= <-] H]].
  - split; [discriminate | now intros [cr [[=] _]]].
Qed.



(** X28. The status predicts [getValidToken]: when it says the token is
    valid, [getValidToken] returns the stored token at once; when it says
    [needsRefresh], the store is expiring with a refresh token, so
    [getValidToken] refreshes; in every other case [getValidToken] throws an
    [AuthenticationError] at once.  [needsRefresh] is present exactly when
    there are credentials and the token is not valid. *)
Theorem getAuthStatus_predicts (sdk : PayfirmaSDK) (c : Caller) :
  let status := SDK.getAuthStatus sdk in
  (AuthStatus.tokenValid status = true ->
   exists cr, credentials (auth sdk) = Some cr
              /\ invoke GetValidToken c (auth sdk)
                 = settle c (Return (VToken (AuthCredentials.access_token cr)))
                          (auth sdk))
  /\ (AuthStatus.needsRefresh status = Some true ->
      ExpiringSoon (auth sdk)
      /\ invoke GetValidToken c (auth sdk)
         = refreshToken None c ReadToken (auth sdk))
  /\ (AuthStatus.tokenValid status = false ->
      AuthStatus.needsRefresh status <> Some true ->
      exists e, invoke GetValidToken c (auth sdk)
                = settle c (Throw (SdkError e)) (auth sdk)
                /\ name e = AuthenticationError)
  /\ (AuthStatus.needsRefresh status <> None
      <-> AuthStatus.isAuthenticated status = true
          /\ AuthStatus.tokenValid status = false).
Proof.
  cbn zeta. unfold SDK.getAuthStatus, invoke, getValidToken, validateToken.
  destruct (credentials (auth sdk)) as [cr|] eqn:Ec.
  - destruct (Z.leb_spec (AuthCredentials.expires_at cr - now (auth sdk))
                bufferTime) as [Hle|Hgt];
      cbn [AuthStatus.tokenValid AuthStatus.needsRefresh
           AuthStatus.isAuthenticated TokenValidation.valid
           TokenValidation.needs_refresh TokenValidation.expires_at].
    + split; [discriminate|]. split; [|split].
      * intros [= Ht]. rewrite Ht. split; [|reflexivity]. now exists cr.
      * intros _ Hn. destruct (truthy (AuthCredentials.refresh_token cr));
          [congruence|]. eexists. split; reflexivity.
      * split; [now intros _ | discriminate].
    + split; [intros _; now exists cr|]. split; [discriminate|].
      split; [discriminate|]. split; [congruence | now intros [_ [=]]].
  - cbn. split; [discriminate|]. split; [discriminate|].
    split; [|split; [congruence | now intros [[=] _]]].
    intros _ _. eexists. split; reflexivity.
Qed.

Lemma getAuthStatus_predicts_example :
  exists cr,
    credentials (auth (SDK.setCredentials "token" None None production_sdk))
    = Some cr
    /\ invoke GetValidToken 1%nat
         (auth (SDK.setCredentials "token" None None production_sdk))
       = settle 1%nat (Return (VToken (AuthCredentials.access_token cr)))
           (auth (SDK.setCredentials "token" None None production_sdk)).
Proof.
  exact (proj1 (getAuthStatus_predicts
                  (SDK.setCredentials "token" None None production_sdk) 1%nat)
               eq_refl).
Defined.

(** ** [validateBankAccount] *)

Lemma push_if_empty condition message errors :
  push_if condition message errors = [] <-> condition = false /\ errors = [].
Proof.
  unfold push_if. destruct condition.
  - split; [|now intros [[=] _]]. intros H. now apply app_eq_nil in H as [_ [=]].
  - tauto.
Qed.

(** X29. [validateBankAccount] answers [valid] exactly when the account
    number consists of 4 to 17 digits and the routing number of 9 digits,
    and exactly then the list of errors is empty; it never reports more than
    four errors. *)
Theorem validateBankAccount_valid_iff (accountNumber routingNumber : string) :
  let answer := validateBankAccount accountNumber routingNumber in
  (BankAccountValidation.valid answer = true
   <-> string_forall is_digit accountNumber = true
       /\ (4 <= String.length accountNumber <= 17)%nat
       /\ string_forall is_digit routingNumber = true
       /\ String.length routingNumber = 9%nat)
  /\ (BankAccountValidation.valid answer = true
      <-> BankAccountValidation.errors answer = [])
  /\ (length (BankAccountValidation.errors answer) <= 4)%nat.
Proof.
  cbn zeta. unfold validateBankAccount.
  cbn [BankAccountValidation.valid BankAccountValidation.errors].
  assert (Hlen : forall l : list string, (length l =? 0)%nat = true <-> l = []).
  { intros [|x l]; cbn; split; congruence. }
  split; [|split; [apply Hlen|]].
  - rewrite Hlen, !push_if_empty.
    unfold only_digits, truthy.
    rewrite !negb_false_iff, !orb_false_iff, !negb_false_iff, !andb_true_iff,
      !negb_true_iff, Nat.eqb_eq, !Nat.ltb_ge, !String.eqb_neq.
    assert (Ha : (4 <= String.length accountNumber)%nat ->
                 accountNumber <> EmptyString)
      by (intros H ->; cbn in H; lia).
    assert (Hr : String.length routingNumber = 9%nat ->
                 routingNumber <> EmptyString)
      by (intros H ->; discriminate).
    intuition lia.
  - unfold push_if.
    repeat match goal with
           | |- context [if ?b then _ else _] => destruct b
           end; cbn; lia.
Qed.
